(** * CineMatch: the recommendation flow of [app.py]

    A shallow embedding of the part of [app.py] that turns a query into a
    ranked list of movies (lines 301-399), of the two TMDB look-ups
    (lines 143-213) and of the standard-library routine the flow is built
    on, [difflib.get_close_matches].

    Conventions
    - Python integers are [Z]; positions inside a sequence are [nat].
    - A Python [str] is the list of its code points ([list N]).
    - Similarity scores and [difflib] ratios are rationals.  Every finite
      float is a rational and [<], [>=] on floats other than NaN are the
      comparisons of those rationals.  A ratio is the float nearest to
      [2*M/T]; for sequences shorter than [2^26] elements two such floats
      compare like the exact quotients, and like the cut-offs [0.6] and
      [0.3] read as [3/5] and [3/10].
    - A raised exception is a value of [exn]; a call returns [Ok v] or
      [Raise e].  [OutOfFuel] is not a Python outcome: it marks a bounded
      loop of the model that was cut before the loop of the source would
      have stopped, and is shown never to occur. *)

From Stdlib Require Import ZArith NArith QArith Lia List Ascii String Sorting.Sorted.
From stdpp Require Import base option list gmap gmultiset strings sorting.

Local Open Scope nat_scope.

(** ** Python values and exceptions *)

Module Py.

Inductive exn : Type :=
  | IndexError
  | KeyError
  | TypeError
  | AttributeError
  | ValueError
  | ConnectionError
  | HTTPError
  | JSONDecodeError.

Inductive result (A : Type) : Type :=
  | Ok (v : A)
  | Raise (e : exn)
  | OutOfFuel.

Arguments Ok {A} v.
Arguments Raise {A} e.
Arguments OutOfFuel {A}.

Definition bind {A B} (r : result A) (k : A → result B) : result B :=
  match r with
  | Ok v => k v
  | Raise e => Raise e
  | OutOfFuel => OutOfFuel
  end.

(** A character is its code point; a [str] is the list of its characters. *)
Abbreviation char := N (only parsing).
Abbreviation str := (list N) (only parsing).

(** The code points of a string literal. *)
Definition str_of (s : string) : str :=
  N_of_ascii <$> list_ascii_of_string s.

Arguments str_of : simpl never.

(** [l[i]] on a list, a tuple or the first axis of an array: a negative
    index counts from the end. *)
Definition getitem {A} (l : list A) (i : Z) : result A :=
  let n := Z.of_nat (length l) in
  let i' := if (i <? 0)%Z then (i + n)%Z else i in
  if ((i' <? 0) || (n <=? i'))%Z then Raise IndexError
  else match l !! Z.to_nat i' with
       | Some x => Ok x
       | None => Raise IndexError
       end.

(** A slice bound is moved into [0, len]: a negative bound counts from the
    end. *)
Definition slice_bound (n i : Z) : Z :=
  if (i <? 0)%Z then Z.max 0 (i + n) else Z.min i n.

(** [l[start:stop]]. *)
Definition slice {A} (l : list A) (start stop : Z) : list A :=
  let n := Z.of_nat (length l) in
  let lo := slice_bound n start in
  let hi := slice_bound n stop in
  take (Z.to_nat (hi - lo)) (drop (Z.to_nat lo) l).

(** [list(enumerate(l))]. *)
Definition enumerate {A} (l : list A) : list (Z * A) :=
  imap (λ i x, (Z.of_nat i, x)) l.

(** [list.sort] and [sorted] are stable.  [before y x] says that [y] has to
    come in front of [x]; an element is moved past those only, so that
    elements neither of which has to come first keep their order. *)
Fixpoint insert_stable {A} (before : A → A → bool) (x : A) (l : list A) : list A :=
  match l with
  | [] => [x]
  | y :: l' => if before y x then y :: insert_stable before x l'
               else x :: y :: l'
  end.

Definition stable_sort {A} (before : A → A → bool) (l : list A) : list A :=
  foldr (insert_stable before) [] l.

(** [x < y] on floats. *)
Definition float_lt (x y : Q) : bool :=
  match (x ?= y)%Q with Lt => true | _ => false end.

(** [x >= y] on floats. *)
Definition float_ge (x y : Q) : bool := negb (float_lt x y).

(** [sorted(l, key=key, reverse=True)] with float keys. *)
Definition sorted_reverse {A} (key : A → Q) (l : list A) : list A :=
  stable_sort (λ y x, float_lt (key x) (key y)) l.

End Py.

Import Py.

#[global] Instance result_bind : MBind result := λ A B k r, Py.bind r k.

(** ** The loaded model: [movies_data] and [similarity] *)

(** A row of the [movies_data] frame: its row label (what
    [movies_data.index] holds) and the columns the application reads. *)
Record row : Type := {
  label : Z;
  index : Z;
  title : str;
  genres : str;
  director : str
}.

(** [movies_data[mask]]: the rows at which the mask holds, in row order. *)
Definition select (mask : row → bool) (movies_data : list row) : list row :=
  filter (λ r, mask r = true) movies_data.

(** Line 317:
    [movies_data[movies_data.title == close_match]['index'].values[0]]. *)
Definition index_of_the_movie (movies_data : list row) (close_match : str) : result Z :=
  getitem (index <$> select (λ r, bool_decide (title r = close_match)) movies_data) 0.

(** Line 335: [movies_data[movies_data.index == index]['title'].values[0]]. *)
Definition title_of (movies_data : list row) (i : Z) : result str :=
  getitem (title <$> select (λ r, bool_decide (label r = i)) movies_data) 0.

(** Line 339: [movies_data[movies_data.index == index].iloc[0]]. *)
Definition movie_info_of (movies_data : list row) (i : Z) : result row :=
  getitem (select (λ r, bool_decide (label r = i)) movies_data) 0.

(** Line 318: [list(enumerate(similarity[index_of_the_movie]))]. *)
Definition similarity_score (similarity : list (list Q)) (index_of_the_movie : Z)
  : result (list (Z * Q)) :=
  row ← getitem similarity index_of_the_movie;
  Ok (enumerate row).

(** Line 319: [sorted(similarity_score, key=lambda x: x[1], reverse=True)]. *)
Definition sorted_similar_movies (similarity_score : list (Z * Q)) : list (Z * Q) :=
  sorted_reverse snd similarity_score.

(** Lines 318-329: the pairs the loop of line 329 walks through,
    [sorted_similar_movies[1:num_recommendations+1]]. *)
Definition recommend (similarity : list (list Q)) (index_of_the_movie : Z)
    (num_recommendations : Z) : result (list (Z * Q)) :=
  scores ← similarity_score similarity index_of_the_movie;
  Ok (slice (sorted_similar_movies scores) 1 (num_recommendations + 1)).

(** The frame was saved with the default row labels [0, 1, ...]. *)
Definition range_index (movies_data : list row) : Prop :=
  label <$> movies_data = seqZ 0 (Z.of_nat (length movies_data)).

(** Column [index] repeats the row position. *)
Definition index_column_ok (movies_data : list row) : Prop :=
  index <$> movies_data = seqZ 0 (Z.of_nat (length movies_data)).

(** The similarity matrix is square, one row and one column per movie. *)
Definition square (N : nat) (similarity : list (list Q)) : Prop :=
  length similarity = N ∧ Forall (λ row, length row = N) similarity.


(** ** [difflib]: [SequenceMatcher] and [get_close_matches]

    The sequence matcher as [get_close_matches] builds it,
    [SequenceMatcher()]: no junk predicate and the automatic junk
    heuristic switched on.  The attributes [matching_blocks] and
    [fullbcount] only cache values that are functions of [a] and [b]; the
    model recomputes them. *)

Module Difflib.

Record SequenceMatcher : Type := {
  a : str;
  b : str;
  b2j : gmap char (list nat);
  bjunk : gset char;
  bpopular : gset char
}.

(** A [Match(a, b, size)] tuple. *)
Abbreviation Match := (nat * nat * nat)%type (only parsing).

(** [for i, elt in enumerate(b): b2j.setdefault(elt, []).append(i)],
    started at position [i]. *)
Fixpoint index_elements (i : nat) (b : str) (b2j : gmap char (list nat))
  : gmap char (list nat) :=
  match b with
  | [] => b2j
  | elt :: b' =>
      index_elements (S i) b' (<[elt := default [] (b2j !! elt) ++ [i]]> b2j)
  end.

(** The elements [popular.add] is called on: those listed more than [ntest]
    times. *)
Definition popular_elements (ntest : nat) (b2j : gmap char (list nat)) : gset char :=
  dom (filter (λ p, ntest < length p.2) b2j).

(** [for elt in popular: del b2j[elt]]. *)
Definition purge (popular : gset char) (b2j : gmap char (list nat))
  : gmap char (list nat) :=
  set_fold (λ elt m, delete elt m) b2j popular.

(** [__chain_b], giving [(b2j, bjunk, bpopular)].  [isjunk] is [None], so
    no element is junk. *)
Definition chain_b (b : str) : gmap char (list nat) * gset char * gset char :=
  let b2j := index_elements 0 b ∅ in
  let junk : gset char := ∅ in
  let n := length b in
  if 200 <=? n then
    let ntest := n / 100 + 1 in
    let popular := popular_elements ntest b2j in
    (purge popular b2j, junk, popular)
  else (b2j, junk, ∅).

(** [SequenceMatcher()] followed by [set_seq2(b)]. *)
Definition set_seq2 (b : str) : SequenceMatcher :=
  let '(b2j, junk, popular) := chain_b b in
  {| a := []; b := b; b2j := b2j; bjunk := junk; bpopular := popular |}.

Definition set_seq1 (s : SequenceMatcher) (a : str) : SequenceMatcher :=
  {| a := a; b := b s; b2j := b2j s; bjunk := bjunk s; bpopular := bpopular s |}.

(** [j2len.get(j-1, 0)]; position [-1] is never a key. *)
Definition j2lenget (j2len : gmap nat nat) (j : nat) : nat :=
  match j with
  | 0 => 0
  | S j' => default 0 (j2len !! j')
  end.

(** The loop over [j] inside [find_longest_match], with its [continue] and
    [break].  The state is [(newj2len, (besti, bestj, bestsize))]; [i-k+1]
    is written [i+1-k], the run that ends at [a[i]] being at most [i+1]
    long. *)
Fixpoint scan_row (i blo bhi : nat) (j2len : gmap nat nat) (js : list nat)
    (st : gmap nat nat * Match) : gmap nat nat * Match :=
  match js with
  | [] => st
  | j :: js' =>
      if j <? blo then scan_row i blo bhi j2len js' st
      else if bhi <=? j then st
      else
        let '(newj2len, (besti, bestj, bestsize)) := st in
        let k := j2lenget j2len j + 1 in
        let newj2len := <[j := k]> newj2len in
        if bestsize <? k
        then scan_row i blo bhi j2len js' (newj2len, (i + 1 - k, j + 1 - k, k))
        else scan_row i blo bhi j2len js' (newj2len, (besti, bestj, bestsize))
  end.

(** [b2j.get(a[i], nothing)]; [i] is a position of [a] in every call. *)
Definition positions (s : SequenceMatcher) (i : nat) : list nat :=
  match a s !! i with
  | Some elt => default [] (b2j s !! elt)
  | None => []
  end.

(** One turn of [for i in range(alo, ahi)]; the state is
    [(j2len, (besti, bestj, bestsize))]. *)
Definition scan_step (s : SequenceMatcher) (blo bhi : nat)
    (st : gmap nat nat * Match) (i : nat) : gmap nat nat * Match :=
  scan_row i blo bhi st.1 (positions s i) (∅, st.2).

(** [a[i] == b[j]]; [i] and [j] are positions of [a] and [b] wherever the
    loops ask. *)
Definition same_elt (s : SequenceMatcher) (i j : nat) : bool :=
  match a s !! i, b s !! j with
  | Some x, Some y => bool_decide (x = y)
  | _, _ => false
  end.

(** [isbjunk(b[j])]. *)
Definition isbjunk (s : SequenceMatcher) (j : nat) : bool :=
  match b s !! j with
  | Some y => bool_decide (y ∈ bjunk s)
  | None => false
  end.

(** [while besti > alo and bestj > blo and isbjunk(b[bestj-1]) == junk and
    a[besti-1] == b[bestj-1]: besti, bestj, bestsize = besti-1, bestj-1,
    bestsize+1]. *)
Fixpoint extend_left (s : SequenceMatcher) (alo blo : nat) (junk : bool)
    (besti bestj bestsize : nat) {struct besti} : Match :=
  match besti, bestj with
  | S i', S j' =>
      if (alo <? besti) && (blo <? bestj) && eqb (isbjunk s j') junk
         && same_elt s i' j'
      then extend_left s alo blo junk i' j' (S bestsize)
      else (besti, bestj, bestsize)
  | _, _ => (besti, bestj, bestsize)
  end.

(** [while besti+bestsize < ahi and bestj+bestsize < bhi and
    isbjunk(b[bestj+bestsize]) == junk and a[besti+bestsize] ==
    b[bestj+bestsize]: bestsize += 1].  [room] is [ahi - (besti+bestsize)],
    which the loop brings down by one each turn and which is [0] only when
    the loop test fails. *)
Fixpoint extend_right (s : SequenceMatcher) (ahi bhi : nat) (junk : bool)
    (besti bestj : nat) (room : nat) (bestsize : nat) : nat :=
  match room with
  | 0 => bestsize
  | S room' =>
      if (besti + bestsize <? ahi) && (bestj + bestsize <? bhi)
         && eqb (isbjunk s (bestj + bestsize)) junk
         && same_elt s (besti + bestsize) (bestj + bestsize)
      then extend_right s ahi bhi junk besti bestj room' (S bestsize)
      else bestsize
  end.

(** The two loops that grow a match on each end. *)
Definition extend (s : SequenceMatcher) (alo ahi blo bhi : nat) (junk : bool)
    (m : Match) : Match :=
  let '(besti, bestj, bestsize) := m in
  let '(besti, bestj, bestsize) := extend_left s alo blo junk besti bestj bestsize in
  (besti, bestj,
   extend_right s ahi bhi junk besti bestj (ahi - (besti + bestsize)) bestsize).

Definition find_longest_match (s : SequenceMatcher) (alo ahi blo bhi : nat) : Match :=
  let st := foldl (scan_step s blo bhi) (∅, (alo, blo, 0)) (seq alo (ahi - alo)) in
  extend s alo ahi blo bhi true (extend s alo ahi blo bhi false st.2).

(** The [while queue:] loop of [get_matching_blocks].  The head of [queue]
    is the end of the Python list, where [append] and [pop] work. *)
Fixpoint matching_loop (s : SequenceMatcher) (fuel : nat)
    (queue : list (nat * nat * nat * nat)) (matching_blocks : list Match)
  : result (list Match) :=
  match queue with
  | [] => Ok matching_blocks
  | (alo, ahi, blo, bhi) :: queue =>
      match fuel with
      | 0 => OutOfFuel
      | S fuel =>
          let '(i, j, k) := find_longest_match s alo ahi blo bhi in
          if k =? 0 then matching_loop s fuel queue matching_blocks
          else
            let queue :=
              if (alo <? i) && (blo <? j) then (alo, i, blo, j) :: queue else queue in
            let queue :=
              if (i + k <? ahi) && (j + k <? bhi) then (i + k, ahi, j + k, bhi) :: queue
              else queue in
            matching_loop s fuel queue (matching_blocks ++ [(i, j, k)])
      end
  end.

(** [x < y] on triples of integers. *)
Definition match_lt (x y : Match) : bool :=
  let '(i1, j1, k1) := x in
  let '(i2, j2, k2) := y in
  (i1 <? i2) || ((i1 =? i2) && ((j1 <? j2) || ((j1 =? j2) && (k1 <? k2)))).

(** The loop that collapses adjacent blocks; the state is
    [((i1, j1, k1), non_adjacent)]. *)
Definition collapse_step (st : Match * list Match) (m : Match) : Match * list Match :=
  let '((i1, j1, k1), non_adjacent) := st in
  let '(i2, j2, k2) := m in
  if (i1 + k1 =? i2) && (j1 + k1 =? j2) then ((i1, j1, k1 + k2), non_adjacent)
  else ((i2, j2, k2), if k1 =? 0 then non_adjacent else non_adjacent ++ [(i1, j1, k1)]).

Definition collapse (matching_blocks : list Match) : list Match :=
  let '((i1, j1, k1), non_adjacent) := foldl collapse_step ((0, 0, 0), []) matching_blocks in
  if k1 =? 0 then non_adjacent else non_adjacent ++ [(i1, j1, k1)].

(** The number of turns given to the loop: each turn takes a region from
    the queue and puts back regions that miss at least one element of it. *)
Definition turns (s : SequenceMatcher) : nat := 2 * length (a s) + 1.

Definition get_matching_blocks (s : SequenceMatcher) : result (list Match) :=
  let la := length (a s) in
  let lb := length (b s) in
  matching_blocks ← matching_loop s (turns s) [(0, la, 0, lb)] [];
  let matching_blocks := stable_sort match_lt matching_blocks in
  Ok (collapse matching_blocks ++ [(la, lb, 0)]).

(** [_calculate_ratio]. *)
Definition calculate_ratio (matches length : nat) : Q :=
  if length =? 0 then 1%Q
  else (Z.of_nat (2 * matches) # Pos.of_nat length)%Q.

Definition ratio (s : SequenceMatcher) : result Q :=
  blocks ← get_matching_blocks s;
  let matches := sum_list_with (λ triple : Match, triple.2) blocks in
  Ok (calculate_ratio matches (length (a s) + length (b s))).

(** [for elt in self.b: fullbcount[elt] = fullbcount.get(elt, 0) + 1]. *)
Definition count_elements (b : str) : gmap char Z :=
  foldl (λ fullbcount elt, <[elt := (default 0 (fullbcount !! elt) + 1)%Z]> fullbcount)
        ∅ b.

(** One turn of [for elt in self.a] in [quick_ratio]; the state is
    [(avail, matches)]. *)
Definition quick_step (fullbcount : gmap char Z) (st : gmap char Z * nat) (elt : char)
  : gmap char Z * nat :=
  let '(avail, matches) := st in
  let numb :=
    match avail !! elt with
    | Some numb => numb
    | None => default 0%Z (fullbcount !! elt)
    end in
  (<[elt := (numb - 1)%Z]> avail, if (0 <? numb)%Z then matches + 1 else matches).

Definition quick_matches (s : SequenceMatcher) : nat :=
  (foldl (quick_step (count_elements (b s))) (∅, 0) (a s)).2.

Definition quick_ratio (s : SequenceMatcher) : Q :=
  calculate_ratio (quick_matches s) (length (a s) + length (b s)).

Definition real_quick_ratio (s : SequenceMatcher) : Q :=
  let la := length (a s) in
  let lb := length (b s) in
  calculate_ratio (la `min` lb) (la + lb).

(** [x < y] on strings: by code point, a proper prefix first. *)
Fixpoint str_lt (x y : str) : bool :=
  match x, y with
  | _, [] => false
  | [], _ :: _ => true
  | c :: x', d :: y' => (c <? d)%N || ((c =? d)%N && str_lt x' y')
  end.

(** [x < y] on [(score, word)] tuples. *)
Definition scored_lt (x y : Q * str) : bool :=
  float_lt x.1 y.1 || (negb (float_lt y.1 x.1) && str_lt x.2 y.2).

(** [heapq.nlargest(n, l)], by what the library documents it to equal:
    [sorted(l, reverse=True)[:n]]. *)
Definition nlargest (n : Z) (l : list (Q * str)) : list (Q * str) :=
  slice (stable_sort (λ y x, scored_lt x y) l) 0 n.

(** The loop over [possibilities]; [and] evaluates [ratio] only when both
    quick bounds reach the cut-off. *)
Fixpoint scan_possibilities (s : SequenceMatcher) (cutoff : Q)
    (possibilities : list str) (result : list (Q * str))
  : Py.result (list (Q * str)) :=
  match possibilities with
  | [] => Ok result
  | x :: possibilities =>
      let s := set_seq1 s x in
      if float_ge (real_quick_ratio s) cutoff && float_ge (quick_ratio s) cutoff then
        r ← ratio s;
        if float_ge r cutoff
        then scan_possibilities s cutoff possibilities (result ++ [(r, x)])
        else scan_possibilities s cutoff possibilities result
      else scan_possibilities s cutoff possibilities result
  end.

Definition get_close_matches (word : str) (possibilities : list str) (n : Z)
    (cutoff : Q) : result (list str) :=
  if negb (0 <? n)%Z then Raise ValueError
  else if negb (float_ge cutoff 0 && float_ge 1 cutoff) then Raise ValueError
  else
    let s := set_seq2 word in
    result ← scan_possibilities s cutoff possibilities [];
    Ok ((λ p : Q * str, p.2) <$> nlargest n result).

End Difflib.

(** ** The TMDB look-ups *)

Module Tmdb.

(** A value decoded by [response.json()].  [JDict] lists the items of the
    dict, every key once. *)
#[warnings="-register-all"] Inductive json : Type :=
  | JNull
  | JBool (v : bool)
  | JNum (v : Q)
  | JStr (v : str)
  | JList (v : list json)
  | JDict (v : list (str * json)).

(** What [requests.get] is called with. *)
Record request : Type := {
  url : str;
  api_key : str;
  query : str;
  year : option Z
}.

(** What the network does with a request: no answer in time (or no
    connection), or an answer with a status code and a body that may or may
    not be JSON. *)
Inductive reply : Type :=
  | NoReply
  | Reply (status_code : Z) (body : option json).

Definition TMDB_BASE_URL : str := str_of "https://api.themoviedb.org/3".
Definition TMDB_IMAGE_BASE_URL : str := str_of "https://image.tmdb.org/t/p/w500".

Definition NO_API_KEY : str := str_of "https://via.placeholder.com/300x450?text=No+API+Key".
Definition NO_POSTER : str :=
  str_of "https://via.placeholder.com/300x450?text=No+Poster+Available".
Definition ERROR_LOADING : str :=
  str_of "https://via.placeholder.com/300x450?text=Error+Loading".

(** [try: body except Exception: return handler]. *)
Definition try_except {A} (body : result A) (handler : A) : result A :=
  match body with
  | Ok v => Ok v
  | Raise _ => Ok handler
  | OutOfFuel => OutOfFuel
  end.

(** [requests.get(url, params=params, timeout=5)]. *)
Definition requests_get (net : request → reply) (r : request)
  : result (Z * option json) :=
  match net r with
  | NoReply => Raise ConnectionError
  | Reply status_code body => Ok (status_code, body)
  end.

(** [response.raise_for_status()]. *)
Definition raise_for_status (response : Z * option json) : result unit :=
  if (400 <=? response.1)%Z && (response.1 <? 600)%Z then Raise HTTPError
  else Ok ().

(** [response.json()]. *)
Definition response_json (response : Z * option json) : result json :=
  match response.2 with
  | Some data => Ok data
  | None => Raise JSONDecodeError
  end.

Fixpoint dict_get (d : list (str * json)) (key : str) : option json :=
  match d with
  | [] => None
  | (k, v) :: d' => if bool_decide (k = key) then Some v else dict_get d' key
  end.

(** [v[key]] with a string key. *)
Definition subscript (v : json) (key : str) : result json :=
  match v with
  | JDict d =>
      match dict_get d key with
      | Some x => Ok x
      | None => Raise KeyError
      end
  | _ => Raise TypeError
  end.

(** [v[0]]; the keys of a decoded dict are strings. *)
Definition first (v : json) : result json :=
  match v with
  | JList l => getitem l 0
  | JStr s => c ← getitem s 0; Ok (JStr [c])
  | JDict _ => Raise KeyError
  | _ => Raise TypeError
  end.

(** The truth value of [v]. *)
Definition truthy (v : json) : bool :=
  match v with
  | JNull => false
  | JBool t => t
  | JNum q => negb (Qeq_bool q 0)
  | JStr s => negb (bool_decide (s = []))
  | JList l => match l with [] => false | _ => true end
  | JDict d => match d with [] => false | _ => true end
  end.

(** [v == s] for a string [s]. *)
Definition is_str (v : json) (s : str) : bool :=
  match v with
  | JStr t => bool_decide (t = s)
  | _ => false
  end.

(** [v.get(key, default)]. *)
Definition get (v : json) (key : str) (default : json) : result json :=
  match v with
  | JDict d => Ok (from_option id default (dict_get d key))
  | _ => Raise AttributeError
  end.

(** The dict [get_movie_details] returns. *)
Record details : Type := {
  rating : json;
  overview : json;
  release_date : json;
  popularity : json
}.

Section lookups.

(** The key read from the secrets at start-up, [""] when there is none. *)
Variable TMDB_API_KEY : str.
(** The network, as seen through [requests.get]. *)
Variable net : request → reply.
(** [str(v)] for a value [v] that is not a string. *)
Variable repr : json → str.

(** [f"{v}"]. *)
Definition format (v : json) : str :=
  match v with
  | JStr s => s
  | _ => repr v
  end.

Definition search_url : str := TMDB_BASE_URL ++ str_of "/search/movie".

Definition get_movie_poster (title : str) (year : option Z) : result str :=
  if bool_decide (TMDB_API_KEY = []) then Ok NO_API_KEY
  else
    try_except
      (response ← requests_get net
         {| url := search_url; api_key := TMDB_API_KEY; query := title; year := year |};
       _ ← raise_for_status response;
       data ← response_json response;
       results ← subscript data (str_of "results");
       if truthy results then
         movie ← first results;
         poster_path ← get movie (str_of "poster_path") JNull;
         if truthy poster_path then Ok (TMDB_IMAGE_BASE_URL ++ format poster_path)
         else Ok NO_POSTER
       else Ok NO_POSTER)
      ERROR_LOADING.

Definition get_movie_details (title : str) : result (option details) :=
  if bool_decide (TMDB_API_KEY = []) then Ok None
  else
    try_except
      (response ← requests_get net
         {| url := search_url; api_key := TMDB_API_KEY; query := title; year := None |};
       _ ← raise_for_status response;
       data ← response_json response;
       results ← subscript data (str_of "results");
       if truthy results then
         movie ← first results;
         rating ← get movie (str_of "vote_average") (JStr (str_of "N/A"));
         overview ← get movie (str_of "overview") (JStr (str_of "No overview available"));
         release_date ← get movie (str_of "release_date") (JStr (str_of "Unknown"));
         popularity ← get movie (str_of "popularity") (JNum 0);
         Ok (Some {| rating := rating; overview := overview;
                     release_date := release_date; popularity := popularity |})
       else Ok None)
      None.

End lookups.

End Tmdb.

(** ** The request: lines 301-399 *)

Module App.

(** What one card of the grid shows. *)
Record card : Type := {
  card_title : str;
  similarity_pct : Q;
  poster_url : str;
  card_rating : option Tmdb.json;
  card_genres : str;
  card_director : str;
  more_info : option (Tmdb.json * Tmdb.json)
}.

(** What the page shows after the request. *)
Inductive page : Type :=
  | Recommended (close_match : str) (cards : list card)
  | NotFound (suggestions : list str)
  | EnterName.

(** Line 308. *)
Definition find_close_match (movies_data : list row) (movie_to_search : str)
  : result (list str) :=
  Difflib.get_close_matches movie_to_search (title <$> movies_data) 1 (3 # 5).

(** Line 395. *)
Definition suggestions (movies_data : list row) (movie_to_search : str)
  : result (list str) :=
  Difflib.get_close_matches movie_to_search (title <$> movies_data) 5 (3 # 10).

(** [extra_details['overview'][:200]]. *)
Definition overview_start (v : Tmdb.json) : result Tmdb.json :=
  match v with
  | Tmdb.JStr s => Ok (Tmdb.JStr (slice s 0 200))
  | Tmdb.JList l => Ok (Tmdb.JList (slice l 0 200))
  | _ => Raise TypeError
  end.

Section request.

Variable TMDB_API_KEY : str.
Variable net : Tmdb.request → Tmdb.reply.
Variable repr : Tmdb.json → str.
Variable movies_data : list row.
Variable similarity : list (list Q).

(** The body of the loop of line 329 for one pair [movie]. *)
Definition show_card (movie : Z * Q) : result card :=
  let index := movie.1 in
  title ← title_of movies_data index;
  let similarity_pct := (movie.2 * 100)%Q in
  movie_info ← movie_info_of movies_data index;
  poster_url ← Tmdb.get_movie_poster TMDB_API_KEY net repr title None;
  extra_details ← Tmdb.get_movie_details TMDB_API_KEY net title;
  more ←
    match extra_details with
    | Some d =>
        o ← overview_start (Tmdb.overview d);
        Ok (Some (Tmdb.release_date d, o))
    | None => Ok None
    end;
  Ok {| card_title := title;
        similarity_pct := similarity_pct;
        poster_url := poster_url;
        card_rating :=
          match extra_details with
          | Some d =>
              if Tmdb.is_str (Tmdb.rating d) (str_of "N/A") then None
              else Some (Tmdb.rating d)
          | None => None
          end;
        card_genres := slice (genres movie_info) 0 50;
        card_director := director movie_info;
        more_info := more |}.

(** [for ... in ...: body], stopping at the first exception. *)
Fixpoint for_each {A B} (body : A → result B) (l : list A) : result (list B) :=
  match l with
  | [] => Ok []
  | x :: l' => y ← body x; ys ← for_each body l'; Ok (y :: ys)
  end.

Definition handle_request (movie_to_search : str) (num_recommendations : Z)
  : result page :=
  if bool_decide (movie_to_search = []) then Ok EnterName
  else
    find_close_match ← find_close_match movies_data movie_to_search;
    match find_close_match with
    | close_match :: _ =>
        index_of_the_movie ← index_of_the_movie movies_data close_match;
        shown ← recommend similarity index_of_the_movie num_recommendations;
        cards ← for_each show_card shown;
        Ok (Recommended close_match cards)
    | [] =>
        suggestions ← suggestions movies_data movie_to_search;
        Ok (NotFound (slice suggestions 0 3))
    end.

End request.

End App.

(** Lines 302 to 305: what a run of the script does with the button, the
    text box and the entry [movie_input] of the session state, which a
    quick pick of the sidebar sets; [None] when the session state has no
    such entry.  The result is [None] when the run does not enter the
    recommendation logic. *)
Definition recommendation_logic (TMDB_API_KEY : str)
    (net : Tmdb.request → Tmdb.reply) (repr : Tmdb.json → str)
    (movies_data : list row) (similarity : list (list Q))
    (search_button : bool) (movie_name : str) (movie_input : option str)
    (num_recommendations : Z) : option (result App.page) :=
  if search_button
     || match movie_input with
        | Some s => negb (bool_decide (s = []))
        | None => false
        end
  then
    let movie_to_search :=
      if negb (bool_decide (movie_name = [])) then movie_name
      else default [] movie_input in
    Some (App.handle_request TMDB_API_KEY net repr movies_data similarity
            movie_to_search num_recommendations)
  else None.

(** * The vocabulary of the properties *)

(** ** Orders *)

(** [x] may stand in front of [y] in the sorted list: [y] does not have to
    come first, and [x] has to come first or came first. *)
Definition in_order {A} (before : A → A → bool) (came : relation A) (x y : A) : Prop :=
  before y x = false ∧ (before x y = true ∨ came x y).

(** The order of the ranking: a higher score first, and for equal scores
    the lower position first. *)
Definition ranked (p q : Z * Q) : Prop :=
  (q.2 <= p.2)%Q ∧ ((q.2 < p.2)%Q ∨ (p.1 < q.1)%Z).

(** ** A small catalogue and its matrices *)


Definition sim3 : list (list Q) :=
  [[1; 1; 1 # 2]; [1; 1; 1 # 2]; [1 # 2; 1 # 2; 1]]%Q.

Definition sim_scenario : list (list Q) :=
  [[1; 8 # 10; 1 # 10]; [8 # 10; 1; 2 # 10]; [1 # 10; 2 # 10; 1]]%Q.

Definition iron_man : row :=
  {| label := 0; index := 0; title := str_of "Iron Man";
     genres := str_of "Action Adventure"; director := str_of "Jon Favreau" |}.
Definition avatar : row :=
  {| label := 1; index := 1; title := str_of "Avatar";
     genres := str_of "Action Fantasy"; director := str_of "James Cameron" |}.
Definition iron_man_again : row :=
  {| label := 2; index := 2; title := str_of "Iron Man";
     genres := str_of "Documentary"; director := str_of "" |}.

Definition three_movies : list row := [iron_man; avatar; iron_man_again].

(** The loaded model as the notebook saves it: a square matrix with one row
    per movie, the default row labels, and column [index] repeating the row
    position. *)
Definition well_formed (N : nat) (movies_data : list row)
    (similarity : list (list Q)) : Prop :=
  square N similarity ∧ length movies_data = N
  ∧ range_index movies_data ∧ index_column_ok movies_data.

(** ** Answers of the provider *)

(** The values [[:200]] can be applied to. *)
Definition sliceable (v : Tmdb.json) : Prop :=
  match v with
  | Tmdb.JStr _ | Tmdb.JList _ => True
  | _ => False
  end.

(** The values [[:200]] raises [TypeError] on: [None], booleans, numbers. *)
Definition scalar (v : Tmdb.json) : Prop :=
  match v with
  | Tmdb.JNull | Tmdb.JBool _ | Tmdb.JNum _ => True
  | _ => False
  end.

Section answers.

Import Tmdb.

(** The request of the poster look-up and of the details look-up. *)
Definition poster_request (TMDB_API_KEY : str) (title : str) (year : option Z) : request :=
  {| url := search_url; api_key := TMDB_API_KEY; query := title; year := year |}.

(** The provider failed: no answer, an error status, or a body that is not
    JSON. *)
Definition provider_failed (r : reply) : Prop :=
  match r with
  | NoReply => True
  | Reply status_code body => (400 ≤ status_code < 600)%Z ∨ body = None
  end.

(** The answer holds no usable result list: no ["results"] entry, or an
    empty one. *)
Definition no_results (r : reply) : Prop :=
  ∃ status_code data, r = Reply status_code (Some data)
    ∧ match subscript data (str_of "results") with
      | Ok results => truthy results = false
      | _ => True
      end.

(** The answer is one the look-ups read a movie from: a status that is no
    error, a JSON body, a ["results"] entry that is not empty, and [movie]
    its first element. *)
Definition first_result (r : reply) (movie : json) : Prop :=
  ∃ status_code data results,
    r = Reply status_code (Some data)
    ∧ ¬ (400 ≤ status_code < 600)%Z
    ∧ subscript data (str_of "results") = Ok results
    ∧ truthy results = true
    ∧ first results = Ok movie.

(** The look-ups up to the first result: what the [try] block of either has
    in hand when it reads the entries of the movie. *)
Definition first_of_answer (TMDB_API_KEY : str) (net : request → reply)
    (title : str) (year : option Z) : result (option json) :=
  response ← requests_get net
    {| url := search_url; api_key := TMDB_API_KEY; query := title; year := year |};
  _ ← raise_for_status response;
  data ← response_json response;
  results ← subscript data (str_of "results");
  if truthy results then movie ← first results; Ok (Some movie) else Ok None.

(** [movie.get(key, default)] for a dict [movie]. *)
Definition entry (movie : list (str * json)) (key : string) (default : json) : json :=
  from_option id default (dict_get movie (str_of key)).

(** The first result has no poster: no ["poster_path"] entry, or an empty
    one. *)
Definition no_poster_path (r : reply) : Prop :=
  ∃ status_code data results movie poster_path,
    r = Reply status_code (Some data)
    ∧ ¬ (400 ≤ status_code < 600)%Z
    ∧ subscript data (str_of "results") = Ok results
    ∧ truthy results = true
    ∧ first results = Ok movie
    ∧ get movie (str_of "poster_path") JNull = Ok poster_path
    ∧ truthy poster_path = false.

End answers.

Definition no_network : Tmdb.request → Tmdb.reply := λ _, Tmdb.NoReply.
Definition server_error : Tmdb.request → Tmdb.reply := λ _, Tmdb.Reply 500 None.
Definition empty_answer : Tmdb.request → Tmdb.reply :=
  λ _, Tmdb.Reply 200 (Some (Tmdb.JDict [(str_of "results", Tmdb.JList [])])).
Definition answer_without_poster : Tmdb.request → Tmdb.reply :=
  λ _, Tmdb.Reply 200 (Some (Tmdb.JDict [(str_of "results",
         Tmdb.JList [Tmdb.JDict [(str_of "title", Tmdb.JStr (str_of "Avatar"))]])])).
Definition answer_with_poster : Tmdb.request → Tmdb.reply :=
  λ _, Tmdb.Reply 200 (Some (Tmdb.JDict [(str_of "results",
         Tmdb.JList [Tmdb.JDict [(str_of "poster_path", Tmdb.JStr (str_of "/a.jpg"));
                                 (str_of "vote_average", Tmdb.JNum (79 # 10))]])])).

Definition answer_with_null_overview : Tmdb.request → Tmdb.reply :=
  λ _, Tmdb.Reply 200 (Some (Tmdb.JDict [(str_of "results",
         Tmdb.JList [Tmdb.JDict [(str_of "overview", Tmdb.JNull)]])])).


(** The cards of a page, none when it shows no recommendations. *)
Definition cards_of (r : result App.page) : list App.card :=
  match r with
  | Ok (App.Recommended _ cards) => cards
  | _ => []
  end.

(** ** The sequence matcher *)

Module DifflibSpec.

Import Difflib.

(** The positions below [n] at which [w] holds [c], upwards. *)
Definition occ (w : str) (c : char) (n : nat) : list nat :=
  filter (λ j, w !! j = Some c) (seq 0 n).

(** [s] carries the index of its [b]: an element leads to all its positions
    in [b], upwards, unless it is popular, and nothing is junk. *)
Definition chained (s : SequenceMatcher) : Prop :=
  bjunk s = ∅
  ∧ ∀ c, default [] (b2j s !! c)
         = if decide (c ∈ bpopular s) then [] else occ (b s) c (length (b s)).

(** [a[i+t] == b[j+t]] for the [k] places [t] from [0]. *)
Definition same_run (s : SequenceMatcher) (i j k : nat) : Prop :=
  ∀ t, t < k → ∃ c, a s !! (i + t) = Some c ∧ b s !! (j + t) = Some c.

(** [a[i:i+k] == b[j:j+k]] with [alo <= i <= i+k <= ahi] and
    [blo <= j <= j+k <= bhi]. *)
Definition is_match (s : SequenceMatcher) (alo ahi blo bhi : nat) (m : Match) : Prop :=
  alo ≤ m.1.1 ∧ m.1.1 + m.2 ≤ ahi ∧ blo ≤ m.1.2 ∧ m.1.2 + m.2 ≤ bhi
  ∧ same_run s m.1.1 m.1.2 m.2.

(** A common run of [k] elements that ends with [a[i]] and [b[j]]. *)
Definition run_ending (s : SequenceMatcher) (alo blo bhi i j k : nat) : Prop :=
  1 ≤ k ∧ k + alo ≤ i + 1 ∧ k + blo ≤ j + 1 ∧ j < bhi
  ∧ same_run s (i + 1 - k) (j + 1 - k) k.

(** What [j2len] holds when the turn for [a[i]] starts: runs that end with
    [a[i-1]]. *)
Definition runs_before (s : SequenceMatcher) (alo blo bhi i : nat)
    (j2len : gmap nat nat) : Prop :=
  ∀ j k, j2len !! j = Some k → ∃ i', i = S i' ∧ run_ending s alo blo bhi i' j k.

(** [w[lo:hi]]. *)
Definition sub (w : str) (lo hi : nat) : str := take (hi - lo) (drop lo w).

(** The sum of the sizes of a list of blocks. *)
Definition matched (blocks : list Match) : nat :=
  sum_list_with (λ triple : Match, triple.2) blocks.

(** The regions the loop keeps: [alo <= ahi] and [blo <= bhi]. *)
Definition region_ok (r : nat * nat * nat * nat) : Prop :=
  r.1.1.1 ≤ r.1.1.2 ∧ r.1.2 ≤ r.2.

(** An upper bound on the turns the loop still takes. *)
Definition work (queue : list (nat * nat * nat * nat)) : nat :=
  sum_list_with (λ r, 2 * (r.1.1.2 - r.1.1.1) + 1) queue.

(** The elements [x] and [y] have in common, counted with repetition. *)
Definition common (x y : str) : nat :=
  size (list_to_set_disj x ∩ list_to_set_disj y : gmultiset N).

Definition len_a (r : nat * nat * nat * nat) : nat := r.1.1.2 - r.1.1.1.
Definition len_b (r : nat * nat * nat * nat) : nat := r.2 - r.1.2.
Definition common_in (s : SequenceMatcher) (r : nat * nat * nat * nat) : nat :=
  common (sub (a s) r.1.1.1 r.1.1.2) (sub (b s) r.1.2 r.2).
Definition same_in (s : SequenceMatcher) (r : nat * nat * nat * nat) : Prop :=
  sub (a s) r.1.1.1 r.1.1.2 = sub (b s) r.1.2 r.2.

(** What every turn of the loop keeps.  The blocks found and the regions
    still to be searched never hold more than [a], than [b], or than the two
    have in common; and when they hold all of [a] and all of [b], and the
    regions to be searched read the same in [a] and in [b], then [a] and
    [b] are equal. *)
Definition loop_inv (s : SequenceMatcher) (queue : list (nat * nat * nat * nat))
    (blocks : list Match) : Prop :=
  matched blocks + sum_list_with len_a queue ≤ length (a s)
  ∧ matched blocks + sum_list_with len_b queue ≤ length (b s)
  ∧ matched blocks + sum_list_with (common_in s) queue ≤ common (a s) (b s)
  ∧ (matched blocks + sum_list_with len_a queue = length (a s) →
     matched blocks + sum_list_with len_b queue = length (b s) →
     Forall (same_in s) queue → a s = b s).

(** [avail[elt]] if [elt] is a key of [avail], else [fullbcount.get(elt, 0)]. *)
Definition numb_of (fullbcount avail : gmap N Z) (elt : N) : Z :=
  match avail !! elt with
  | Some numb => numb
  | None => default 0%Z (fullbcount !! elt)
  end.

(** The length of the run of elements that are not popular and end just
    before position [i] of [b]. *)
Fixpoint plain_run (s : SequenceMatcher) (i : nat) : nat :=
  match i with
  | 0 => 0
  | S i' =>
      match b s !! i' with
      | Some c => if decide (c ∈ bpopular s) then 0 else S (plain_run s i')
      | None => 0
      end
  end.

(** What holds when the turn for [a[i]] starts: the best block lies on
    the diagonal and is at least as long as every plain run so far, and
    [j2len] holds no more than the plain runs allow and, at [i-1], the plain
    run itself. *)
Definition diag_inv (s : SequenceMatcher) (i : nat)
    (st : gmap nat nat * (nat * nat * nat)) : Prop :=
  st.2.1.1 = st.2.1.2
  ∧ (∀ t, t ≤ i → plain_run s t ≤ st.2.2)
  ∧ (∀ j k, st.1 !! j = Some k → k ≤ plain_run s (S j) ∧ k ≤ plain_run s i)
  ∧ (∀ i' c, i = S i' → b s !! i' = Some c → c ∉ bpopular s →
       st.1 !! i' = Some (plain_run s i)).

(** The same inside the turn for [a[i]], with [js] still to come. *)
Definition diag_row_inv (s : SequenceMatcher) (i : nat) (js : list nat)
    (st : gmap nat nat * (nat * nat * nat)) : Prop :=
  st.2.1.1 = st.2.1.2
  ∧ (∀ t, t ≤ i → plain_run s t ≤ st.2.2)
  ∧ (∀ j k, st.1 !! j = Some k → k ≤ plain_run s (S j) ∧ k ≤ plain_run s (S i))
  ∧ (i ∈ js ∨ (plain_run s (S i) ≤ st.2.2 ∧ st.1 !! i = Some (plain_run s (S i)))).

(** The ratio [get_close_matches] computes for a possibility [x]: [word] is
    the second sequence of the matcher and [x] the first. *)
Definition ratio_of (word x : str) : result Q :=
  ratio (set_seq1 (set_seq2 word) x).

(** The value of that ratio. *)
Definition score (word x : str) : Q :=
  match ratio_of word x with
  | Ok r => r
  | _ => 0
  end.

(** The possibilities that reach the cut-off, with their scores, in the
    order of [possibilities]. *)
Definition scored (word : str) (cutoff : Q) (possibilities : list str) : list (Q * str) :=
  (λ x, (score word x, x)) <$> filter (λ x, float_ge (score word x) cutoff = true) possibilities.

(** The order of the result: a higher score first, and of two words with
    the same score the one that is greater as a string. *)
Definition ranked_words (word : str) (x y : str) : Prop :=
  (score word y <= score word x)%Q
  ∧ ((score word x == score word y)%Q → str_lt x y = false).

End DifflibSpec.

(** * Properties *)

(** ** Indexing, slicing and sorting *)

Section python_facts.

Context {A : Type}.
Implicit Types l : list A.

Lemma getitem_inside l (i : Z) :
  (0 ≤ i < Z.of_nat (length l))%Z →
  ∃ x, l !! Z.to_nat i = Some x ∧ getitem l i = Ok x.
Proof.
  intros Hi. unfold getitem.
  rewrite (proj2 (Z.ltb_ge i 0)) by lia.
  rewrite (proj2 (Z.ltb_ge i 0)) by lia.
  rewrite (proj2 (Z.leb_gt _ _)) by lia. simpl.
  destruct (lookup_lt_is_Some_2 l (Z.to_nat i)) as [x Hx]; [lia|].
  exists x. by rewrite Hx.
Qed.



(** The first element of a list that has one, [IndexError] otherwise. *)
Lemma getitem_first l :
  getitem l 0 = match l with x :: _ => Ok x | [] => Raise IndexError end.
Proof.
  destruct l as [|y l]; [done|].
  destruct (getitem_inside (y :: l) 0) as (x & Hx & ->); [simpl; lia|].
  simpl in Hx. congruence.
Qed.

Lemma slice_bound_nonneg (n i : Z) : (0 ≤ i)%Z → slice_bound n i = Z.min i n.
Proof.
  intros Hi. unfold slice_bound.
  by assert ((i <? 0)%Z = false) as -> by (apply Z.ltb_ge; lia).
Qed.

Lemma slice_from_zero l (stop : Z) :
  (0 ≤ stop)%Z → slice l 0 stop = take (Z.to_nat stop) l.
Proof.
  intros Hs. unfold slice. rewrite !slice_bound_nonneg by lia.
  rewrite (Z.min_l 0) by lia. rewrite Z.sub_0_r.
  change (Z.to_nat 0) with 0. rewrite drop_0.
  destruct (Z.le_ge_cases stop (Z.of_nat (length l))).
  - by rewrite Z.min_l by lia.
  - rewrite Z.min_r by lia. rewrite !take_ge; [done|lia..].
Qed.

Lemma slice_from_one l (stop : Z) :
  (1 ≤ stop)%Z → slice l 1 stop = take (Z.to_nat stop - 1) (drop 1 l).
Proof.
  intros Hs. unfold slice. rewrite !slice_bound_nonneg by lia.
  destruct l as [|x l]; [by rewrite !drop_nil, !take_nil|].
  rewrite (Z.min_l 1) by (simpl; lia).
  change (Z.to_nat 1) with 1.
  destruct (Z.le_ge_cases stop (Z.of_nat (length (x :: l)))).
  - rewrite Z.min_l by lia. f_equal. lia.
  - rewrite Z.min_r by lia.
    rewrite !take_ge; [done|rewrite length_drop; simpl in *; lia..].
Qed.

Lemma slice_behind_first l (stop : Z) x : x ∈ slice l 1 stop → x ∈ drop 1 l.
Proof.
  unfold slice. rewrite (slice_bound_nonneg _ 1) by lia.
  intros (k & Hk & _)%elem_of_take. apply list_elem_of_lookup_2 in Hk.
  destruct l as [|y l]; [by rewrite drop_nil in Hk|].
  by rewrite (Z.min_l 1) in Hk by (simpl; lia).
Qed.

Lemma slice_sublist l (start stop : Z) : slice l start stop `sublist_of` l.
Proof.
  unfold slice. etrans; [apply sublist_take|apply sublist_drop].
Qed.

Lemma slice_elem_of l (start stop : Z) x : x ∈ slice l start stop → x ∈ l.
Proof. intros Hx. eapply elem_of_sublist; [done|apply slice_sublist]. Qed.

Lemma slice_sorted (R : relation A) l (start stop : Z) :
  StronglySorted R l → StronglySorted R (slice l start stop).
Proof.
  intros Hl. unfold slice.
  rewrite <-(take_drop (Z.to_nat (slice_bound (Z.of_nat (length l)) start)) l) in Hl.
  apply StronglySorted_app_1_r in Hl.
  rewrite <-(take_drop (Z.to_nat
    (slice_bound (Z.of_nat (length l)) stop - slice_bound (Z.of_nat (length l)) start))
    (drop _ l)) in Hl.
  by apply StronglySorted_app_1_l in Hl.
Qed.

Lemma sorted_weaken (R1 R2 : relation A) l :
  (∀ x y, R1 x y → R2 x y) → StronglySorted R1 l → StronglySorted R2 l.
Proof.
  intros HR. induction 1 as [|x l Hl IH Hx]; constructor; [done|].
  eapply Forall_impl; [done|]. intros y. apply HR.
Qed.

Lemma sorted_lookup (R : relation A) l i j x y :
  StronglySorted R l → i < j → l !! i = Some x → l !! j = Some y → R x y.
Proof.
  intros Hl Hij Hx Hy. rewrite <-(take_drop j l) in Hl.
  eapply StronglySorted_app_1_elem_of; [done|..].
  - apply list_elem_of_lookup. exists i. by rewrite lookup_take_lt.
  - apply list_elem_of_lookup. exists 0. by rewrite lookup_drop, Nat.add_0_r.
Qed.

Lemma insert_stable_perm (before : A → A → bool) x l :
  insert_stable before x l ≡ₚ x :: l.
Proof.
  induction l as [|y l IH]; simpl; [done|].
  case_match; [|done]. rewrite IH. apply Permutation_swap.
Qed.

Lemma stable_sort_perm (before : A → A → bool) l :
  stable_sort before l ≡ₚ l.
Proof.
  induction l as [|x l IH]; simpl; [done|].
  by rewrite insert_stable_perm, IH.
Qed.

Lemma stable_sort_length (before : A → A → bool) l :
  length (stable_sort before l) = length l.
Proof. by rewrite stable_sort_perm. Qed.

Section stable.

Variable before : A → A → bool.
(** The order in which the elements came. *)
Variable came : relation A.
Hypothesis before_asym : ∀ x y, before x y = true → before y x = false.
Hypothesis before_negtrans :
  ∀ x y z, before x y = false → before y z = false → before x z = false.

Lemma insert_stable_sorted x l :
  StronglySorted (in_order before came) l → Forall (came x) l →
  StronglySorted (in_order before came) (insert_stable before x l).
Proof.
  induction 1 as [|y l Hl IH Hy]; intros Hx; simpl.
  { repeat constructor. }
  apply Forall_cons in Hx as [Hxy Hx].
  destruct (before y x) eqn:Hb.
  - constructor; [by apply IH|].
    rewrite insert_stable_perm. constructor; [|done].
    split; [by apply before_asym|by left].
  - constructor; [by constructor|].
    constructor; [split; [done|by right]|].
    rewrite Forall_forall in Hy, Hx |- *. intros z Hz. split.
    + apply before_negtrans with y; [|done]. by destruct (Hy z Hz).
    + right. by apply Hx.
Qed.

Lemma stable_sort_sorted l :
  StronglySorted came l → StronglySorted (in_order before came) (stable_sort before l).
Proof.
  induction 1 as [|x l Hl IH Hx]; simpl; [constructor|].
  apply insert_stable_sorted; [done|]. by rewrite stable_sort_perm.
Qed.

End stable.

End python_facts.

Lemma float_lt_spec (x y : Q) : float_lt x y = true ↔ (x < y)%Q.
Proof.
  unfold float_lt. rewrite Qlt_alt. by destruct (x ?= y)%Q.
Qed.

Lemma float_lt_false (x y : Q) : float_lt x y = false ↔ (y <= x)%Q.
Proof.
  rewrite <-not_true_iff_false, float_lt_spec. split.
  - apply Qnot_lt_le.
  - apply Qle_not_lt.
Qed.

Lemma float_ge_spec (x y : Q) : float_ge x y = true ↔ (y <= x)%Q.
Proof. unfold float_ge. by rewrite negb_true_iff, float_lt_false. Qed.

Lemma enumerate_lookup {A} (l : list A) (k : nat) (p : Z * A) :
  enumerate l !! k = Some p ↔ p.1 = Z.of_nat k ∧ l !! k = Some p.2.
Proof.
  unfold enumerate. rewrite list_lookup_imap. destruct p as [i x]. simpl.
  destruct (l !! k) as [y|]; simpl; split.
  - by intros [= <- <-].
  - by intros [-> [= ->]].
  - done.
  - by intros [_ ?].
Qed.

Lemma enumerate_length {A} (l : list A) : length (enumerate l) = length l.
Proof. apply length_imap. Qed.

(** [enumerate] numbers the elements upwards. *)
Lemma enumerate_sorted {A} (l : list A) :
  StronglySorted (λ p q : Z * A, (p.1 < q.1)%Z) (enumerate l).
Proof.
  unfold enumerate.
  cut (∀ n, StronglySorted (λ p q : Z * A, (p.1 < q.1)%Z)
              (imap (λ i x, (Z.of_nat (n + i), x)) l)).
  { intros H. apply (H 0). }
  induction l as [|x l IH]; intros n; [constructor|].
  rewrite imap_cons. constructor.
  - erewrite imap_ext; [apply (IH (S n))|]. intros i y _. simpl. f_equal. lia.
  - apply Forall_forall. intros [j y] [i [z [[= -> ->] _]]]%elem_of_lookup_imap_1.
    simpl. lia.
Qed.

(** ** The ranking: [recommend] *)

Section ranking.

Implicit Types similarity : list (list Q).
Implicit Types shown scores : list (Z * Q).

Lemma sorted_similar_movies_ranked (row : list Q) :
  StronglySorted ranked (sorted_similar_movies (enumerate row)).
Proof.
  unfold sorted_similar_movies, sorted_reverse.
  eapply sorted_weaken; [|apply stable_sort_sorted with
    (came := λ p q : Z * Q, (p.1 < q.1)%Z)].
  - intros p q [H1 H2]. split; [by apply float_lt_false|].
    destruct H2 as [H2|H2]; [left; by apply float_lt_spec|by right].
  - intros p q H. apply float_lt_false. apply float_lt_spec in H.
    by apply Qlt_le_weak.
  - intros p q r H1%float_lt_false H2%float_lt_false. apply float_lt_false.
    by eapply Qle_trans.
  - apply enumerate_sorted.
Qed.

Lemma recommend_unfold similarity (i n : Z) row :
  getitem similarity i = Ok row →
  recommend similarity i n
  = Ok (slice (sorted_similar_movies (enumerate row)) 1 (n + 1)).
Proof. intros H. unfold recommend, similarity_score. by rewrite H. Qed.

Lemma recommend_inside similarity (i n : Z) :
  (0 ≤ i < Z.of_nat (length similarity))%Z →
  ∃ row, similarity !! Z.to_nat i = Some row ∧
    recommend similarity i n
    = Ok (slice (sorted_similar_movies (enumerate row)) 1 (n + 1)).
Proof.
  intros Hi. destruct (getitem_inside similarity i Hi) as (row & Hrow & Hget).
  exists row. split; [done|]. by apply recommend_unfold.
Qed.

(** When the movie's own score is the highest of its row, and higher than
    every score that stands before it, the movie is at rank 0 and the slice
    leaves it out. *)
Lemma recommend_leaves_out_the_movie similarity (i n : Z) (row : list Q) (self : Q) :
  (0 ≤ i)%Z →
  similarity !! Z.to_nat i = Some row →
  row !! Z.to_nat i = Some self →
  (∀ j s, row !! j = Some s → (s <= self)%Q) →
  (∀ j s, j < Z.to_nat i → row !! j = Some s → (s < self)%Q) →
  ∃ shown, recommend similarity i n = Ok shown ∧ ∀ p, p ∈ shown → p.1 ≠ i.
Proof.
  intros Hi Hrow Hself Hmax Hfirst.
  destruct (recommend_inside similarity i n) as (row' & Hrow' & ->).
  { apply lookup_lt_Some in Hrow. lia. }
  rewrite Hrow in Hrow'. injection Hrow' as <-.
  eexists. split; [done|]. intros p Hp Hpi.
  pose proof (sorted_similar_movies_ranked row) as Hsorted.
  assert ((i, self) ∈ sorted_similar_movies (enumerate row)) as Hin.
  { unfold sorted_similar_movies, sorted_reverse. rewrite stable_sort_perm.
    apply list_elem_of_lookup. exists (Z.to_nat i). apply enumerate_lookup.
    simpl. split; [lia|done]. }
  assert (∀ q, q ∈ sorted_similar_movies (enumerate row) →
            ∃ k, q.1 = Z.of_nat k ∧ row !! k = Some q.2) as Henum.
  { intros q Hq. unfold sorted_similar_movies, sorted_reverse in Hq.
    rewrite stable_sort_perm in Hq. apply list_elem_of_lookup in Hq as [k Hk].
    exists k. by apply enumerate_lookup. }
  apply slice_behind_first in Hp.
  destruct (sorted_similar_movies (enumerate row)) as [|h sorted];
    [by apply elem_of_nil in Hin|].
  apply StronglySorted_cons in Hsorted as [Hhead _]. rewrite Forall_forall in Hhead.
  simpl in Hp. rewrite drop_0 in Hp.
  assert (h = (i, self)) as ->.
  { apply elem_of_cons in Hin as [->|Hin]; [done|].
    destruct (Hhead _ Hin) as [Hle Hor]. simpl in Hle, Hor.
    destruct (Henum h) as (k & Hk1 & Hk2); [by left|].
    pose proof (Hmax k _ Hk2) as Hk. destruct Hor as [Hlt|Hlt].
    - by apply Qlt_not_le in Hlt.
    - assert (k < Z.to_nat i) as Hki by lia.
      pose proof (Hfirst k _ Hki Hk2) as Hk'. by apply Qlt_not_le in Hk'. }
  destruct (Hhead _ Hp) as [Hle Hor]. simpl in Hle, Hor.
  destruct (Henum p) as (k & Hk1 & Hk2); [by right|].
  assert (k = Z.to_nat i) as -> by lia.
  rewrite Hself in Hk2. injection Hk2 as Hk2.
  destruct Hor as [Hlt|Hlt]; [|lia].
  rewrite <-Hk2 in Hlt. by apply Qlt_irrefl in Hlt.
Qed.

End ranking.

(** The scenario of the specification: the row [[1.0, 0.8, 0.1]] of
    "Iron Man" gives "Iron Man 2" and then "Avatar". *)
Example recommend_iron_man :
  recommend sim_scenario 0 2 = Ok [(1%Z, 8 # 10); (2%Z, 1 # 10)]%Q.
Proof. reflexivity. Qed.

(** C1, at the failing input.  Movies 0 and 1 have the same features, so
    each is as similar to the other as to itself.  Asked for the neighbours
    of movie 1, the ranking puts movie 0 first (equal scores keep their
    order), the slice drops it as if it were the movie itself, and movie 1
    is shown among its own recommendations. *)
Theorem recommend_shows_the_movie_itself :
  square 3 sim3
  ∧ recommend sim3 1 2 = Ok [(1%Z, 1%Q); (2%Z, 1 # 2)]
  ∧ 1%Z ∈ [(1%Z, 1%Q); (2%Z, 1 # 2)].*1.
Proof.
  split; [|split].
  - split; [reflexivity|]. repeat constructor.
  - reflexivity.
  - simpl. left.
Qed.




(** C4.  For a valid index the pairs come out by falling score, each score
    at most the one before it, and of two pairs with the same score the one
    with the lower catalogue position comes first. *)
Theorem recommend_sorted_stable (similarity : list (list Q)) (i n : Z) :
  (0 ≤ i < Z.of_nat (length similarity))%Z →
  ∃ shown, recommend similarity i n = Ok shown
    ∧ (∀ k p q, shown !! k = Some p → shown !! S k = Some q → (q.2 <= p.2)%Q)
    ∧ (∀ k1 k2 p q, k1 < k2 → shown !! k1 = Some p → shown !! k2 = Some q →
         (p.2 == q.2)%Q → (p.1 < q.1)%Z).
Proof.
  intros Hi. destruct (recommend_inside similarity i n Hi) as (row & _ & ->).
  eexists. split; [done|].
  pose proof (slice_sorted ranked _ 1 (n + 1) (sorted_similar_movies_ranked row)) as Hs.
  split.
  - intros k p q Hp Hq.
    by destruct (sorted_lookup ranked _ k (S k) p q Hs (Nat.lt_succ_diag_r k) Hp Hq).
  - intros k1 k2 p q Hk Hp Hq Heq.
    destruct (sorted_lookup ranked _ k1 k2 p q Hs Hk Hp Hq) as [_ [Hlt|Hlt]]; [|done].
    rewrite Heq in Hlt. by apply Qlt_irrefl in Hlt.
Qed.

Lemma recommend_sorted_stable_witness :
  ∃ shown, recommend sim3 2 2 = Ok shown
    ∧ (∀ k p q, shown !! k = Some p → shown !! S k = Some q → (q.2 <= p.2)%Q)
    ∧ (∀ k1 k2 p q, k1 < k2 → shown !! k1 = Some p → shown !! k2 = Some q →
         (p.2 == q.2)%Q → (p.1 < q.1)%Z).
Proof. apply (recommend_sorted_stable sim3 2 2). simpl. lia. Defined.

(** C5.  For a square matrix of [N] rows, a valid index and [topN >= 1],
    [recommend] returns [min(topN, N-1)] pairs. *)
Theorem recommend_length (N : nat) (similarity : list (list Q)) (i n : Z) :
  square N similarity →
  (0 ≤ i < Z.of_nat N)%Z →
  (1 ≤ n)%Z →
  ∃ shown, recommend similarity i n = Ok shown
    ∧ Z.of_nat (length shown) = Z.min n (Z.of_nat N - 1).
Proof.
  intros [HN Hrows] Hi Hn.
  destruct (recommend_inside similarity i n) as (row & Hrow & ->); [lia|].
  eexists. split; [done|].
  rewrite Forall_forall in Hrows. apply list_elem_of_lookup_2, Hrows in Hrow.
  rewrite slice_from_one by lia. rewrite length_take, length_drop.
  unfold sorted_similar_movies, sorted_reverse.
  rewrite stable_sort_length, enumerate_length. lia.
Qed.

Lemma recommend_length_witness :
  ∃ shown, recommend sim3 0 5 = Ok shown
    ∧ Z.of_nat (length shown) = Z.min 5 (Z.of_nat 3 - 1).
Proof.
  apply (recommend_length 3 sim3 0 5).
  - split; [reflexivity|]. repeat constructor.
  - lia.
  - lia.
Defined.

(** ** The catalogue: look-ups in [movies_data] *)

Section catalogue.

Implicit Types movies_data : list row.

Lemma select_no_match (mask : row → bool) movies_data :
  (∀ r, r ∈ movies_data → mask r = false) → select mask movies_data = [].
Proof.
  unfold select. induction movies_data as [|r l IH]; intros Hb; [done|].
  rewrite filter_cons_False.
  - apply IH. intros r' Hr'. apply Hb. by right.
  - rewrite (Hb r); [done|by left].
Qed.

Lemma select_first_match (mask : row → bool) (before after : list row) (r : row) :
  mask r = true → (∀ r', r' ∈ before → mask r' = false) →
  select mask (before ++ r :: after) = r :: select mask after.
Proof.
  intros Hr Hb. pose proof (select_no_match mask before Hb) as Hnil.
  unfold select in *. by rewrite filter_app, filter_cons_True, Hnil by done.
Qed.

(** Under the default row labels, the row labelled [i] is the row at
    position [i]. *)
Lemma range_index_lookup movies_data (j : nat) :
  range_index movies_data → j < length movies_data →
  ∃ before r after, movies_data = before ++ r :: after
    ∧ length before = j ∧ label r = Z.of_nat j
    ∧ ∀ r', r' ∈ before → label r' ≠ Z.of_nat j.
Proof.
  intros Hrange Hj.
  destruct (lookup_lt_is_Some_2 movies_data j Hj) as [r Hr].
  exists (take j movies_data), r, (drop (S j) movies_data).
  assert (∀ k r', movies_data !! k = Some r' → label r' = Z.of_nat k) as Hlabel.
  { intros k r' Hk.
    assert ((label <$> movies_data) !! k = Some (label r')) as Hl
      by by rewrite list_lookup_fmap, Hk.
    rewrite Hrange in Hl. apply lookup_seqZ in Hl. lia. }
  split; [by rewrite take_drop_middle|].
  split; [rewrite length_take; lia|]. split; [by apply Hlabel|].
  intros r' [k [Hk Hlt]]%elem_of_take. apply Hlabel in Hk. lia.
Qed.

End catalogue.

(** Two rows carry the title; the earlier one is found.  The comparison is
    by code point, so a title in lower case is not found. *)
Example index_of_iron_man :
  index_of_the_movie three_movies (str_of "Iron Man") = Ok 0%Z
  ∧ index_of_the_movie three_movies (str_of "iron man") = Raise IndexError.
Proof. split; reflexivity. Qed.

(** C8.  The look-up of line 317 gives the [index] entry of the first row,
    in row order, whose title is the given sequence of code points: rows
    behind it with the same title do not matter.  Where column [index]
    repeats the row position, that is the position of the row.  When no
    row has the title the look-up fails, with the [IndexError] of
    [.values[0]]. *)
Theorem index_of_the_movie_first_match (movies_data : list row) (close_match : str) :
  (∀ before r after,
     movies_data = before ++ r :: after →
     title r = close_match →
     (∀ r', r' ∈ before → title r' ≠ close_match) →
     index_of_the_movie movies_data close_match = Ok (index r)
     ∧ (index_column_ok movies_data → index r = Z.of_nat (length before)))
  ∧ ((∀ r, r ∈ movies_data → title r ≠ close_match) →
     index_of_the_movie movies_data close_match = Raise IndexError).
Proof.
  split.
  - intros before r after -> Hr Hb. split.
    + unfold index_of_the_movie.
      rewrite select_first_match.
      * by rewrite getitem_first.
      * by apply bool_decide_eq_true.
      * intros r' Hr'. by apply bool_decide_eq_false, Hb.
    + unfold index_column_ok. intros Hcol.
      assert ((index <$> before ++ r :: after) !! length before = Some (index r)) as Hl.
      { rewrite list_lookup_fmap, list_lookup_middle; done. }
      rewrite Hcol in Hl. apply lookup_seqZ in Hl. lia.
  - intros Hnone. unfold index_of_the_movie.
    rewrite select_no_match; [done|].
    intros r Hr. by apply bool_decide_eq_false, Hnone.
Qed.

Lemma index_of_the_movie_first_match_witness :
  (index_of_the_movie three_movies (str_of "Iron Man") = Ok (index iron_man)
   ∧ (index_column_ok three_movies → index iron_man = Z.of_nat (length (@nil row))))
  ∧ index_of_the_movie three_movies (str_of "Up") = Raise IndexError.
Proof.
  split.
  - apply (proj1 (index_of_the_movie_first_match three_movies (str_of "Iron Man"))
             [] iron_man [avatar; iron_man_again]).
    + reflexivity.
    + reflexivity.
    + intros r' Hr'. by apply elem_of_nil in Hr'.
  - apply (proj2 (index_of_the_movie_first_match three_movies (str_of "Up"))).
    intros r Hr. unfold three_movies in Hr.
    repeat (apply elem_of_cons in Hr as [->|Hr]; [by vm_compute|]).
    by apply elem_of_nil in Hr.
Defined.

(** C10.  When the matrix has one row and one column per movie and the
    frame has its default row labels, every position [recommend] returns
    for a valid index lies in [0, N), and the look-ups of lines 335 and 339
    find the row it labels. *)
Theorem recommend_indices_in_range (N : nat) (movies_data : list row)
    (similarity : list (list Q)) (i n : Z) :
  square N similarity →
  length movies_data = N →
  range_index movies_data →
  (0 ≤ i < Z.of_nat N)%Z →
  ∃ shown, recommend similarity i n = Ok shown
    ∧ ∀ p, p ∈ shown →
        (0 ≤ p.1 < Z.of_nat N)%Z
        ∧ ∃ r, movies_data !! Z.to_nat p.1 = Some r
             ∧ title_of movies_data p.1 = Ok (title r)
             ∧ movie_info_of movies_data p.1 = Ok r.
Proof.
  intros [HN Hrows] Hlen Hrange Hi.
  destruct (recommend_inside similarity i n) as (row & Hrow & ->); [lia|].
  eexists. split; [done|]. intros p Hp%slice_elem_of.
  rewrite Forall_forall in Hrows. apply list_elem_of_lookup_2, Hrows in Hrow.
  unfold sorted_similar_movies, sorted_reverse in Hp.
  rewrite stable_sort_perm in Hp.
  apply list_elem_of_lookup in Hp as [k Hk].
  apply enumerate_lookup in Hk as [Hk1 Hk2].
  apply lookup_lt_Some in Hk2. split; [lia|].
  destruct (range_index_lookup movies_data k Hrange) as
    (before & r & after & Hsplit & Hbefore & Hr & Hnone); [lia|].
  exists r. rewrite Hk1, Nat2Z.id. split.
  { rewrite Hsplit, <-Hbefore. by apply list_lookup_middle. }
  unfold title_of, movie_info_of. rewrite Hsplit.
  rewrite select_first_match.
  - by rewrite !getitem_first.
  - by apply bool_decide_eq_true.
  - intros r' Hr'. by apply bool_decide_eq_false, Hnone.
Qed.

Lemma recommend_indices_in_range_witness :
  ∃ shown, recommend sim3 0 10 = Ok shown
    ∧ ∀ p, p ∈ shown →
        (0 ≤ p.1 < Z.of_nat 3)%Z
        ∧ ∃ r, three_movies !! Z.to_nat p.1 = Some r
             ∧ title_of three_movies p.1 = Ok (title r)
             ∧ movie_info_of three_movies p.1 = Ok r.
Proof.
  apply (recommend_indices_in_range 3 three_movies sim3 0 10).
  - split; [reflexivity|]. repeat constructor.
  - reflexivity.
  - reflexivity.
  - lia.
Defined.

(** ** The TMDB look-ups never raise *)

Section provider.

Import Tmdb.

Variable TMDB_API_KEY : str.
Variable net : request → reply.
Variable repr : json → str.

Lemma try_except_total {A} (body : result A) (handler : A) :
  body ≠ OutOfFuel → ∃ v, try_except body handler = Ok v.
Proof. destruct body; intros H; simpl; by eauto. Qed.

Lemma subscript_returns (v : json) (key : str) : subscript v key ≠ OutOfFuel.
Proof. unfold subscript. by repeat case_match. Qed.

Lemma get_movie_poster_total (title : str) (year : option Z) :
  ∃ u, get_movie_poster TMDB_API_KEY net repr title year = Ok u.
Proof.
  unfold get_movie_poster. case_bool_decide; [by eexists|].
  apply try_except_total.
  unfold requests_get, raise_for_status, response_json, subscript, first, get, getitem.
  repeat (case_match; simpl in *; try done).
Qed.

Lemma get_movie_details_total (title : str) :
  ∃ d, get_movie_details TMDB_API_KEY net title = Ok d.
Proof.
  unfold get_movie_details. case_bool_decide; [by eexists|].
  apply try_except_total.
  unfold requests_get, raise_for_status, response_json, subscript, first, get, getitem.
  repeat (case_match; simpl in *; try done).
Qed.

Lemma provider_failed_poster (title : str) (year : option Z) :
  TMDB_API_KEY ≠ [] →
  provider_failed (net (poster_request TMDB_API_KEY title year)) →
  get_movie_poster TMDB_API_KEY net repr title year = Ok ERROR_LOADING.
Proof.
  intros Hkey Hfail. unfold get_movie_poster.
  rewrite bool_decide_eq_false_2 by done.
  unfold requests_get. fold (poster_request TMDB_API_KEY title year).
  destruct (net (poster_request TMDB_API_KEY title year)) as [|st body]; [done|]. simpl.
  unfold raise_for_status. simpl.
  destruct Hfail as [Hst| ->].
  - assert ((400 <=? st)%Z && (st <? 600)%Z = true) as ->; [|done].
    apply andb_true_iff. split; [apply Z.leb_le|apply Z.ltb_lt]; lia.
  - by destruct ((400 <=? st)%Z && (st <? 600)%Z).
Qed.

Lemma provider_failed_details (title : str) :
  TMDB_API_KEY ≠ [] →
  provider_failed (net (poster_request TMDB_API_KEY title None)) →
  get_movie_details TMDB_API_KEY net title = Ok None.
Proof.
  intros Hkey Hfail. unfold get_movie_details.
  rewrite bool_decide_eq_false_2 by done.
  unfold requests_get. fold (poster_request TMDB_API_KEY title None).
  destruct (net (poster_request TMDB_API_KEY title None)) as [|st body]; [done|]. simpl.
  unfold raise_for_status. simpl.
  destruct Hfail as [Hst| ->].
  - assert ((400 <=? st)%Z && (st <? 600)%Z = true) as ->; [|done].
    apply andb_true_iff. split; [apply Z.leb_le|apply Z.ltb_lt]; lia.
  - by destruct ((400 <=? st)%Z && (st <? 600)%Z).
Qed.

Lemma no_results_poster (title : str) (year : option Z) :
  TMDB_API_KEY ≠ [] →
  no_results (net (poster_request TMDB_API_KEY title year)) →
  ∃ u, get_movie_poster TMDB_API_KEY net repr title year = Ok u
    ∧ (u = NO_POSTER ∨ u = ERROR_LOADING).
Proof.
  intros Hkey (st & data & Hreply & Hdata). unfold get_movie_poster.
  rewrite bool_decide_eq_false_2 by done.
  unfold requests_get. fold (poster_request TMDB_API_KEY title year). rewrite Hreply. simpl.
  unfold raise_for_status. simpl.
  destruct ((400 <=? st)%Z && (st <? 600)%Z); simpl; [by eauto|].
  pose proof (subscript_returns data (str_of "results")) as Hret.
  destruct (subscript data (str_of "results")) as [results| |]; simpl; [|by eauto|done].
  rewrite Hdata. simpl. by eauto.
Qed.

Lemma no_results_details (title : str) :
  TMDB_API_KEY ≠ [] →
  no_results (net (poster_request TMDB_API_KEY title None)) →
  get_movie_details TMDB_API_KEY net title = Ok None.
Proof.
  intros Hkey (st & data & Hreply & Hdata). unfold get_movie_details.
  rewrite bool_decide_eq_false_2 by done.
  unfold requests_get. fold (poster_request TMDB_API_KEY title None). rewrite Hreply. simpl.
  unfold raise_for_status. simpl.
  destruct ((400 <=? st)%Z && (st <? 600)%Z); simpl; [done|].
  pose proof (subscript_returns data (str_of "results")) as Hret.
  destruct (subscript data (str_of "results")) as [results| |]; simpl; [|done..].
  by rewrite Hdata.
Qed.

Lemma no_poster_path_poster (title : str) (year : option Z) :
  TMDB_API_KEY ≠ [] →
  no_poster_path (net (poster_request TMDB_API_KEY title year)) →
  get_movie_poster TMDB_API_KEY net repr title year = Ok NO_POSTER.
Proof.
  intros Hkey (st & data & results & movie & path & Hreply & Hst & Hres & Ht & Hm & Hp & Hf).
  unfold get_movie_poster. rewrite bool_decide_eq_false_2 by done.
  unfold requests_get. fold (poster_request TMDB_API_KEY title year). rewrite Hreply. simpl.
  unfold raise_for_status. simpl.
  assert ((400 <=? st)%Z && (st <? 600)%Z = false) as ->.
  { apply andb_false_iff.
    destruct (Z.leb_spec 400 st); [|by left]. right. apply Z.ltb_ge. lia. }
  simpl. rewrite Hres. simpl. rewrite Ht, Hm. simpl. rewrite Hp. simpl.
  by rewrite Hf.
Qed.

Variable movies_data : list row.

(** A card is put together whenever the catalogue has the row, whatever the
    look-ups brought back, as long as the details are absent. *)
Lemma show_card_without_details (movie : Z * Q) (t : str) (r : row) :
  title_of movies_data movie.1 = Ok t →
  movie_info_of movies_data movie.1 = Ok r →
  get_movie_details TMDB_API_KEY net t = Ok None →
  ∃ c, App.show_card TMDB_API_KEY net repr movies_data movie = Ok c
    ∧ App.card_title c = t ∧ App.card_rating c = None ∧ App.more_info c = None.
Proof.
  intros Ht Hr Hd. unfold App.show_card. rewrite Ht. simpl. rewrite Hr. simpl.
  destruct (get_movie_poster_total t None) as [u ->]. simpl.
  rewrite Hd. simpl. by eexists.
Qed.

End provider.

Example poster_found :
  Tmdb.get_movie_poster (str_of "k") answer_with_poster (λ _, []) (str_of "Avatar") None
  = Ok (str_of "https://image.tmdb.org/t/p/w500/a.jpg").
Proof. reflexivity. Qed.

Example details_found :
  Tmdb.rating <$> default None (match
    Tmdb.get_movie_details (str_of "k") answer_with_poster (str_of "Avatar")
    with Ok d => Some d | _ => None end)
  = Some (Tmdb.JNum (79 # 10)).
Proof. reflexivity. Qed.

(** What does hold of the look-ups.  Neither look-up ever raises.
    Without an API key the poster look-up returns the "No API Key"
    placeholder and the details look-up [None]; when the provider fails (no answer, an error status, a body
    that is not JSON) they return the "Error Loading" placeholder and
    [None]; when the answer lacks results, or its first result a poster,
    they return a placeholder and [None].  With absent details the card of
    a movie the catalogue holds is still put together. *)
Theorem provider_failures_never_abort (TMDB_API_KEY : str)
    (net : Tmdb.request → Tmdb.reply) (repr : Tmdb.json → str)
    (title : str) (year : option Z) :
  (∃ u, Tmdb.get_movie_poster TMDB_API_KEY net repr title year = Ok u)
  ∧ (∃ d, Tmdb.get_movie_details TMDB_API_KEY net title = Ok d)
  ∧ (TMDB_API_KEY = [] →
       Tmdb.get_movie_poster TMDB_API_KEY net repr title year = Ok Tmdb.NO_API_KEY
       ∧ Tmdb.get_movie_details TMDB_API_KEY net title = Ok None)
  ∧ (TMDB_API_KEY ≠ [] →
       (provider_failed (net (poster_request TMDB_API_KEY title year)) →
        Tmdb.get_movie_poster TMDB_API_KEY net repr title year = Ok Tmdb.ERROR_LOADING)
       ∧ (provider_failed (net (poster_request TMDB_API_KEY title None)) →
          Tmdb.get_movie_details TMDB_API_KEY net title = Ok None)
       ∧ (no_results (net (poster_request TMDB_API_KEY title year)) →
          ∃ u, Tmdb.get_movie_poster TMDB_API_KEY net repr title year = Ok u
            ∧ (u = Tmdb.NO_POSTER ∨ u = Tmdb.ERROR_LOADING))
       ∧ (no_results (net (poster_request TMDB_API_KEY title None)) →
          Tmdb.get_movie_details TMDB_API_KEY net title = Ok None)
       ∧ (no_poster_path (net (poster_request TMDB_API_KEY title year)) →
          Tmdb.get_movie_poster TMDB_API_KEY net repr title year = Ok Tmdb.NO_POSTER))
  ∧ (∀ movies_data (movie : Z * Q) r,
       title_of movies_data movie.1 = Ok title →
       movie_info_of movies_data movie.1 = Ok r →
       Tmdb.get_movie_details TMDB_API_KEY net title = Ok None →
       ∃ c, App.show_card TMDB_API_KEY net repr movies_data movie = Ok c
         ∧ App.more_info c = None).
Proof.
  split; [apply get_movie_poster_total|].
  split; [apply get_movie_details_total|].
  split; [|split].
  - intros ->. by split.
  - intros Hkey. split; [by apply provider_failed_poster|].
    split; [by apply provider_failed_details|].
    split; [by apply no_results_poster|].
    split; [by apply no_results_details|].
    by apply no_poster_path_poster.
  - intros movies_data movie r Ht Hr Hd.
    destruct (show_card_without_details TMDB_API_KEY net repr movies_data
                movie title r Ht Hr Hd) as (c & Hc & _ & _ & Hm).
    by exists c.
Qed.

Lemma provider_failures_never_abort_witness :
  Tmdb.get_movie_poster [] no_network (λ _, []) (str_of "Avatar") None = Ok Tmdb.NO_API_KEY
  ∧ Tmdb.get_movie_poster (str_of "k") no_network (λ _, []) (str_of "Avatar") None
    = Ok Tmdb.ERROR_LOADING
  ∧ Tmdb.get_movie_details (str_of "k") server_error (str_of "Avatar") = Ok None
  ∧ Tmdb.get_movie_details (str_of "k") empty_answer (str_of "Avatar") = Ok None
  ∧ Tmdb.get_movie_poster (str_of "k") answer_without_poster (λ _, []) (str_of "Avatar") None
    = Ok Tmdb.NO_POSTER
  ∧ ∃ c, App.show_card (str_of "k") no_network (λ _, []) three_movies (1%Z, 1%Q) = Ok c
      ∧ App.more_info c = None.
Proof.
  assert (str_of "k" ≠ []) as Hkey by discriminate.
  destruct (provider_failures_never_abort [] no_network (λ _, []) (str_of "Avatar") None)
    as (_ & _ & Hnokey & _).
  destruct (provider_failures_never_abort (str_of "k") no_network (λ _, [])
              (str_of "Avatar") None) as (_ & _ & _ & Hnet & Hcard).
  destruct (provider_failures_never_abort (str_of "k") server_error (λ _, [])
              (str_of "Avatar") None) as (_ & _ & _ & Hserver & _).
  destruct (provider_failures_never_abort (str_of "k") empty_answer (λ _, [])
              (str_of "Avatar") None) as (_ & _ & _ & Hempty & _).
  destruct (provider_failures_never_abort (str_of "k") answer_without_poster (λ _, [])
              (str_of "Avatar") None) as (_ & _ & _ & Hposter & _).
  split; [|split; [|split; [|split; [|split]]]].
  - apply Hnokey. reflexivity.
  - destruct (Hnet Hkey) as (H1 & _). apply H1. exact I.
  - destruct (Hserver Hkey) as (_ & H2 & _). apply H2. left. lia.
  - destruct (Hempty Hkey) as (_ & _ & _ & H4 & _). apply H4.
    exists 200%Z, (Tmdb.JDict [(str_of "results", Tmdb.JList [])]).
    split; reflexivity.
  - destruct (Hposter Hkey) as (_ & _ & _ & _ & H5). apply H5.
    eexists 200%Z, _, _, _, _. split; [reflexivity|]. split; [lia|].
    repeat (split; [reflexivity|]). reflexivity.
  - apply (Hcard three_movies (1%Z, 1%Q) avatar); reflexivity.
Defined.

(** C9, at the failing input.  The provider answers the search for
    "Avatar" with a result that has no data of its own: no poster path and
    the overview [null].  The poster look-up returns the "No Poster"
    placeholder, and the details look-up returns a dict, whose overview is
    [None], since the default of line 205 stands in only for an absent
    entry.  The card of "Avatar" then ends in the [TypeError] of
    [extra_details['overview'][:200]], line 390, which no [try] encloses,
    and the request for the neighbours of "Iron Man" ends in it: no page
    is produced. *)
Theorem missing_overview_aborts_the_request :
  well_formed 3 three_movies sim_scenario
  ∧ Tmdb.get_movie_poster (str_of "k") answer_with_null_overview (λ _, [])
      (str_of "Avatar") None = Ok Tmdb.NO_POSTER
  ∧ Tmdb.get_movie_details (str_of "k") answer_with_null_overview (str_of "Avatar")
    = Ok (Some {| Tmdb.rating := Tmdb.JStr (str_of "N/A");
                  Tmdb.overview := Tmdb.JNull;
                  Tmdb.release_date := Tmdb.JStr (str_of "Unknown");
                  Tmdb.popularity := Tmdb.JNum 0 |})
  ∧ recommend sim_scenario 0 5 = Ok [(1%Z, 8 # 10); (2%Z, 1 # 10)]
  ∧ App.show_card (str_of "k") answer_with_null_overview (λ _, []) three_movies
      (1%Z, 8 # 10) = Raise TypeError
  ∧ App.handle_request (str_of "k") answer_with_null_overview (λ _, []) three_movies
      sim_scenario (str_of "Iron Man") 5 = Raise TypeError.
Proof.
  split_and!; try by vm_compute.
  split_and!; [split; [reflexivity|repeat constructor]|reflexivity..].
Qed.

(** ** The sequence matcher *)

Module DifflibFacts.

Import Difflib DifflibSpec.

(** *** The index [b2j] *)

Lemma elem_of_occ (w : str) (c : char) (n j : nat) :
  j ∈ occ w c n ↔ j < n ∧ w !! j = Some c.
Proof.
  unfold occ. rewrite list_elem_of_filter, elem_of_seq. split.
  - intros [? [_ ?]]. by split.
  - intros [? ?]. split; [done|lia].
Qed.

Lemma occ_S (w : str) (c : char) (n : nat) :
  occ w c (S n) = occ w c n ++ (if decide (w !! n = Some c) then [n] else []).
Proof.
  unfold occ. by rewrite seq_S, filter_app.
Qed.

Lemma occ_sorted (w : str) (c : char) (n : nat) :
  StronglySorted lt (occ w c n).
Proof.
  induction n as [|n IH]; [constructor|].
  rewrite occ_S. apply StronglySorted_app_2; [|done|].
  - intros j1 j2 [Hj1 _]%elem_of_occ Hj2.
    destruct (decide (w !! n = Some c)); [|by apply elem_of_nil in Hj2].
    apply list_elem_of_singleton in Hj2. lia.
  - destruct (decide (w !! n = Some c)); repeat constructor.
Qed.

Lemma index_elements_occ (pre rest : str) (m : gmap char (list nat)) :
  (∀ c, default [] (m !! c) = occ (pre ++ rest) c (length pre)) →
  ∀ c, default [] (index_elements (length pre) rest m !! c)
       = occ (pre ++ rest) c (length (pre ++ rest)).
Proof.
  revert pre m. induction rest as [|elt rest IH]; intros pre m Hm c; simpl.
  - by rewrite Hm, app_nil_r.
  - replace (pre ++ elt :: rest) with ((pre ++ [elt]) ++ rest)
      by by rewrite <-app_assoc.
    replace (S (length pre)) with (length (pre ++ [elt]))
      by (rewrite length_app; simpl; lia).
    apply IH. intros d.
    rewrite length_app. simpl. rewrite Nat.add_1_r, occ_S.
    rewrite <-app_assoc. simpl.
    rewrite list_lookup_middle by done.
    destruct (decide (elt = d)) as [->|Hne].
    + rewrite lookup_insert_eq. simpl. rewrite Hm.
      by rewrite decide_True by done.
    + rewrite lookup_insert_ne by done. rewrite Hm.
      rewrite decide_False by congruence. by rewrite app_nil_r.
Qed.

Lemma purge_lookup (popular : gset char) (m : gmap char (list nat)) (c : char) :
  purge popular m !! c = if decide (c ∈ popular) then None else m !! c.
Proof.
  unfold purge.
  refine (set_fold_ind_L (λ r (X : gset char),
            r !! c = if decide (c ∈ X) then None else m !! c)
            (λ elt m, delete elt m) m _ _ popular).
  - by rewrite decide_False by apply not_elem_of_empty.
  - intros x X r Hx Hr. destruct (decide (x = c)) as [->|Hne].
    + rewrite lookup_delete_eq.
      by rewrite decide_True by (apply elem_of_union_l, elem_of_singleton; done).
    + rewrite lookup_delete_ne by done. rewrite Hr.
      destruct (decide (c ∈ X)) as [Hc|Hc].
      * by rewrite decide_True by by apply elem_of_union_r.
      * rewrite decide_False; [done|].
        intros [Hin%elem_of_singleton|Hin]%elem_of_union; [by subst|done].
Qed.

Lemma chain_b_chained (w : str) :
  ∀ c, default [] ((chain_b w).1.1 !! c)
       = if decide (c ∈ (chain_b w).2) then [] else occ w c (length w).
Proof.
  intros c.
  pose proof (index_elements_occ [] w ∅) as Hocc. simpl in Hocc.
  specialize (Hocc (λ d, eq_refl)).
  unfold chain_b. destruct (200 <=? length w); simpl.
  - rewrite purge_lookup. destruct (decide (c ∈ _)); [done|apply Hocc].
  - rewrite decide_False by apply not_elem_of_empty. apply Hocc.
Qed.

Lemma set_seq2_chained (w x : str) : chained (set_seq1 (set_seq2 w) x).
Proof.
  pose proof (chain_b_chained w) as H.
  unfold chained, set_seq1, set_seq2. unfold chain_b in *.
  destruct (200 <=? length w); simpl in *; by split.
Qed.

Lemma set_seq1_a (w x : str) : a (set_seq1 (set_seq2 w) x) = x.
Proof. done. Qed.

Lemma set_seq1_b (w x : str) : b (set_seq1 (set_seq2 w) x) = w.
Proof. unfold set_seq1, set_seq2. by destruct (chain_b w) as [[? ?] ?]. Qed.

(** *** [find_longest_match] returns a matching block of the region *)

Section longest_match.

Variable s : SequenceMatcher.
Hypothesis s_chained : chained s.

Lemma positions_same (i j : nat) :
  j ∈ positions s i → ∃ c, a s !! i = Some c ∧ b s !! j = Some c.
Proof.
  unfold positions. destruct (a s !! i) as [c|]; [|by intros ?%elem_of_nil].
  destruct s_chained as [_ Hb2j]. rewrite Hb2j.
  destruct (decide (c ∈ bpopular s)); [by intros ?%elem_of_nil|].
  intros [_ Hj]%elem_of_occ. by exists c.
Qed.

Lemma same_run_snoc (i j k : nat) (c : char) :
  same_run s i j k → a s !! (i + k) = Some c → b s !! (j + k) = Some c →
  same_run s i j (S k).
Proof.
  intros Hrun Ha Hb t Ht. destruct (decide (t = k)) as [->|Hne].
  - by exists c.
  - apply Hrun. lia.
Qed.

Lemma same_run_cons (i j k : nat) (c : char) :
  same_run s (S i) (S j) k → a s !! i = Some c → b s !! j = Some c →
  same_run s i j (S k).
Proof.
  intros Hrun Ha Hb [|t] Ht.
  - exists c. by rewrite !Nat.add_0_r.
  - destruct (Hrun t) as (d & Hd1 & Hd2); [lia|]. exists d.
    by rewrite <-!Nat.add_succ_comm.
Qed.

Lemma same_elt_spec (i j : nat) :
  same_elt s i j = true ↔ ∃ c, a s !! i = Some c ∧ b s !! j = Some c.
Proof.
  unfold same_elt. destruct (a s !! i) as [x|], (b s !! j) as [y|].
  - rewrite bool_decide_eq_true. split; [intros ->; by exists y|].
    by intros (c & [= ->] & [= ->]).
  - split; [done|]. by intros (c & _ & ?).
  - split; [done|]. by intros (c & ? & _).
  - split; [done|]. by intros (c & ? & _).
Qed.

Lemma j2lenget_run (alo blo bhi i j : nat) (j2len : gmap nat nat) (c : char) :
  runs_before s alo blo bhi i j2len →
  alo ≤ i → blo ≤ j → j < bhi →
  a s !! i = Some c → b s !! j = Some c →
  run_ending s alo blo bhi i j (j2lenget j2len j + 1).
Proof.
  intros Hprev Hi Hj Hjhi Ha Hb. unfold j2lenget.
  assert (run_ending s alo blo bhi i j 1) as Hone.
  { unfold run_ending. split_and!; try lia.
    intros t Ht. exists c. replace t with 0 by lia.
    by replace (i + 1 - 1 + 0) with i by lia; replace (j + 1 - 1 + 0) with j by lia. }
  destruct j as [|j']; [done|].
  destruct (j2len !! j') as [k|] eqn:Hk; simpl; [|done].
  destruct (Hprev j' k Hk) as (i' & -> & Hk1 & Hk2 & Hk3 & Hk4 & Hrun).
  unfold run_ending. split_and!; try lia.
  replace (S i' + 1 - (k + 1)) with (i' + 1 - k) by lia.
  replace (S j' + 1 - (k + 1)) with (j' + 1 - k) by lia.
  rewrite (Nat.add_1_r k).
  apply same_run_snoc with c; [done|..].
  - by replace (i' + 1 - k + k) with (S i') by lia.
  - by replace (j' + 1 - k + k) with (S j') by lia.
Qed.

Lemma scan_row_ok (alo ahi blo bhi i : nat) (j2len : gmap nat nat) (js : list nat)
    (st : gmap nat nat * Match) :
  alo ≤ i < ahi →
  runs_before s alo blo bhi i j2len →
  (∀ j, j ∈ js → ∃ c, a s !! i = Some c ∧ b s !! j = Some c) →
  runs_before s alo blo bhi (S i) st.1 →
  is_match s alo ahi blo bhi st.2 →
  runs_before s alo blo bhi (S i) (scan_row i blo bhi j2len js st).1
  ∧ is_match s alo ahi blo bhi (scan_row i blo bhi j2len js st).2.
Proof.
  intros Hi Hprev. revert st.
  induction js as [|j js IH]; intros st Hjs Hrow Hbest; simpl; [done|].
  assert (∀ j', j' ∈ js → ∃ c, a s !! i = Some c ∧ b s !! j' = Some c) as Hjs'
    by (intros j' Hj'; apply Hjs; by right).
  destruct (Nat.ltb_spec j blo); [by apply IH|].
  destruct (Nat.leb_spec bhi j); [done|].
  destruct st as [newj2len [[besti bestj] bestsize]].
  destruct (Hjs j) as (c & Ha & Hb); [by left|].
  pose proof (j2lenget_run alo blo bhi i j j2len c Hprev (proj1 Hi) H H0 Ha Hb) as Hk.
  assert (runs_before s alo blo bhi (S i) (<[j:=j2lenget j2len j + 1]> newj2len))
    as Hrow'.
  { intros j' k'. destruct (decide (j = j')) as [<-|Hne].
    - rewrite lookup_insert_eq. intros [= <-]. by exists i.
    - rewrite lookup_insert_ne by done. apply Hrow. }
  destruct (Nat.ltb_spec bestsize (j2lenget j2len j + 1)); apply IH; try done.
  destruct Hk as (Hk1 & Hk2 & Hk3 & Hk4 & Hrun).
  unfold is_match. simpl. split_and!; try lia. done.
Qed.

Lemma scan_ok (alo ahi blo bhi n : nat) :
  alo + n ≤ ahi → blo ≤ bhi →
  runs_before s alo blo bhi (alo + n)
    (foldl (scan_step s blo bhi) (∅, (alo, blo, 0)) (seq alo n)).1
  ∧ is_match s alo ahi blo bhi
      (foldl (scan_step s blo bhi) (∅, (alo, blo, 0)) (seq alo n)).2.
Proof.
  intros Hn Hb. induction n as [|n IH].
  - simpl. split; [by intros j k ?|].
    unfold is_match, same_run. simpl. split_and!; try lia.
  - rewrite seq_S, foldl_snoc. destruct IH as [IH1 IH2]; [lia|].
    unfold scan_step at 1 3. rewrite Nat.add_succ_r.
    apply scan_row_ok; try done; [lia|].
    intros j. apply positions_same.
Qed.

Lemma extend_left_ok (alo ahi blo bhi : nat) (junk : bool) (besti bestj bestsize : nat) :
  is_match s alo ahi blo bhi (besti, bestj, bestsize) →
  is_match s alo ahi blo bhi (extend_left s alo blo junk besti bestj bestsize).
Proof.
  revert bestj bestsize.
  induction besti as [|i' IH]; intros bestj bestsize Hm; simpl; [done|].
  destruct bestj as [|j']; [done|].
  destruct (Nat.ltb_spec alo (S i')); simpl; [|done].
  destruct (Nat.ltb_spec blo (S j')); simpl; [|done].
  destruct (eqb (isbjunk s j') junk); simpl; [|done].
  destruct (same_elt s i' j') eqn:Hsame; [|done].
  apply same_elt_spec in Hsame as (c & Ha & Hb).
  apply IH. destruct Hm as (H1 & H2 & H3 & H4 & Hrun). simpl in *.
  unfold is_match. simpl. split_and!; try lia.
  by apply same_run_cons with c.
Qed.

Lemma extend_right_ok (alo ahi blo bhi : nat) (junk : bool)
    (besti bestj room bestsize : nat) :
  is_match s alo ahi blo bhi (besti, bestj, bestsize) →
  is_match s alo ahi blo bhi
    (besti, bestj, extend_right s ahi bhi junk besti bestj room bestsize).
Proof.
  revert bestsize. induction room as [|room IH]; intros bestsize Hm; simpl; [done|].
  destruct (Nat.ltb_spec (besti + bestsize) ahi); simpl; [|done].
  destruct (Nat.ltb_spec (bestj + bestsize) bhi); simpl; [|done].
  destruct (eqb (isbjunk s (bestj + bestsize)) junk); simpl; [|done].
  destruct (same_elt s (besti + bestsize) (bestj + bestsize)) eqn:Hsame; [|done].
  apply same_elt_spec in Hsame as (c & Ha & Hb).
  apply IH. destruct Hm as (H1 & H2 & H3 & H4 & Hrun). simpl in *.
  unfold is_match. simpl. split_and!; try lia.
  by apply same_run_snoc with c.
Qed.

Lemma extend_ok (alo ahi blo bhi : nat) (junk : bool) (m : Match) :
  is_match s alo ahi blo bhi m →
  is_match s alo ahi blo bhi (extend s alo ahi blo bhi junk m).
Proof.
  intros Hm. destruct m as [[besti bestj] bestsize]. unfold extend.
  pose proof (extend_left_ok alo ahi blo bhi junk besti bestj bestsize Hm) as Hl.
  destruct (extend_left s alo blo junk besti bestj bestsize) as [[i j] k].
  by apply extend_right_ok.
Qed.

(** The block [find_longest_match] returns lies in the region and matches. *)
Lemma find_longest_match_ok (alo ahi blo bhi : nat) :
  alo ≤ ahi → blo ≤ bhi →
  is_match s alo ahi blo bhi (find_longest_match s alo ahi blo bhi).
Proof.
  intros Ha Hb. unfold find_longest_match.
  do 2 apply extend_ok.
  apply scan_ok; [lia|done].
Qed.

End longest_match.

(** *** The loop of [get_matching_blocks] *)

Lemma sub_lookup (w : str) (lo hi t : nat) :
  sub w lo hi !! t = if decide (t < hi - lo) then w !! (lo + t) else None.
Proof. unfold sub. by rewrite lookup_take, lookup_drop. Qed.

Lemma sub_split (w : str) (lo mid hi : nat) :
  lo ≤ mid ≤ hi → sub w lo hi = sub w lo mid ++ sub w mid hi.
Proof.
  intros H. unfold sub.
  replace (hi - lo) with ((mid - lo) + (hi - mid)) by lia.
  rewrite <-take_take_drop, drop_drop. do 3 f_equal. lia.
Qed.

Lemma sub_empty (w : str) (lo : nat) : sub w lo lo = [].
Proof. unfold sub. by rewrite Nat.sub_diag. Qed.

Lemma sub_whole (w : str) : sub w 0 (length w) = w.
Proof. unfold sub. rewrite Nat.sub_0_r, drop_0. by apply take_ge. Qed.

Lemma same_run_sub (s : SequenceMatcher) (i j k : nat) :
  same_run s i j k →
  sub (a s) i (i + k) = sub (b s) j (j + k) ∧ length (sub (a s) i (i + k)) = k.
Proof.
  intros Hrun. split.
  - apply list_eq. intros t. rewrite !sub_lookup.
    replace (i + k - i) with k by lia. replace (j + k - j) with k by lia.
    destruct (decide (t < k)) as [Ht|]; [|done].
    destruct (Hrun t Ht) as (c & -> & ->). done.
  - unfold sub. rewrite length_take, length_drop.
    replace (i + k - i) with k by lia.
    destruct k as [|k]; [done|].
    destruct (Hrun k) as (c & Hc & _); [lia|].
    apply lookup_lt_Some in Hc. lia.
Qed.

Lemma work_cons (alo ahi blo bhi : nat) (queue : list (nat * nat * nat * nat)) :
  work ((alo, ahi, blo, bhi) :: queue) = 2 * (ahi - alo) + 1 + work queue.
Proof. done. Qed.

Section matching_loop.

Variable s : SequenceMatcher.
Hypothesis s_chained : chained s.

(** The rule of the loop: a property of the queue and the blocks found so
    far that every turn keeps holds, with an empty queue, of the blocks the
    loop returns; and the loop does return within [work queue] turns. *)
Lemma matching_loop_rule
    (P : list (nat * nat * nat * nat) → list Match → Prop) :
  (∀ alo ahi blo bhi queue blocks i j k,
     alo ≤ ahi → blo ≤ bhi →
     is_match s alo ahi blo bhi (i, j, k) →
     P ((alo, ahi, blo, bhi) :: queue) blocks →
     (k = 0 → P queue blocks)
     ∧ (k ≠ 0 →
        P (let queue :=
             if (alo <? i) && (blo <? j) then (alo, i, blo, j) :: queue else queue in
           if (i + k <? ahi) && (j + k <? bhi) then (i + k, ahi, j + k, bhi) :: queue
           else queue)
          (blocks ++ [(i, j, k)]))) →
  ∀ fuel queue blocks,
    Forall region_ok queue → work queue ≤ fuel → P queue blocks →
    ∃ res, matching_loop s fuel queue blocks = Ok res ∧ P [] res.
Proof.
  intros Hstep fuel.
  induction fuel as [|fuel IH]; intros queue blocks Hok Hwork HP.
  - destruct queue as [|[[[alo ahi] blo] bhi] queue]; [by exists blocks|].
    rewrite work_cons in Hwork. lia.
  - destruct queue as [|[[[alo ahi] blo] bhi] queue]; [by exists blocks|].
    apply Forall_cons in Hok as [[Ha Hb] Hok]. simpl in Ha, Hb.
    pose proof (find_longest_match_ok s s_chained alo ahi blo bhi Ha Hb) as Hm.
    simpl. destruct (find_longest_match s alo ahi blo bhi) as [[i j] k].
    destruct (Hstep alo ahi blo bhi queue blocks i j k Ha Hb Hm HP) as [H0 H1].
    destruct Hm as (Hm1 & Hm2 & Hm3 & Hm4 & _). simpl in Hm1, Hm2, Hm3, Hm4.
    rewrite work_cons in Hwork.
    destruct (Nat.eqb_spec k 0) as [->|Hk].
    + apply IH; [done|lia|by apply H0].
    + apply IH; [| |by apply H1].
      * destruct (Nat.ltb_spec (i + k) ahi), (Nat.ltb_spec (j + k) bhi),
          (Nat.ltb_spec alo i), (Nat.ltb_spec blo j); simpl;
          repeat (apply Forall_cons; split; [split; simpl; lia|]); done.
      * destruct (Nat.ltb_spec (i + k) ahi), (Nat.ltb_spec (j + k) bhi),
          (Nat.ltb_spec alo i), (Nat.ltb_spec blo j); simpl;
          rewrite ?work_cons; lia.
Qed.

Lemma push_sum (f : nat * nat * nat * nat → nat) (c : bool) r queue :
  sum_list_with f (if c then r :: queue else queue)
  = (if c then f r else 0) + sum_list_with f queue.
Proof. by destruct c. Qed.

Lemma push_Forall (P : nat * nat * nat * nat → Prop) (c : bool) r queue :
  Forall P (if c then r :: queue else queue) ↔ (c = true → P r) ∧ Forall P queue.
Proof.
  destruct c.
  - rewrite Forall_cons. split.
    + intros [Hr Hq]. by split.
    + intros [Hr Hq]. split; [by apply Hr|done].
  - split.
    + intros Hq. by split.
    + by intros [_ Hq].
Qed.

Lemma size_list_to_set_disj (x : str) :
  size (list_to_set_disj x : gmultiset N) = length x.
Proof.
  induction x as [|c x IH]; [done|].
  rewrite list_to_set_disj_cons, gmultiset_size_disj_union,
    gmultiset_size_singleton, IH. done.
Qed.

Lemma common_split (x1 x2 x3 y1 y3 : str) :
  common x1 y1 + length x2 + common x3 y3
  ≤ common (x1 ++ x2 ++ x3) (y1 ++ x2 ++ y3).
Proof.
  unfold common. rewrite !list_to_set_disj_app.
  rewrite <-(size_list_to_set_disj x2), <-!gmultiset_size_disj_union.
  apply gmultiset_subseteq_size. multiset_solver.
Qed.

Lemma region_split (alo ahi blo bhi i j k : nat) :
  is_match s alo ahi blo bhi (i, j, k) →
  sub (a s) alo ahi = sub (a s) alo i ++ sub (a s) i (i + k) ++ sub (a s) (i + k) ahi
  ∧ sub (b s) blo bhi = sub (b s) blo j ++ sub (a s) i (i + k) ++ sub (b s) (j + k) bhi
  ∧ length (sub (a s) i (i + k)) = k.
Proof.
  intros (H1 & H2 & H3 & H4 & Hrun). simpl in *.
  destruct (same_run_sub s i j k Hrun) as [Heq Hlen]. split; [|split; [|done]].
  - rewrite (sub_split _ alo i ahi) by lia. f_equal. apply sub_split. lia.
  - rewrite (sub_split _ blo j bhi) by lia. f_equal. rewrite Heq. apply sub_split. lia.
Qed.

Lemma loop_inv_step (alo ahi blo bhi : nat) queue blocks (i j k : nat) :
  alo ≤ ahi → blo ≤ bhi →
  is_match s alo ahi blo bhi (i, j, k) →
  loop_inv s ((alo, ahi, blo, bhi) :: queue) blocks →
  (k = 0 → loop_inv s queue blocks)
  ∧ (k ≠ 0 →
     loop_inv s
       (let queue :=
          if (alo <? i) && (blo <? j) then (alo, i, blo, j) :: queue else queue in
        if (i + k <? ahi) && (j + k <? bhi) then (i + k, ahi, j + k, bhi) :: queue
        else queue)
       (blocks ++ [(i, j, k)])).
Proof.
  intros Ha Hb Hm (Ia & Ib & Ic & It).
  pose proof (region_split alo ahi blo bhi i j k Hm) as (Hsa & Hsb & Hlen).
  destruct Hm as (H1 & H2 & H3 & H4 & Hrun). simpl in H1, H2, H3, H4.
  simpl in Ia, Ib, Ic, It.
  change (len_a (alo, ahi, blo, bhi)) with (ahi - alo) in Ia, It.
  change (len_b (alo, ahi, blo, bhi)) with (bhi - blo) in Ib, It.
  split.
  - intros ->. split_and!; try lia.
    intros Ta Tb Hq. apply It; [lia..|].
    apply Forall_cons. split; [|done]. unfold same_in. simpl.
    replace ahi with alo by lia. replace bhi with blo by lia.
    by rewrite !sub_empty.
  - intros Hk. cbv zeta.
    set (pushl := (alo <? i) && (blo <? j)).
    set (pushr := (i + k <? ahi) && (j + k <? bhi)).
    assert (pushl = true ↔ alo < i ∧ blo < j) as Hpl.
    { unfold pushl. rewrite andb_true_iff, !Nat.ltb_lt. done. }
    assert (pushr = true ↔ i + k < ahi ∧ j + k < bhi) as Hpr.
    { unfold pushr. rewrite andb_true_iff, !Nat.ltb_lt. done. }
    unfold loop_inv, matched. rewrite !sum_list_with_app, !push_sum. simpl.
    fold (matched blocks).
    change (len_a (alo, i, blo, j)) with (i - alo).
    change (len_b (alo, i, blo, j)) with (j - blo).
    change (len_a (i + k, ahi, j + k, bhi)) with (ahi - (i + k)).
    change (len_b (i + k, ahi, j + k, bhi)) with (bhi - (j + k)).
    assert (common_in s (alo, i, blo, j) + k + common_in s (i + k, ahi, j + k, bhi)
            ≤ common_in s (alo, ahi, blo, bhi)) as Hc.
    { unfold common_in. simpl. rewrite Hsa, Hsb, <-Hlen at 1. apply common_split. }
    split_and!.
    + destruct pushl, pushr; lia.
    + destruct pushl, pushr; lia.
    + destruct pushl, pushr; lia.
    + intros Ta Tb Hq.
      apply push_Forall in Hq as [Hr Hq]. apply push_Forall in Hq as [Hl Hq].
      apply It.
      * destruct pushl, pushr; lia.
      * destruct pushl, pushr; lia.
      * apply Forall_cons. split; [|done]. unfold same_in in *. simpl in *.
        rewrite Hsa, Hsb. f_equal; [|f_equal].
        -- destruct pushl eqn:El; [by apply Hl|].
           assert (i = alo ∧ j = blo) as [-> ->] by (destruct pushr; lia).
           by rewrite !sub_empty.
        -- destruct pushr eqn:Er; [by apply Hr|].
           assert (i + k = ahi ∧ j + k = bhi) as [-> ->] by (destruct pushl; lia).
           by rewrite !sub_empty.
Qed.

(** The loop returns, and what it returns is bounded as said. *)
Lemma matching_loop_returns :
  ∃ res, matching_loop s (turns s) [(0, length (a s), 0, length (b s))] [] = Ok res
    ∧ matched res ≤ length (a s)
    ∧ matched res ≤ length (b s)
    ∧ matched res ≤ common (a s) (b s)
    ∧ (matched res = length (a s) → matched res = length (b s) → a s = b s).
Proof.
  destruct (matching_loop_rule (loop_inv s) loop_inv_step (turns s)
              [(0, length (a s), 0, length (b s))] []) as (res & Hres & Hinv).
  - repeat constructor; simpl; lia.
  - rewrite work_cons. unfold work, turns. simpl. lia.
  - unfold loop_inv, len_a, len_b, common_in. simpl.
    rewrite !Nat.sub_0_r, !Nat.add_0_r, !sub_whole. split_and!; try done.
    intros _ _ [Hsame _]%Forall_cons. unfold same_in in Hsame. simpl in Hsame.
    by rewrite !sub_whole in Hsame.
  - exists res. split; [done|]. destruct Hinv as (Ia & Ib & Ic & It).
    simpl in *. rewrite !Nat.add_0_r in *. split_and!; try done.
    intros. by apply It.
Qed.

End matching_loop.


(** *** [ratio] and its bounds *)

Lemma collapse_step_matched (st : nat * nat * nat * list (nat * nat * nat))
    (m : nat * nat * nat) :
  (collapse_step st m).1.2 + matched (collapse_step st m).2
  = st.1.2 + matched st.2 + m.2.
Proof.
  destruct st as [[[i1 j1] k1] non_adjacent], m as [[i2 j2] k2].
  unfold collapse_step.
  destruct ((i1 + k1 =? i2) && (j1 + k1 =? j2)); simpl; [lia|].
  destruct (Nat.eqb_spec k1 0) as [->|_]; [lia|].
  unfold matched. rewrite sum_list_with_app. simpl. lia.
Qed.

Lemma collapse_matched (blocks : list (nat * nat * nat)) :
  matched (collapse blocks) = matched blocks.
Proof.
  unfold collapse.
  assert (∀ st, (foldl collapse_step st blocks).1.2
                + matched (foldl collapse_step st blocks).2
                = st.1.2 + matched st.2 + matched blocks) as H.
  { induction blocks as [|m blocks IH]; intros st; simpl; [lia|].
    rewrite IH, collapse_step_matched. unfold matched. simpl. lia. }
  specialize (H ((0, 0, 0), [])).
  destruct (foldl collapse_step ((0, 0, 0), []) blocks) as [[[i1 j1] k1] non_adjacent].
  simpl in H. destruct (Nat.eqb_spec k1 0) as [->|_]; [lia|].
  unfold matched in *. rewrite sum_list_with_app. simpl. lia.
Qed.

Lemma ratio_of_loop (s : SequenceMatcher) (res : list (nat * nat * nat)) :
  matching_loop s (turns s) [(0, length (a s), 0, length (b s))] [] = Ok res →
  ratio s = Ok (calculate_ratio (matched res) (length (a s) + length (b s))).
Proof.
  intros Hres. unfold ratio, get_matching_blocks. rewrite Hres. simpl. do 2 f_equal.
  fold (matched (collapse (stable_sort match_lt res)
                 ++ [(length (a s), length (b s), 0)])).
  unfold matched at 1. rewrite sum_list_with_app. fold matched.
  rewrite collapse_matched. unfold matched. rewrite stable_sort_perm. simpl. lia.
Qed.

(** [ratio] returns [2.0*M/T] for a number [M] of matches that is at most
    the length of either sequence and at most what the two have in common,
    and that reaches both lengths only when the sequences are equal. *)
Lemma ratio_returns (s : SequenceMatcher) :
  chained s →
  ∃ M, ratio s = Ok (calculate_ratio M (length (a s) + length (b s)))
    ∧ M ≤ length (a s) ∧ M ≤ length (b s) ∧ M ≤ common (a s) (b s)
    ∧ (M = length (a s) → M = length (b s) → a s = b s).
Proof.
  intros Hs.
  destruct (matching_loop_returns s Hs) as (res & Hres & Hbounds).
  exists (matched res). split; [|done]. by apply ratio_of_loop.
Qed.

(** *** [quick_ratio] counts what the sequences have in common *)

Lemma count_elements_spec (w : str) (c : N) :
  default 0%Z (count_elements w !! c)
  = Z.of_nat (multiplicity c (list_to_set_disj w : gmultiset N)).
Proof.
  unfold count_elements.
  assert (∀ (X : gmultiset N) (m : gmap N Z),
            (∀ d, default 0%Z (m !! d) = Z.of_nat (multiplicity d X)) →
            default 0%Z
              (foldl (λ fullbcount elt,
                 <[elt := (default 0 (fullbcount !! elt) + 1)%Z]> fullbcount) m w !! c)
            = Z.of_nat (multiplicity c (X ⊎ list_to_set_disj w))) as H.
  { induction w as [|elt w IH]; intros X m Hm; simpl.
    - rewrite Hm. by rewrite multiplicity_disj_union, multiplicity_empty, Nat.add_0_r.
    - rewrite (IH (X ⊎ {[+ elt +]})).
      + rewrite !multiplicity_disj_union. lia.
      + intros d. destruct (decide (elt = d)) as [->|Hne].
        * rewrite lookup_insert_eq. simpl. rewrite Hm.
          rewrite multiplicity_disj_union, multiplicity_singleton_eq. lia.
        * rewrite lookup_insert_ne by done. rewrite Hm.
          rewrite multiplicity_disj_union, multiplicity_singleton_ne by done. lia. }
  rewrite (H ∅ ∅).
  - by rewrite multiplicity_disj_union, multiplicity_empty.
  - intros d. by rewrite lookup_empty, multiplicity_empty.
Qed.

Lemma common_snoc (X Y : gmultiset N) (c : N) :
  size ((X ⊎ {[+ c +]}) ∩ Y)
  = size (X ∩ Y) + (if decide (multiplicity c X < multiplicity c Y) then 1 else 0).
Proof.
  destruct (decide (multiplicity c X < multiplicity c Y)) as [Hlt|Hge].
  - replace ((X ⊎ {[+ c +]}) ∩ Y) with ((X ∩ Y) ⊎ {[+ c +]}).
    + by rewrite gmultiset_size_disj_union, gmultiset_size_singleton.
    + apply gmultiset_eq. intros d.
      rewrite !multiplicity_intersection, !multiplicity_disj_union,
        !multiplicity_intersection.
      destruct (decide (d = c)) as [->|Hne].
      * rewrite multiplicity_singleton_eq. lia.
      * rewrite multiplicity_singleton_ne by done. lia.
  - rewrite Nat.add_0_r. f_equal. apply gmultiset_eq. intros d.
    rewrite !multiplicity_intersection, !multiplicity_disj_union.
    destruct (decide (d = c)) as [->|Hne].
    + rewrite multiplicity_singleton_eq. lia.
    + rewrite multiplicity_singleton_ne by done. lia.
Qed.

Lemma quick_loop_spec (fullbcount : gmap N Z) (Y : gmultiset N) (l : str) :
  (∀ c, default 0%Z (fullbcount !! c) = Z.of_nat (multiplicity c Y)) →
  ∀ (X : gmultiset N) (avail : gmap N Z) (matches : nat),
    (∀ c, numb_of fullbcount avail c
          = (Z.of_nat (multiplicity c Y) - Z.of_nat (multiplicity c X))%Z) →
    (foldl (quick_step fullbcount) (avail, matches) l).2 + size (X ∩ Y)
    = matches + size ((X ⊎ list_to_set_disj l) ∩ Y).
Proof.
  intros Hfull. induction l as [|elt l IH]; intros X avail matches Hav; simpl.
  - by rewrite (right_id_L ∅ (⊎)).
  - fold (numb_of fullbcount avail elt).
    rewrite ?list_to_set_disj_cons.
    replace (X ⊎ ({[+ elt +]} ⊎ list_to_set_disj l))
      with ((X ⊎ {[+ elt +]}) ⊎ list_to_set_disj l) by multiset_solver.
    pose proof (common_snoc X Y elt) as Hsn.
    pose proof (Hav elt) as Helt.
    eassert (_) as Hnext; [|pose proof (IH (X ⊎ {[+ elt +]})
      (<[elt := (numb_of fullbcount avail elt - 1)%Z]> avail)
      (if (0 <? numb_of fullbcount avail elt)%Z then matches + 1 else matches)
      Hnext) as IH'].
    { intros c. unfold numb_of at 1. destruct (decide (elt = c)) as [->|Hne].
      - rewrite lookup_insert_eq, Hav.
        rewrite multiplicity_disj_union, multiplicity_singleton_eq. lia.
      - rewrite lookup_insert_ne by done. fold (numb_of fullbcount avail c).
        rewrite Hav. rewrite multiplicity_disj_union, multiplicity_singleton_ne by done.
        lia. }
    destruct (Z.ltb_spec 0 (numb_of fullbcount avail elt));
      destruct (decide (multiplicity elt X < multiplicity elt Y)); lia.
Qed.

(** [quick_ratio] counts the elements the sequences have in common. *)
Lemma quick_matches_common (s : SequenceMatcher) :
  quick_matches s = common (a s) (b s).
Proof.
  unfold quick_matches, common.
  pose proof (quick_loop_spec (count_elements (b s)) (list_to_set_disj (b s)) (a s)
                (count_elements_spec (b s)) ∅ ∅ 0) as H.
  replace (∅ ⊎ list_to_set_disj (a s)) with (list_to_set_disj (a s) : gmultiset N) in H
    by (apply gmultiset_eq; intros d;
        by rewrite multiplicity_disj_union, multiplicity_empty).
  replace (size (∅ ∩ list_to_set_disj (b s) : gmultiset N)) with 0 in H.
  - rewrite Nat.add_0_r in H. rewrite H; [done|].
    intros c. unfold numb_of. rewrite lookup_empty, count_elements_spec.
    rewrite multiplicity_empty. lia.
  - symmetry. apply gmultiset_size_empty_iff, gmultiset_eq. intros d.
    by rewrite multiplicity_intersection, multiplicity_empty.
Qed.

(** *** A sequence matched with itself *)

Lemma plain_run_unfold (s : SequenceMatcher) (i : nat) :
  plain_run s (S i)
  = match b s !! i with
    | Some c => if decide (c ∈ bpopular s) then 0 else S (plain_run s i)
    | None => 0
    end.
Proof. done. Qed.

Arguments plain_run : simpl never.

Section identical.

Variable s : SequenceMatcher.
Hypothesis s_chained : chained s.
Hypothesis s_same : a s = b s.

Lemma plain_run_S (i : nat) (c : N) :
  b s !! i = Some c → c ∉ bpopular s → plain_run s (S i) = S (plain_run s i).
Proof. intros Hc Hp. rewrite plain_run_unfold, Hc. by rewrite decide_False. Qed.

Lemma plain_run_popular (i : nat) (c : N) :
  b s !! i = Some c → c ∈ bpopular s → plain_run s (S i) = 0.
Proof. intros Hc Hp. rewrite plain_run_unfold, Hc. by rewrite decide_True. Qed.

Lemma j2lenget_diag (i j : nat) (j2len : gmap nat nat) :
  (∀ j k, j2len !! j = Some k → k ≤ plain_run s (S j) ∧ k ≤ plain_run s i) →
  j2lenget j2len j ≤ plain_run s j ∧ j2lenget j2len j ≤ plain_run s i.
Proof.
  intros H. unfold j2lenget. destruct j as [|j']; [simpl; lia|].
  destruct (j2len !! j') as [k|] eqn:Hk; simpl; [by apply H|lia].
Qed.

Lemma j2lenget_here (i : nat) (j2len : gmap nat nat) :
  (∀ j k, j2len !! j = Some k → k ≤ plain_run s (S j) ∧ k ≤ plain_run s i) →
  (∀ i' c, i = S i' → b s !! i' = Some c → c ∉ bpopular s →
     j2len !! i' = Some (plain_run s i)) →
  i ≤ length (b s) →
  j2lenget j2len i = plain_run s i.
Proof.
  intros H3 H4 Hi. unfold j2lenget. destruct i as [|i']; [done|].
  destruct (lookup_lt_is_Some_2 (b s) i') as [c Hc]; [lia|].
  destruct (decide (c ∈ bpopular s)) as [Hp|Hp].
  - rewrite (plain_run_popular i' c Hc Hp).
    destruct (j2len !! i') as [k|] eqn:Hk; simpl; [|done].
    destruct (H3 i' k Hk) as [Hle _].
    rewrite (plain_run_popular i' c Hc Hp) in Hle. lia.
  - by rewrite (H4 i' c eq_refl Hc Hp).
Qed.

Lemma scan_row_diag (i : nat) (c : N) (j2len : gmap nat nat) :
  b s !! i = Some c → c ∉ bpopular s →
  (∀ j k, j2len !! j = Some k → k ≤ plain_run s (S j) ∧ k ≤ plain_run s i) →
  (∀ i' c, i = S i' → b s !! i' = Some c → c ∉ bpopular s →
     j2len !! i' = Some (plain_run s i)) →
  ∀ js st,
    StronglySorted lt js →
    (∀ j, j ∈ js → j < length (b s) ∧ b s !! j = Some c) →
    diag_row_inv s i js st →
    diag_row_inv s i [] (scan_row i 0 (length (b s)) j2len js st).
Proof.
  intros Hc Hp H3 H4.
  assert (i < length (b s)) as Hi by by eapply lookup_lt_Some.
  induction js as [|j js IH]; intros st Hsorted Hjs Hinv; simpl; [done|].
  apply StronglySorted_cons in Hsorted as [Hhead Hsorted].
  destruct (Hjs j) as [Hj Hcj]; [by left|].
  destruct (Nat.leb_spec (length (b s)) j); [lia|].
  destruct st as [newj2len [[besti bestj] bestsize]].
  destruct Hinv as (I1 & I2 & I3 & I4). simpl in I1, I2, I3, I4.
  destruct (j2lenget_diag i j j2len H3) as [Hk1 Hk2].
  pose proof (plain_run_S i c Hc Hp) as HSi.
  pose proof (plain_run_S j c Hcj Hp) as HSj.
  assert (∀ j' k', <[j:=j2lenget j2len j + 1]> newj2len !! j' = Some k' →
            k' ≤ plain_run s (S j') ∧ k' ≤ plain_run s (S i)) as I3'.
  { intros j' k'. destruct (decide (j = j')) as [<-|Hne].
    - rewrite lookup_insert_eq. intros [= <-]. lia.
    - rewrite lookup_insert_ne by done. apply I3. }
  assert (∀ j', j' ∈ js → j' < length (b s) ∧ b s !! j' = Some c) as Hjs'
    by (intros j' Hj'; apply Hjs; by right).
  destruct (lt_eq_lt_dec j i) as [[Hlt| ->]|Hgt].
  - (* before the diagonal: the run is no longer than one seen before *)
    pose proof (I2 (S j) Hlt) as Hbest.
    destruct (Nat.ltb_spec bestsize (j2lenget j2len j + 1)); [lia|].
    apply IH; [done..|]. split_and!; try done. simpl.
    destruct I4 as [Hin|[Hd1 Hd2]].
    + left. apply elem_of_cons in Hin as [->|Hin]; [lia|done].
    + right. split; [done|]. rewrite lookup_insert_ne by lia. done.
  - (* on the diagonal: the plain run that ends here *)
    rewrite (j2lenget_here i j2len H3 H4) by lia.
    destruct (Nat.ltb_spec bestsize (plain_run s i + 1)).
    + apply IH; [done..|]. split_and!; simpl; try done.
      * intros t Ht. specialize (I2 t Ht). lia.
      * rewrite (j2lenget_here i j2len H3 H4) in I3' by lia. done.
      * right. rewrite lookup_insert_eq. split; [lia|]. f_equal. lia.
    + apply IH; [done..|]. split_and!; simpl; try done.
      * rewrite (j2lenget_here i j2len H3 H4) in I3' by lia. done.
      * right. rewrite lookup_insert_eq. split; [lia|]. f_equal. lia.
  - (* behind the diagonal: the diagonal has been seen *)
    destruct I4 as [Hin|[Hd1 Hd2]].
    { apply elem_of_cons in Hin as [->|Hin]; [lia|].
      rewrite Forall_forall in Hhead. specialize (Hhead i Hin). lia. }
    destruct (Nat.ltb_spec bestsize (j2lenget j2len j + 1)); [lia|].
    apply IH; [done..|]. split_and!; try done. simpl.
    right. split; [done|]. rewrite lookup_insert_ne by lia. done.
Qed.

Lemma positions_identical (i : nat) (c : N) :
  b s !! i = Some c →
  positions s i
  = if decide (c ∈ bpopular s) then [] else occ (b s) c (length (b s)).
Proof.
  intros Hc. unfold positions. rewrite s_same, Hc.
  destruct s_chained as [_ Hb2j]. apply Hb2j.
Qed.

Lemma scan_step_diag (i : nat) (st : gmap nat nat * (nat * nat * nat)) :
  i < length (b s) →
  diag_inv s i st → diag_inv s (S i) (scan_step s 0 (length (b s)) st i).
Proof.
  intros Hi (I1 & I2 & I3 & I4).
  destruct (lookup_lt_is_Some_2 (b s) i Hi) as [c Hc].
  unfold scan_step. rewrite (positions_identical i c Hc).
  destruct (decide (c ∈ bpopular s)) as [Hp|Hp].
  - simpl. split_and!; simpl; try done.
    + intros t Ht. destruct (decide (t = S i)) as [->|Hne].
      * rewrite (plain_run_popular i c Hc Hp). lia.
      * apply I2. lia.
    + intros i' c' [= <-] Hc' Hp'. congruence.
  - pose proof (scan_row_diag i c st.1 Hc Hp I3 I4
                  (occ (b s) c (length (b s))) (∅, st.2)) as Hrow.
    destruct Hrow as (R1 & R2 & R3 & R4).
    + apply occ_sorted.
    + intros j Hj. by apply elem_of_occ in Hj.
    + split_and!; simpl; try done.
      left. by apply elem_of_occ.
    + destruct R4 as [R4|[R4 R5]]; [by apply elem_of_nil in R4|].
      split_and!; try done.
      * intros t Ht. destruct (decide (t = S i)) as [->|Hne]; [done|].
        apply R2. lia.
      * intros i' c' [= <-] Hc' Hp'. done.
Qed.

Lemma scan_diag (n : nat) :
  n ≤ length (b s) →
  diag_inv s n (foldl (scan_step s 0 (length (b s))) (∅, (0, 0, 0)) (seq 0 n)).
Proof.
  induction n as [|n IH]; intros Hn.
  - simpl. split_and!; simpl; try done.
    intros t Ht. replace t with 0 by lia. done.
  - rewrite seq_S, foldl_snoc. simpl. apply scan_step_diag; [lia|].
    apply IH. lia.
Qed.

Lemma same_elt_identical (i : nat) : i < length (b s) → same_elt s i i = true.
Proof.
  intros Hi. destruct (lookup_lt_is_Some_2 (b s) i Hi) as [c Hc].
  unfold same_elt. rewrite s_same, Hc. by apply bool_decide_eq_true.
Qed.

Lemma isbjunk_never (j : nat) : isbjunk s j = false.
Proof.
  unfold isbjunk. destruct s_chained as [-> _].
  destruct (b s !! j); [|done]. by apply bool_decide_eq_false.
Qed.

Lemma extend_left_identical (besti bestsize : nat) :
  besti + bestsize ≤ length (b s) →
  extend_left s 0 0 false besti besti bestsize = (0, 0, besti + bestsize).
Proof.
  revert bestsize. induction besti as [|i IH]; intros bestsize Hle; [done|].
  simpl. rewrite isbjunk_never, same_elt_identical by lia. simpl.
  rewrite IH by lia. do 2 f_equal. lia.
Qed.

Lemma extend_right_identical (junk : bool) (room bestsize : nat) :
  bestsize + room = length (b s) →
  extend_right s (length (b s)) (length (b s)) false 0 0 room bestsize
  = length (b s).
Proof.
  revert bestsize. induction room as [|room IH]; intros bestsize Hle; simpl; [lia|].
  destruct (Nat.ltb_spec bestsize (length (b s))); [|lia]. simpl.
  rewrite isbjunk_never, same_elt_identical by lia. simpl.
  apply IH. lia.
Qed.

(** A sequence matches itself from end to end. *)
Lemma find_longest_match_identical :
  find_longest_match s 0 (length (a s)) 0 (length (b s))
  = (0, 0, length (b s)).
Proof.
  unfold find_longest_match. rewrite s_same, Nat.sub_0_r.
  pose proof (scan_diag (length (b s)) (le_n _)) as (D1 & _).
  pose proof (scan_ok s s_chained 0 (length (b s)) 0 (length (b s)) (length (b s))
                (le_n _) (Nat.le_0_l _)) as (_ & _ & Hm & _).
  destruct (foldl (scan_step s 0 (length (b s))) (∅, (0, 0, 0)) (seq 0 (length (b s))))
    as [j2len [[besti bestj] bestsize]].
  simpl in D1, Hm. subst bestj.
  change ((j2len, (besti, besti, bestsize)).2) with (besti, besti, bestsize).
  unfold extend at 2. rewrite extend_left_identical by done.
  rewrite (extend_right_identical false) by lia.
  unfold extend. simpl.
  by rewrite Nat.sub_diag.
Qed.

Lemma matching_loop_identical :
  ∃ res, matching_loop s (turns s) [(0, length (a s), 0, length (b s))] [] = Ok res
    ∧ matched res = length (b s).
Proof.
  unfold turns.
  replace (2 * length (a s) + 1) with (S (2 * length (a s))) by lia.
  simpl matching_loop. rewrite find_longest_match_identical.
  rewrite s_same, !Nat.ltb_irrefl. simpl.
  destruct (Nat.eqb_spec (length (b s)) 0) as [H0|H0].
  - exists []. split; [by destruct (length (b s) + _)|]. by rewrite H0.
  - exists [(0, 0, length (b s))]. split; [by destruct (length (b s) + _)|].
    unfold matched. simpl. lia.
Qed.

(** The ratio of a sequence with itself is [2.0*n/(n+n)], which is [1.0]. *)
Lemma ratio_identical :
  ratio s = Ok (calculate_ratio (length (b s)) (length (b s) + length (b s))).
Proof.
  destruct matching_loop_identical as (res & Hres & Hm).
  rewrite (ratio_of_loop s res Hres), Hm. by rewrite s_same.
Qed.

End identical.

(** *** The order of the scored words *)

Lemma str_lt_asym (x y : str) : str_lt x y = true → str_lt y x = false.
Proof.
  revert y. induction x as [|c x IH]; intros [|d y]; simpl; try done.
  destruct (N.ltb_spec c d), (N.ltb_spec d c), (N.eqb_spec c d), (N.eqb_spec d c);
    simpl; try done; try lia.
  apply IH.
Qed.

Lemma str_lt_negtrans (x y z : str) :
  str_lt x y = false → str_lt y z = false → str_lt x z = false.
Proof.
  revert y z. induction x as [|c x IH]; intros [|d y] [|e z]; simpl; try done.
  destruct (N.ltb_spec c d), (N.ltb_spec d e), (N.ltb_spec c e),
    (N.eqb_spec c d), (N.eqb_spec d e), (N.eqb_spec c e);
    simpl; try done; try lia.
  apply IH.
Qed.

Lemma scored_lt_spec (x y : Q * list N) :
  scored_lt x y = true
  ↔ (x.1 < y.1)%Q ∨ ((x.1 == y.1)%Q ∧ str_lt x.2 y.2 = true).
Proof.
  unfold scored_lt.
  rewrite orb_true_iff, andb_true_iff, negb_true_iff, float_lt_spec, float_lt_false.
  split.
  - intros [H|[H1 H2]]; [by left|].
    destruct (Qlt_le_dec x.1 y.1); [by left|].
    right. split; [|done]. by apply Qle_antisym.
  - intros [H|[H1 H2]]; [by left|]. right. split; [|done].
    rewrite H1. apply Qle_refl.
Qed.

Lemma scored_lt_false (x y : Q * list N) :
  scored_lt x y = false
  ↔ (y.1 <= x.1)%Q ∧ ((x.1 == y.1)%Q → str_lt x.2 y.2 = false).
Proof.
  rewrite <-not_true_iff_false, scored_lt_spec. split.
  - intros H. split.
    + apply Qnot_lt_le. intros Hlt. apply H. by left.
    + intros Heq. apply not_true_iff_false. intros Hs. apply H. by right.
  - intros [H1 H2] [H|[H3 H4]].
    + by apply Qle_not_lt in H1.
    + rewrite (H2 H3) in H4. done.
Qed.

Lemma scored_lt_asym (x y : Q * list N) :
  scored_lt x y = true → scored_lt y x = false.
Proof.
  rewrite scored_lt_spec, scored_lt_false. intros [H|[H1 H2]].
  - split; [by apply Qlt_le_weak|]. intros Heq. rewrite Heq in H.
    by apply Qlt_irrefl in H.
  - split; [rewrite H1; apply Qle_refl|]. intros _. by apply str_lt_asym.
Qed.

Lemma scored_lt_negtrans (x y z : Q * list N) :
  scored_lt x y = false → scored_lt y z = false → scored_lt x z = false.
Proof.
  rewrite !scored_lt_false. intros [H1 H2] [H3 H4]. split.
  - by eapply Qle_trans.
  - intros Heq.
    assert (x.1 == y.1)%Q as Hxy by (apply Qle_antisym; [rewrite Heq|]; done).
    assert (y.1 == z.1)%Q as Hyz by (by rewrite <-Hxy).
    eapply str_lt_negtrans; [by apply H2|by apply H4].
Qed.

(** *** [get_close_matches] *)

Lemma positive_of_nat (n : nat) : n ≠ 0 → Z.pos (Pos.of_nat n) = Z.of_nat n.
Proof.
  intros Hn. rewrite <-positive_nat_Z. by rewrite Nat2Pos.id.
Qed.

Lemma calculate_ratio_mono (M M' T : nat) :
  M ≤ M' → (calculate_ratio M T <= calculate_ratio M' T)%Q.
Proof.
  intros H. unfold calculate_ratio. destruct (T =? 0); [apply Qle_refl|].
  unfold Qle. simpl. apply Z.mul_le_mono_nonneg_r; lia.
Qed.

Lemma calculate_ratio_le_1 (M T : nat) :
  2 * M ≤ T → (calculate_ratio M T <= 1)%Q.
Proof.
  intros H. unfold calculate_ratio. destruct (Nat.eqb_spec T 0); [apply Qle_refl|].
  unfold Qle. simpl Qnum. simpl Qden. rewrite positive_of_nat by done. lia.
Qed.

Lemma calculate_ratio_eq_1 (M T : nat) :
  2 * M ≤ T → (calculate_ratio M T == 1)%Q → 2 * M = T.
Proof.
  intros H. unfold calculate_ratio. destruct (Nat.eqb_spec T 0); [lia|].
  unfold Qeq. simpl Qnum. simpl Qden. rewrite positive_of_nat by done. lia.
Qed.

Lemma calculate_ratio_full (n : nat) : (calculate_ratio n (n + n) == 1)%Q.
Proof.
  unfold calculate_ratio. destruct (Nat.eqb_spec (n + n) 0); [done|].
  unfold Qeq. simpl Qnum. simpl Qden. rewrite positive_of_nat by done. lia.
Qed.

Lemma ratio_of_bounds (word x : str) :
  ∃ M, ratio_of word x = Ok (calculate_ratio M (length x + length word))
    ∧ M ≤ length x ∧ M ≤ length word
    ∧ M ≤ quick_matches (set_seq1 (set_seq2 word) x)
    ∧ (M = length x → M = length word → x = word).
Proof.
  destruct (ratio_returns (set_seq1 (set_seq2 word) x) (set_seq2_chained word x))
    as (M & HM & H1 & H2 & H3 & H4).
  rewrite set_seq1_a, set_seq1_b in *.
  exists M. split_and!; try done.
  by rewrite quick_matches_common, set_seq1_a, set_seq1_b.
Qed.

(** The ratio is always computed. *)
Lemma ratio_of_score (word x : str) : ratio_of word x = Ok (score word x).
Proof.
  unfold score. destruct (ratio_of_bounds word x) as (M & -> & _). done.
Qed.

Lemma score_le_1 (word x : str) : (score word x <= 1)%Q.
Proof.
  unfold score. destruct (ratio_of_bounds word x) as (M & -> & H1 & H2 & _).
  apply calculate_ratio_le_1. lia.
Qed.

(** Only the word itself scores [1.0]. *)
Lemma score_1_inv (word x : str) : (score word x == 1)%Q → x = word.
Proof.
  unfold score. destruct (ratio_of_bounds word x) as (M & -> & H1 & H2 & _ & H4).
  intros Heq%calculate_ratio_eq_1; [|lia]. apply H4; lia.
Qed.

Lemma score_same (word : str) : (score word word == 1)%Q.
Proof.
  unfold score, ratio_of.
  rewrite (ratio_identical (set_seq1 (set_seq2 word) word)).
  - rewrite set_seq1_b. apply calculate_ratio_full.
  - apply set_seq2_chained.
  - by rewrite set_seq1_a, set_seq1_b.
Qed.

(** The two quick ratios are upper bounds of the ratio. *)
Lemma quick_ratios_bound (word x : str) :
  (score word x <= real_quick_ratio (set_seq1 (set_seq2 word) x))%Q
  ∧ (score word x <= quick_ratio (set_seq1 (set_seq2 word) x))%Q.
Proof.
  unfold score. destruct (ratio_of_bounds word x) as (M & -> & H1 & H2 & H3 & _).
  unfold real_quick_ratio, quick_ratio. rewrite set_seq1_a, set_seq1_b.
  split; apply calculate_ratio_mono; lia.
Qed.

Lemma scan_possibilities_scored (word : str) (cutoff : Q) (possibilities : list str) :
  ∀ (y : str) (result : list (Q * str)),
    scan_possibilities (set_seq1 (set_seq2 word) y) cutoff possibilities result
    = Ok (result ++ scored word cutoff possibilities).
Proof.
  unfold scored.
  induction possibilities as [|x possibilities IH]; intros y result; simpl.
  { by rewrite app_nil_r. }
  change (set_seq1 (set_seq1 (set_seq2 word) y) x) with (set_seq1 (set_seq2 word) x).
  fold (ratio_of word x). rewrite ratio_of_score. simpl.
  destruct (quick_ratios_bound word x) as [Hrq Hq].
  destruct (float_ge (score word x) cutoff) eqn:Hge.
  - rewrite filter_cons_True by done.
    apply float_ge_spec in Hge.
    assert (float_ge (real_quick_ratio (set_seq1 (set_seq2 word) x)) cutoff = true)
      as -> by (apply float_ge_spec; by eapply Qle_trans).
    assert (float_ge (quick_ratio (set_seq1 (set_seq2 word) x)) cutoff = true)
      as -> by (apply float_ge_spec; by eapply Qle_trans).
    simpl. rewrite IH. by rewrite <-app_assoc.
  - rewrite filter_cons_False by (by rewrite Hge).
    destruct (float_ge (real_quick_ratio _) cutoff && float_ge (quick_ratio _) cutoff);
      apply IH.
Qed.

Lemma set_seq2_as_set_seq1 (word : str) : set_seq2 word = set_seq1 (set_seq2 word) [].
Proof. unfold set_seq1, set_seq2. by destruct (chain_b word) as [[? ?] ?]. Qed.

(** What [get_close_matches] returns for arguments it accepts. *)
Lemma get_close_matches_scored (word : str) (possibilities : list str) (n : Z)
    (cutoff : Q) :
  (0 < n)%Z → (0 <= cutoff)%Q → (cutoff <= 1)%Q →
  get_close_matches word possibilities n cutoff
  = Ok ((λ p : Q * list N, p.2)
        <$> take (Z.to_nat n)
              (stable_sort (λ y x, scored_lt x y) (scored word cutoff possibilities))).
Proof.
  intros Hn H0 H1. unfold get_close_matches.
  assert ((0 <? n)%Z = true) as -> by by apply Z.ltb_lt.
  assert (float_ge cutoff 0 = true) as -> by by apply float_ge_spec.
  assert (float_ge 1 cutoff = true) as -> by by apply float_ge_spec.
  simpl. rewrite set_seq2_as_set_seq1, scan_possibilities_scored. simpl.
  unfold nlargest. by rewrite slice_from_zero by lia.
Qed.

(** And for arguments it rejects. *)
Lemma get_close_matches_rejects (word : str) (possibilities : list str) (n : Z)
    (cutoff : Q) :
  (n ≤ 0)%Z ∨ (cutoff < 0)%Q ∨ (1 < cutoff)%Q →
  get_close_matches word possibilities n cutoff = Raise ValueError.
Proof.
  intros H. unfold get_close_matches.
  destruct (Z.ltb_spec 0 n); simpl; [|done].
  destruct H as [H|[H|H]]; [lia|..].
  - assert (float_ge cutoff 0 = false) as ->; [|done].
    apply negb_false_iff. by apply float_lt_spec.
  - assert (float_ge 1 cutoff = false) as ->; [|by rewrite andb_false_r].
    apply negb_false_iff. by apply float_lt_spec.
Qed.

Lemma scored_elem (word : str) (cutoff : Q) (possibilities : list str) (p : Q * str) :
  p ∈ scored word cutoff possibilities
  ↔ p.1 = score word p.2 ∧ p.2 ∈ possibilities ∧ (cutoff <= score word p.2)%Q.
Proof.
  unfold scored. rewrite list_elem_of_fmap. split.
  - intros (x & -> & [Hx Hin]%list_elem_of_filter). simpl.
    by apply float_ge_spec in Hx.
  - intros (Hp & Hin & Hc). exists p.2. split.
    + destruct p as [r x]. simpl in *. by subst.
    + apply list_elem_of_filter. split; [by apply float_ge_spec|done].
Qed.

Lemma sorted_scored (word : str) (cutoff : Q) (possibilities : list str) :
  StronglySorted (λ p q : Q * list N, scored_lt p q = false)
    (stable_sort (λ y x, scored_lt x y) (scored word cutoff possibilities)).
Proof.
  eapply sorted_weaken; [|apply stable_sort_sorted with (came := λ _ _, True)].
  - by intros p q [H _].
  - intros p q. apply scored_lt_asym.
  - intros p q r H1 H2. by apply scored_lt_negtrans with q.
  - induction (scored word cutoff possibilities); constructor; [done|].
    by apply Forall_forall.
Qed.

Lemma get_close_matches_elem (word : str) (possibilities : list str) (n : nat)
    (cutoff : Q) (x : str) :
  x ∈ (λ p : Q * list N, p.2)
        <$> take n (stable_sort (λ y x, scored_lt x y) (scored word cutoff possibilities)) →
  x ∈ possibilities ∧ (cutoff <= score word x)%Q.
Proof.
  intros (p & -> & Hp)%list_elem_of_fmap.
  apply elem_of_take in Hp as (k & Hk & _). apply list_elem_of_lookup_2 in Hk.
  rewrite stable_sort_perm in Hk. by apply scored_elem in Hk as (_ & ? & ?).
Qed.

Lemma get_close_matches_ranked (word : str) (possibilities : list str) (n : nat)
    (cutoff : Q) (k1 k2 : nat) (x y : str) :
  k1 < k2 →
  ((λ p : Q * list N, p.2)
     <$> take n (stable_sort (λ y x, scored_lt x y) (scored word cutoff possibilities)))
    !! k1 = Some x →
  ((λ p : Q * list N, p.2)
     <$> take n (stable_sort (λ y x, scored_lt x y) (scored word cutoff possibilities)))
    !! k2 = Some y →
  ranked_words word x y.
Proof.
  intros Hk. rewrite !list_lookup_fmap.
  destruct (take n _ !! k1) as [p|] eqn:Hp; [|done].
  destruct (take n _ !! k2) as [q|] eqn:Hq; [|done].
  simpl. intros [= <-] [= <-].
  apply lookup_take_Some in Hp as [Hp _]. apply lookup_take_Some in Hq as [Hq _].
  pose proof (sorted_lookup _ _ k1 k2 p q (sorted_scored word cutoff possibilities)
                Hk Hp Hq) as Hlt. simpl in Hlt.
  apply list_elem_of_lookup_2 in Hp, Hq. rewrite stable_sort_perm in Hp, Hq.
  apply scored_elem in Hp as (Hp & _). apply scored_elem in Hq as (Hq & _).
  apply scored_lt_false in Hlt. unfold ranked_words. by rewrite <-Hp, <-Hq.
Qed.

End DifflibFacts.

Import DifflibSpec DifflibFacts.

(** Two possibilities with the same ratio [0.8]: the later one, ["abd"],
    is ranked first, and is the one the call of line 308 returns. *)
Lemma later_candidate_ranks_first :
  ratio_of (str_of "ab") (str_of "abc") = Ok (4 # 5)
  ∧ ratio_of (str_of "ab") (str_of "abd") = Ok (4 # 5)
  ∧ Difflib.get_close_matches (str_of "ab") [str_of "abc"; str_of "abd"] 5 (3 # 5)
    = Ok [str_of "abd"; str_of "abc"]
  ∧ Difflib.get_close_matches (str_of "ab") [str_of "abc"; str_of "abd"] 1 (3 # 5)
    = Ok [str_of "abd"].
Proof. split_and!; by vm_compute. Qed.

(** C2, amended.  For [n > 0] and a cut-off in [0, 1] the result is the
    first [n] entries of one ranking.  The ranking holds the possibilities
    whose ratio reaches the cut-off, each as often as it stands in
    [possibilities], and no others; it goes by falling ratio, and of two
    possibilities with the same ratio the one that is greater as a string,
    code point by code point, comes first, wherever the two stand in
    [possibilities].  So the result holds only possibilities that reach
    the cut-off, in that order, and which of them it holds is settled: an
    entry that is cut off ranks behind every entry returned. *)
Theorem get_close_matches_order (word : str) (possibilities : list str) (n : Z)
    (cutoff : Q) :
  (0 < n)%Z → (0 <= cutoff)%Q → (cutoff <= 1)%Q →
  ∃ l, Difflib.get_close_matches word possibilities n cutoff = Ok l
    ∧ (∀ x, x ∈ l →
         x ∈ possibilities ∧ ∃ r, ratio_of word x = Ok r ∧ (cutoff <= r)%Q)
    ∧ (∀ k1 k2 x y r1 r2,
         k1 < k2 → l !! k1 = Some x → l !! k2 = Some y →
         ratio_of word x = Ok r1 → ratio_of word y = Ok r2 →
         (r2 <= r1)%Q ∧ ((r1 == r2)%Q → Difflib.str_lt x y = false))
    ∧ ∃ ranking,
        l = take (Z.to_nat n) ranking
        ∧ ranking ≡ₚ filter (λ x, float_ge (score word x) cutoff = true) possibilities
        ∧ (∀ x, ratio_of word x = Ok (score word x))
        ∧ (∀ k1 k2 x y r1 r2,
             k1 < k2 → ranking !! k1 = Some x → ranking !! k2 = Some y →
             ratio_of word x = Ok r1 → ratio_of word y = Ok r2 →
             (r2 <= r1)%Q ∧ ((r1 == r2)%Q → Difflib.str_lt x y = false)).
Proof.
  intros Hn H0 H1. rewrite get_close_matches_scored by done.
  eexists. split; [done|]. split_and!.
  - intros x Hx. apply get_close_matches_elem in Hx as [Hin Hc].
    split; [done|]. exists (score word x). by rewrite ratio_of_score.
  - intros k1 k2 x y r1 r2 Hk Hx Hy. rewrite !ratio_of_score.
    intros [= <-] [= <-].
    by apply (get_close_matches_ranked word possibilities (Z.to_nat n) cutoff k1 k2).
  - exists ((λ p : Q * str, p.2)
              <$> stable_sort (λ y x, Difflib.scored_lt x y)
                    (scored word cutoff possibilities)).
    split_and!.
    + by rewrite fmap_take.
    + rewrite stable_sort_perm. unfold scored. rewrite <-list_fmap_compose.
      by rewrite list_fmap_id.
    + apply ratio_of_score.
    + intros k1 k2 x y r1 r2 Hk Hx Hy. rewrite !ratio_of_score.
      intros [= <-] [= <-].
      apply (get_close_matches_ranked word possibilities
               (length (stable_sort (λ y x, Difflib.scored_lt x y)
                          (scored word cutoff possibilities))) cutoff k1 k2);
        by rewrite ?firstn_all.
Qed.

Lemma get_close_matches_order_witness :
  ∃ l, Difflib.get_close_matches (str_of "ab") [str_of "abc"; str_of "abd"] 1 (3 # 5) = Ok l
    ∧ (∀ x, x ∈ l →
         x ∈ [str_of "abc"; str_of "abd"]
         ∧ ∃ r, ratio_of (str_of "ab") x = Ok r ∧ (3 # 5 <= r)%Q)
    ∧ (∀ k1 k2 x y r1 r2,
         k1 < k2 → l !! k1 = Some x → l !! k2 = Some y →
         ratio_of (str_of "ab") x = Ok r1 → ratio_of (str_of "ab") y = Ok r2 →
         (r2 <= r1)%Q ∧ ((r1 == r2)%Q → Difflib.str_lt x y = false))
    ∧ ∃ ranking,
        l = take (Z.to_nat 1) ranking
        ∧ ranking ≡ₚ filter (λ x, float_ge (score (str_of "ab") x) (3 # 5) = true)
                       [str_of "abc"; str_of "abd"]
        ∧ (∀ x, ratio_of (str_of "ab") x = Ok (score (str_of "ab") x))
        ∧ (∀ k1 k2 x y r1 r2,
             k1 < k2 → ranking !! k1 = Some x → ranking !! k2 = Some y →
             ratio_of (str_of "ab") x = Ok r1 → ratio_of (str_of "ab") y = Ok r2 →
             (r2 <= r1)%Q ∧ ((r1 == r2)%Q → Difflib.str_lt x y = false)).
Proof.
  apply (get_close_matches_order (str_of "ab") [str_of "abc"; str_of "abd"] 1 (3 # 5)).
  - lia.
  - by vm_compute.
  - by vm_compute.
Defined.

Lemma get_close_matches_none (word : str) (possibilities : list str) (n : Z) (cutoff : Q) :
  (0 < n)%Z → (0 <= cutoff)%Q → (cutoff <= 1)%Q →
  (∀ x r, x ∈ possibilities → ratio_of word x = Ok r → (r < cutoff)%Q) →
  Difflib.get_close_matches word possibilities n cutoff = Ok [].
Proof.
  intros Hn H0 H1 Hnone. rewrite get_close_matches_scored by done.
  replace (scored word cutoff possibilities) with (@nil (Q * list N));
    [simpl; by rewrite take_nil|].
  symmetry. unfold scored.
  induction possibilities as [|x possibilities IH]; [done|].
  rewrite filter_cons_False.
  - apply IH. intros y r Hy. apply Hnone. by right.
  - rewrite float_ge_spec. apply Qlt_not_le.
    apply (Hnone x); [by left|apply ratio_of_score].
Qed.

Lemma get_close_matches_some (word : str) (possibilities : list str) (n : Z) (cutoff : Q) :
  (0 < n)%Z → (0 <= cutoff)%Q → (cutoff <= 1)%Q →
  (∃ x r, x ∈ possibilities ∧ ratio_of word x = Ok r ∧ (cutoff <= r)%Q) →
  ∃ t l, Difflib.get_close_matches word possibilities n cutoff = Ok (t :: l)
    ∧ length l < Z.to_nat n.
Proof.
  intros Hn H0 H1 (x & r & Hx & Hr & Hc). rewrite get_close_matches_scored by done.
  rewrite ratio_of_score in Hr. injection Hr as <-.
  assert ((score word x, x) ∈ stable_sort (λ y x, Difflib.scored_lt x y)
            (scored word cutoff possibilities)) as Hin.
  { rewrite stable_sort_perm. by apply scored_elem. }
  destruct (stable_sort _ _) as [|h sorted]; [by apply elem_of_nil in Hin|].
  destruct (Z.to_nat n) as [|m] eqn:Hm; [lia|]. simpl.
  eexists _, _. split; [done|]. rewrite length_fmap, length_take. lia.
Qed.

(** C6.  The ratio of every title is computed, and the two calls of the
    application, lines 308 and 395, never fail; nor does any call with
    [n > 0] and a cut-off in [0, 1].  When no possibility has a ratio that
    reaches the cut-off the result is the empty list; the call of line 308,
    with cut-off [0.6] and [n = 1], returns exactly one title, one whose
    ratio reaches [0.6], when there is such a title. *)
Theorem find_close_match_never_fails (movies_data : list row) (movie_to_search : str) :
  let titles := title <$> movies_data in
  (∀ x, ∃ r, ratio_of movie_to_search x = Ok r)
  ∧ (∃ l, App.find_close_match movies_data movie_to_search = Ok l
       ∧ ((∀ x r, x ∈ titles → ratio_of movie_to_search x = Ok r → (r < 3 # 5)%Q) →
          l = [])
       ∧ ((∃ x r, x ∈ titles ∧ ratio_of movie_to_search x = Ok r ∧ (3 # 5 <= r)%Q) →
          ∃ t r, l = [t] ∧ t ∈ titles
            ∧ ratio_of movie_to_search t = Ok r ∧ (3 # 5 <= r)%Q))
  ∧ (∃ l, App.suggestions movies_data movie_to_search = Ok l
       ∧ ((∀ x r, x ∈ titles → ratio_of movie_to_search x = Ok r → (r < 3 # 10)%Q) →
          l = []))
  ∧ (∀ (n : Z) (cutoff : Q),
       (0 < n)%Z → (0 <= cutoff)%Q → (cutoff <= 1)%Q →
       ∃ l, Difflib.get_close_matches movie_to_search titles n cutoff = Ok l
         ∧ ((∀ x r, x ∈ titles → ratio_of movie_to_search x = Ok r → (r < cutoff)%Q) →
            l = [])).
Proof.
  intros titles.
  assert (∀ (n : Z) (cutoff : Q),
            (0 < n)%Z → (0 <= cutoff)%Q → (cutoff <= 1)%Q →
            ∃ l, Difflib.get_close_matches movie_to_search titles n cutoff = Ok l
              ∧ ((∀ x r, x ∈ titles → ratio_of movie_to_search x = Ok r →
                    (r < cutoff)%Q) → l = [])) as Hany.
  { intros n cutoff Hn H0 H1.
    rewrite get_close_matches_scored by done. eexists. split; [done|].
    intros Hnone.
    pose proof (get_close_matches_none movie_to_search titles n cutoff Hn H0 H1 Hnone)
      as Hnil.
    rewrite get_close_matches_scored in Hnil by done. by injection Hnil. }
  split; [|split; [|split; [|done]]].
  - intros x. exists (score movie_to_search x). apply ratio_of_score.
  - unfold App.find_close_match. fold titles.
    destruct (Hany 1%Z (3 # 5)) as (l & Hl & Hnil); [lia|by vm_compute..|].
    exists l. split; [done|]. split; [done|].
    intros Hsome.
    destruct (get_close_matches_some movie_to_search titles 1 (3 # 5)) as
      (t & rest & Ht & Hlen); [lia|by vm_compute..|done|].
    rewrite Hl in Ht. injection Ht as ->.
    destruct rest; [|simpl in Hlen; lia].
    rewrite get_close_matches_scored in Hl by (lia || by vm_compute).
    injection Hl as Hl.
    destruct (get_close_matches_elem movie_to_search titles (Z.to_nat 1) (3 # 5) t)
      as [Hin Hc]; [rewrite Hl; by left|].
    exists t, (score movie_to_search t). split_and!; try done. apply ratio_of_score.
  - unfold App.suggestions. fold titles.
    destruct (Hany 5%Z (3 # 10)) as (l & Hl & Hnil); [lia|by vm_compute..|].
    by exists l.
Qed.

Lemma find_close_match_never_fails_witness :
  (∃ l, App.find_close_match three_movies (str_of "iron man") = Ok l
     ∧ ∃ t r, l = [t] ∧ t ∈ title <$> three_movies
         ∧ ratio_of (str_of "iron man") t = Ok r ∧ (3 # 5 <= r)%Q)
  ∧ (∃ l, App.suggestions three_movies (str_of "Xyzzyplorp") = Ok l ∧ l = []).
Proof.
  destruct (find_close_match_never_fails three_movies (str_of "iron man"))
    as (_ & (l & Hl & _ & Hsome) & _).
  destruct (find_close_match_never_fails three_movies (str_of "Xyzzyplorp"))
    as (_ & _ & (l' & Hl' & Hnone) & _).
  split.
  - exists l. split; [done|]. apply Hsome.
    exists (str_of "Iron Man"), (12 # 16). split.
    + apply list_elem_of_lookup. exists 0. reflexivity.
    + split; [vm_compute; reflexivity|vm_compute; discriminate].
  - exists l'. split; [done|]. apply Hnone.
    intros x r Hx. apply list_elem_of_lookup in Hx as [k Hk].
    do 3 (destruct k as [|k];
          [injection Hk as <-; intros Hr; vm_compute in Hr; injection Hr as <-;
           vm_compute; reflexivity|]).
    discriminate.
Defined.

(** C7.  A title that stands in the list of possibilities has ratio [1.0]
    with itself and is the first element of the result, for every [n > 0]
    and every cut-off in [0, 1]. *)
Theorem exact_title_ranks_first (title : str) (possibilities : list str) (n : Z)
    (cutoff : Q) :
  title ∈ possibilities →
  (0 < n)%Z → (0 <= cutoff)%Q → (cutoff <= 1)%Q →
  ∃ r rest,
    ratio_of title title = Ok r ∧ (r == 1)%Q
    ∧ Difflib.get_close_matches title possibilities n cutoff = Ok (title :: rest).
Proof.
  intros Hin Hn H0 H1. exists (score title title).
  pose proof (score_same title) as Hone.
  rewrite get_close_matches_scored by done.
  assert ((score title title, title) ∈ stable_sort (λ y x, Difflib.scored_lt x y)
            (scored title cutoff possibilities)) as Hz.
  { rewrite stable_sort_perm. apply scored_elem. simpl. split_and!; try done.
    by rewrite Hone. }
  pose proof (sorted_scored title cutoff possibilities) as Hsorted.
  assert (∀ p, p ∈ stable_sort (λ y x, Difflib.scored_lt x y)
                 (scored title cutoff possibilities) → p.1 = score title p.2) as Hscore.
  { intros p Hp. rewrite stable_sort_perm in Hp. by apply scored_elem in Hp as (? & _). }
  destruct (stable_sort _ _) as [|h sorted]; [by apply elem_of_nil in Hz|].
  destruct (Z.to_nat n) as [|m] eqn:Hm; [lia|]. simpl.
  assert (h.2 = title) as ->; [|by eexists; split_and!; [apply ratio_of_score|..]].
  apply elem_of_cons in Hz as [<-|Hz]; [done|].
  apply StronglySorted_cons in Hsorted as [Hhead _].
  rewrite Forall_forall in Hhead. apply Hhead, scored_lt_false in Hz as [Hle _].
  simpl in Hle. apply score_1_inv.
  rewrite <-(Hscore h) by by left.
  apply Qle_antisym; [|by rewrite <-Hone].
  rewrite (Hscore h) by by left. apply score_le_1.
Qed.

Lemma exact_title_ranks_first_witness :
  ∃ r rest,
    ratio_of (str_of "Iron Man") (str_of "Iron Man") = Ok r ∧ (r == 1)%Q
    ∧ Difflib.get_close_matches (str_of "Iron Man")
        [str_of "Iron Man 2"; str_of "Iron Man"; str_of "Avatar"] 5 (3 # 10)
      = Ok (str_of "Iron Man" :: rest).
Proof.
  apply (exact_title_ranks_first (str_of "Iron Man")
           [str_of "Iron Man 2"; str_of "Iron Man"; str_of "Avatar"] 5 (3 # 10)).
  - apply list_elem_of_lookup. exists 1. reflexivity.
  - lia.
  - vm_compute. discriminate.
  - vm_compute. discriminate.
Defined.

(** The scenarios of the specification. *)
Example iron_man_in_lower_case :
  Difflib.get_close_matches (str_of "iron man")
    [str_of "Iron Man"; str_of "Iron Man 2"; str_of "Avatar"] 1 (3 # 5)
  = Ok [str_of "Iron Man"]
  ∧ ratio_of (str_of "iron man") (str_of "Iron Man") = Ok (12 # 16).
Proof. split; by vm_compute. Qed.

Example no_close_title :
  Difflib.get_close_matches (str_of "Xyzzyplorp")
    [str_of "Iron Man"; str_of "Iron Man 2"; str_of "Avatar"] 1 (3 # 5) = Ok []
  ∧ Difflib.get_close_matches (str_of "Xyzzyplorp")
      [str_of "Iron Man"; str_of "Iron Man 2"; str_of "Avatar"] 5 (3 # 10) = Ok [].
Proof. split; by vm_compute. Qed.

(** ** The request from end to end *)

(** A query in lower case finds "Iron Man"; its two neighbours are shown,
    with the placeholder poster when the provider cannot be reached. *)
Example request_iron_man :
  ∃ cards,
    App.handle_request (str_of "k") no_network (λ _, []) three_movies sim_scenario
      (str_of "iron man") 5
    = Ok (App.Recommended (str_of "Iron Man") cards)
    ∧ App.card_title <$> cards = [str_of "Avatar"; str_of "Iron Man"]
    ∧ App.poster_url <$> cards = [Tmdb.ERROR_LOADING; Tmdb.ERROR_LOADING].
Proof. eexists. split; [by vm_compute|]. split; by vm_compute. Qed.

(** With the matrix of two movies that are alike, the page for "Avatar"
    shows "Avatar" itself. *)
Example request_avatar_shows_avatar :
  ∃ cards,
    App.handle_request (str_of "k") no_network (λ _, []) three_movies sim3
      (str_of "Avatar") 5
    = Ok (App.Recommended (str_of "Avatar") cards)
    ∧ App.card_title <$> cards = [str_of "Avatar"; str_of "Iron Man"].
Proof. eexists. split; by vm_compute. Qed.

Example request_not_found :
  App.handle_request (str_of "k") no_network (λ _, []) three_movies sim_scenario
    (str_of "Xyzzyplorp") 5
  = Ok (App.NotFound []).
Proof. by vm_compute. Qed.

Example request_empty :
  App.handle_request (str_of "k") no_network (λ _, []) three_movies sim_scenario [] 5
  = Ok App.EnterName.
Proof. by vm_compute. Qed.

(** * Further properties *)

(** ** What the ranking shows *)

Section shown.

Variable similarity : list (list Q).

(** What [recommend] returns, read backwards. *)
Lemma recommend_Ok (i n : Z) (shown : list (Z * Q)) :
  recommend similarity i n = Ok shown →
  ∃ row, getitem similarity i = Ok row
    ∧ shown = slice (sorted_similar_movies (enumerate row)) 1 (n + 1).
Proof.
  unfold recommend, similarity_score.
  destruct (getitem similarity i) as [row| |]; simpl; [|done..].
  intros [= <-]. by exists row.
Qed.

Lemma recommend_take_drop (i n : Z) (shown : list (Z * Q)) :
  (0 ≤ n)%Z →
  recommend similarity i n = Ok shown →
  ∃ row, getitem similarity i = Ok row
    ∧ shown = take (Z.to_nat n) (drop 1 (sorted_similar_movies (enumerate row))).
Proof.
  intros Hn (row & Hrow & ->)%recommend_Ok. exists row. split; [done|].
  rewrite slice_from_one by lia. f_equal. lia.
Qed.

Lemma sorted_similar_movies_elem (row : list Q) (p : Z * Q) :
  p ∈ sorted_similar_movies (enumerate row)
  ↔ ∃ k, p.1 = Z.of_nat k ∧ row !! k = Some p.2.
Proof.
  unfold sorted_similar_movies, sorted_reverse. rewrite stable_sort_perm.
  rewrite list_elem_of_lookup. by setoid_rewrite enumerate_lookup.
Qed.

Lemma sorted_similar_movies_NoDup (row : list Q) :
  NoDup (sorted_similar_movies (enumerate row)).*1.
Proof.
  unfold sorted_similar_movies, sorted_reverse. rewrite stable_sort_perm.
  pose proof (enumerate_sorted row) as Hs.
  induction Hs as [|p l Hl IH Hp]; [constructor|].
  rewrite fmap_cons. constructor; [|done].
  intros (q & Hq & Hin)%list_elem_of_fmap.
  rewrite Forall_forall in Hp. apply Hp in Hin. lia.
Qed.

(** X1.  Line 329 cuts a prefix: asking for fewer recommendations shows
    the first cards of what a larger number shows, in the same order. *)
Theorem recommend_prefix (i n m : Z) (shown : list (Z * Q)) :
  (0 ≤ n ≤ m)%Z →
  recommend similarity i m = Ok shown →
  recommend similarity i n = Ok (take (Z.to_nat n) shown).
Proof.
  intros Hn Hm. apply recommend_take_drop in Hm as (row & Hrow & ->); [|lia].
  rewrite (recommend_unfold _ _ _ _ Hrow), slice_from_one by lia.
  rewrite take_take. do 2 f_equal. lia.
Qed.

(** X2.  Lines 318 to 329 show the best of the row: a position that is
    left out scores no more than any position shown, unless it is the one
    the slice drops as the movie itself, the first position that holds the
    highest score of the row. *)
Theorem recommend_keeps_the_best (i n : Z) (row : list Q) (shown : list (Z * Q))
    (p : Z * Q) (k : nat) (v : Q) :
  (0 ≤ n)%Z →
  getitem similarity i = Ok row →
  recommend similarity i n = Ok shown →
  p ∈ shown →
  row !! k = Some v →
  (Z.of_nat k, v) ∉ shown →
  (v <= p.2)%Q
  ∨ ∀ j w, row !! j = Some w → (w <= v)%Q ∧ ((w == v)%Q → k ≤ j).
Proof.
  intros Hn Hrow Hshown Hp Hk Hout.
  apply recommend_take_drop in Hshown as (row' & Hrow' & ->); [|done].
  rewrite Hrow in Hrow'. injection Hrow' as <-.
  pose proof (sorted_similar_movies_ranked row) as Hsorted.
  assert ((Z.of_nat k, v) ∈ sorted_similar_movies (enumerate row)) as Hin.
  { apply sorted_similar_movies_elem. by exists k. }
  apply list_elem_of_lookup in Hin as [a Ha].
  apply list_elem_of_lookup in Hp as [b Hb].
  apply lookup_take_Some in Hb as [Hb Hlt]. rewrite lookup_drop in Hb.
  destruct a as [|a].
  - right. intros j w Hj.
    assert ((Z.of_nat j, w) ∈ sorted_similar_movies (enumerate row)) as Hjin.
    { apply sorted_similar_movies_elem. by exists j. }
    apply list_elem_of_lookup in Hjin as [c Hc].
    destruct c as [|c].
    + rewrite Ha in Hc. injection Hc as Hjk ->.
      split; [apply Qle_refl|]. intros _. lia.
    + assert (0 < S c) as Hpos by lia.
      destruct (sorted_lookup _ _ _ _ _ _ Hsorted Hpos Ha Hc) as [Hle Hor].
      simpl in *. split; [done|]. intros Heq.
      destruct Hor as [Hstrict|Hpos']; [|lia].
      rewrite Heq in Hstrict. by apply Qlt_irrefl in Hstrict.
  - left. destruct (decide (a < Z.to_nat n)) as [Hshown|Hbehind].
    + exfalso. apply Hout. apply list_elem_of_lookup. exists a.
      rewrite lookup_take_lt by done. by rewrite lookup_drop.
    + assert (1 + b < S a) as Hlater by lia.
      by destruct (sorted_lookup _ _ _ _ _ _ Hsorted Hlater Hb Ha) as [Hle _].
Qed.

(** X3.  Every pair shown is a position of the row with the score the
    matrix holds there, and no position is shown twice. *)
Theorem recommend_shows_each_once (i n : Z) (row : list Q) (shown : list (Z * Q)) :
  getitem similarity i = Ok row →
  recommend similarity i n = Ok shown →
  (∀ p, p ∈ shown → ∃ k, p.1 = Z.of_nat k ∧ row !! k = Some p.2)
  ∧ NoDup shown.*1.
Proof.
  intros Hrow (row' & Hrow' & ->)%recommend_Ok.
  rewrite Hrow in Hrow'. injection Hrow' as <-. split.
  - intros p Hp%slice_elem_of. by apply sorted_similar_movies_elem.
  - eapply sublist_NoDup; [apply sorted_similar_movies_NoDup|].
    apply fmap_sublist, slice_sublist.
Qed.

(** When the movie's own score is the highest of its row and no earlier
    position reaches it, the movie stands at rank 0. *)
Lemma self_at_rank_zero (i : Z) (row : list Q) (self : Q) :
  (0 ≤ i)%Z →
  row !! Z.to_nat i = Some self →
  (∀ j s, row !! j = Some s → (s <= self)%Q) →
  (∀ j s, j < Z.to_nat i → row !! j = Some s → (s < self)%Q) →
  ∃ rest,
    sorted_similar_movies (enumerate row) = (i, self) :: rest
    ∧ (∀ p, p ∈ rest → p.1 ≠ i)
    ∧ (∀ k v, row !! k = Some v → Z.of_nat k ≠ i → (Z.of_nat k, v) ∈ rest).
Proof.
  intros Hi Hself Hmax Hfirst.
  pose proof (sorted_similar_movies_ranked row) as Hsorted.
  pose proof (sorted_similar_movies_elem row) as Helem.
  assert ((i, self) ∈ sorted_similar_movies (enumerate row)) as Hin.
  { apply Helem. exists (Z.to_nat i). simpl. split; [lia|done]. }
  destruct (sorted_similar_movies (enumerate row)) as [|h rest];
    [by apply elem_of_nil in Hin|].
  apply StronglySorted_cons in Hsorted as [Hhead _]. rewrite Forall_forall in Hhead.
  assert (h = (i, self)) as ->.
  { apply elem_of_cons in Hin as [->|Hin]; [done|].
    destruct (Hhead _ Hin) as [Hle Hor]. simpl in Hle, Hor.
    destruct (proj1 (Helem h)) as (k & Hk1 & Hk2); [by left|].
    pose proof (Hmax k _ Hk2) as Hk. destruct Hor as [Hlt|Hlt].
    - by apply Qlt_not_le in Hlt.
    - assert (k < Z.to_nat i) as Hki by lia.
      pose proof (Hfirst k _ Hki Hk2) as Hk'. by apply Qlt_not_le in Hk'. }
  exists rest. split_and!; [done| |].
  - intros p Hp Hpi.
    destruct (Hhead _ Hp) as [Hle Hor]. simpl in Hle, Hor.
    destruct (proj1 (Helem p)) as (k & Hk1 & Hk2); [by right|].
    assert (k = Z.to_nat i) as -> by lia.
    rewrite Hself in Hk2. injection Hk2 as Hk2.
    destruct Hor as [Hlt|Hlt]; [|lia].
    rewrite <-Hk2 in Hlt. by apply Qlt_irrefl in Hlt.
  - intros k v Hk Hki.
    assert ((Z.of_nat k, v) ∈ (i, self) :: rest) as Hkin.
    { apply Helem. by exists k. }
    apply elem_of_cons in Hkin as [[= Heq _]|Hkin]; [done|done].
Qed.

(** X4.  When the movie's own score is the highest of its row and no
    earlier position reaches it, the pair the slice of line 329 drops at
    rank 0 is the movie itself, and it drops no other: the ranking is the
    movie followed by all the other positions of the row, and what is
    shown is the first [n] of those.  The movie is not among its own
    recommendations. *)
Theorem recommend_leaves_out_itself (i n : Z) (row : list Q) (self : Q) :
  (0 ≤ i)%Z →
  (0 ≤ n)%Z →
  similarity !! Z.to_nat i = Some row →
  row !! Z.to_nat i = Some self →
  (∀ j s, row !! j = Some s → (s <= self)%Q) →
  (∀ j s, j < Z.to_nat i → row !! j = Some s → (s < self)%Q) →
  ∃ rest,
    sorted_similar_movies (enumerate row) = (i, self) :: rest
    ∧ recommend similarity i n = Ok (take (Z.to_nat n) rest)
    ∧ (∀ k v, row !! k = Some v → Z.of_nat k ≠ i → (Z.of_nat k, v) ∈ rest)
    ∧ (∀ p, p ∈ rest → p.1 ≠ i)
    ∧ (∀ p, p ∈ take (Z.to_nat n) rest → p.1 ≠ i).
Proof.
  intros Hi Hn Hrow Hself Hmax Hfirst.
  destruct (self_at_rank_zero i row self Hi Hself Hmax Hfirst)
    as (rest & Hsorted & Hrest & Hall).
  exists rest. split_and!; [done| |done|done|].
  - destruct (recommend_inside similarity i n) as (row' & Hrow' & ->).
    { apply lookup_lt_Some in Hrow. lia. }
    rewrite Hrow in Hrow'. injection Hrow' as <-.
    rewrite Hsorted, slice_from_one by lia. simpl. rewrite drop_0.
    do 2 f_equal. lia.
  - intros p [k [Hk _]]%elem_of_take. apply Hrest. by eapply list_elem_of_lookup_2.
Qed.

End shown.

Lemma recommend_prefix_witness :
  recommend sim_scenario 0 1 = Ok (take (Z.to_nat 1) [(1%Z, 8 # 10); (2%Z, 1 # 10)]).
Proof. apply (recommend_prefix sim_scenario 0 1 2); [lia|reflexivity]. Defined.

Lemma recommend_keeps_the_best_witness :
  (1 # 2 <= 1)%Q
  ∨ ∀ j w, [1; 1; 1 # 2]%Q !! j = Some w → (w <= 1 # 2)%Q ∧ ((w == 1 # 2)%Q → 2 ≤ j).
Proof.
  apply (recommend_keeps_the_best sim3 1 1 [1; 1; 1 # 2]%Q [(1%Z, 1%Q)] (1%Z, 1%Q) 2).
  - lia.
  - reflexivity.
  - reflexivity.
  - by left.
  - reflexivity.
  - intros Hin%list_elem_of_singleton. discriminate.
Defined.

Lemma recommend_shows_each_once_witness :
  (∀ p, p ∈ [(1%Z, 1%Q); (2%Z, 1 # 2)] →
     ∃ k, p.1 = Z.of_nat k ∧ [1; 1; 1 # 2]%Q !! k = Some p.2)
  ∧ NoDup [(1%Z, 1%Q); (2%Z, 1 # 2)].*1.
Proof. by apply (recommend_shows_each_once sim3 1 2). Defined.

Lemma recommend_leaves_out_itself_witness :
  ∃ rest,
    sorted_similar_movies (enumerate [8 # 10; 1; 2 # 10]%Q) = (1%Z, 1%Q) :: rest
    ∧ recommend sim_scenario 1 1 = Ok (take (Z.to_nat 1) rest)
    ∧ (∀ k v, [8 # 10; 1; 2 # 10]%Q !! k = Some v → Z.of_nat k ≠ 1%Z →
         (Z.of_nat k, v) ∈ rest)
    ∧ (∀ p, p ∈ rest → p.1 ≠ 1%Z)
    ∧ (∀ p, p ∈ take (Z.to_nat 1) rest → p.1 ≠ 1%Z).
Proof.
  apply (recommend_leaves_out_itself sim_scenario 1 1 [8 # 10; 1; 2 # 10]%Q 1).
  - lia.
  - lia.
  - reflexivity.
  - reflexivity.
  - intros j s Hj. do 3 (destruct j as [|j]; [injection Hj as <-; by vm_compute|]).
    discriminate.
  - intros j s Hlt Hj. destruct j as [|j]; [injection Hj as <-; by vm_compute|].
    simpl in Hlt. lia.
Defined.
(** ** What the TMDB look-ups read from an answer *)

Section first_result.

Import Tmdb.

Variable TMDB_API_KEY : str.
Variable net : request → reply.
Variable repr : json → str.

Lemma status_ok (status_code : Z) :
  ¬ (400 ≤ status_code < 600)%Z →
  (400 <=? status_code)%Z && (status_code <? 600)%Z = false.
Proof.
  intros Hst. apply andb_false_iff.
  destruct (Z.leb_spec 400 status_code); [|by left]. right. apply Z.ltb_ge. lia.
Qed.

Lemma status_error (status_code : Z) :
  (400 <=? status_code)%Z && (status_code <? 600)%Z = true →
  (400 ≤ status_code < 600)%Z.
Proof. intros [?%Z.leb_le ?%Z.ltb_lt]%andb_true_iff. lia. Qed.

Lemma first_of_answer_Some (title : str) (year : option Z) (movie : json) :
  first_of_answer TMDB_API_KEY net title year = Ok (Some movie)
  ↔ first_result (net (poster_request TMDB_API_KEY title year)) movie.
Proof.
  unfold first_of_answer, requests_get. fold (poster_request TMDB_API_KEY title year).
  split.
  - destruct (net _) as [|st body]; [done|]. simpl. unfold raise_for_status. simpl.
    destruct ((400 <=? st)%Z && (st <? 600)%Z) eqn:Hst; [done|]. simpl.
    destruct body as [data|]; [|done]. simpl.
    destruct (subscript data (str_of "results")) as [results| |] eqn:Hres; [|done..].
    simpl. destruct (truthy results) eqn:Ht; [|done].
    destruct (first results) as [m| |] eqn:Hm; [|done..]. simpl. intros [= <-].
    exists st, data, results. split_and!; try done.
    intros Hbad. rewrite <-not_true_iff_false in Hst. apply Hst.
    apply andb_true_iff. split; [apply Z.leb_le|apply Z.ltb_lt]; lia.
  - intros (st & data & results & -> & Hst & Hres & Ht & Hm). simpl.
    unfold raise_for_status. simpl. rewrite (status_ok _ Hst). simpl.
    rewrite Hres. simpl. by rewrite Ht, Hm.
Qed.

Lemma get_movie_poster_first (title : str) (year : option Z) :
  TMDB_API_KEY ≠ [] →
  get_movie_poster TMDB_API_KEY net repr title year
  = try_except
      (movie ← first_of_answer TMDB_API_KEY net title year;
       match movie with
       | Some movie =>
           poster_path ← get movie (str_of "poster_path") JNull;
           if truthy poster_path then Ok (TMDB_IMAGE_BASE_URL ++ format repr poster_path)
           else Ok NO_POSTER
       | None => Ok NO_POSTER
       end)
      ERROR_LOADING.
Proof.
  intros Hkey. unfold get_movie_poster, first_of_answer.
  rewrite bool_decide_eq_false_2 by done. f_equal.
  destruct (requests_get _ _) as [response| |]; [|done..]. simpl.
  destruct (raise_for_status response); [|done..]. simpl.
  destruct (response_json response) as [data| |]; [|done..]. simpl.
  destruct (subscript data (str_of "results")) as [results| |]; [|done..]. simpl.
  destruct (truthy results); [|done].
  by destruct (first results).
Qed.

Lemma get_movie_details_first (title : str) :
  TMDB_API_KEY ≠ [] →
  get_movie_details TMDB_API_KEY net title
  = try_except
      (movie ← first_of_answer TMDB_API_KEY net title None;
       match movie with
       | Some movie =>
           rating ← get movie (str_of "vote_average") (JStr (str_of "N/A"));
           overview ← get movie (str_of "overview") (JStr (str_of "No overview available"));
           release_date ← get movie (str_of "release_date") (JStr (str_of "Unknown"));
           popularity ← get movie (str_of "popularity") (JNum 0);
           Ok (Some {| rating := rating; overview := overview;
                       release_date := release_date; popularity := popularity |})
       | None => Ok None
       end)
      None.
Proof.
  intros Hkey. unfold get_movie_details, first_of_answer.
  rewrite bool_decide_eq_false_2 by done. f_equal.
  destruct (requests_get _ _) as [response| |]; [|done..]. simpl.
  destruct (raise_for_status response); [|done..]. simpl.
  destruct (response_json response) as [data| |]; [|done..]. simpl.
  destruct (subscript data (str_of "results")) as [results| |]; [|done..]. simpl.
  destruct (truthy results); [|done].
  by destruct (first results).
Qed.

(** X5.  Lines 166 to 173: the poster look-up returns the image URL of a
    poster exactly from the first result of the answer, when that is a
    dict whose ["poster_path"] is not empty; the URL is the image base
    followed by the path. *)
Theorem poster_of_the_first_result (title : str) (year : option Z)
    (movie : list (str * json)) (poster_path : json) :
  TMDB_API_KEY ≠ [] →
  first_result (net (poster_request TMDB_API_KEY title year)) (JDict movie) →
  dict_get movie (str_of "poster_path") = Some poster_path →
  truthy poster_path = true →
  get_movie_poster TMDB_API_KEY net repr title year
  = Ok (TMDB_IMAGE_BASE_URL ++ format repr poster_path).
Proof.
  intros Hkey Hfirst%first_of_answer_Some Hpath Ht.
  rewrite get_movie_poster_first by done. rewrite Hfirst. simpl.
  rewrite Hpath. simpl. by rewrite Ht.
Qed.

(** X6.  Lines 154 to 178: whatever the provider answers, the poster
    look-up returns one of the three placeholders or the image base
    followed by the ["poster_path"] of the first result.  No other result of
    the answer and no other entry of the movie is ever used. *)
Theorem poster_is_placeholder_or_path (title : str) (year : option Z) (u : str) :
  get_movie_poster TMDB_API_KEY net repr title year = Ok u →
  u = NO_API_KEY ∨ u = NO_POSTER ∨ u = ERROR_LOADING
  ∨ ∃ movie poster_path,
      first_result (net (poster_request TMDB_API_KEY title year)) (JDict movie)
      ∧ dict_get movie (str_of "poster_path") = Some poster_path
      ∧ truthy poster_path = true
      ∧ u = TMDB_IMAGE_BASE_URL ++ format repr poster_path.
Proof.
  destruct (decide (TMDB_API_KEY = [])) as [Hkey|Hkey].
  { unfold get_movie_poster. rewrite bool_decide_eq_true_2 by done.
    intros [= <-]. by left. }
  rewrite get_movie_poster_first by done.
  destruct (first_of_answer TMDB_API_KEY net title year) as [[m|]| |] eqn:Hfirst; simpl;
    [|intros [= <-]; tauto..].
  apply first_of_answer_Some in Hfirst.
  destruct m as [| | | | |movie]; simpl; try (intros [= <-]; tauto).
  destruct (dict_get movie (str_of "poster_path")) as [path|] eqn:Hpath; simpl;
    [|intros [= <-]; tauto].
  destruct (truthy path) eqn:Ht; simpl; intros [= <-]; [|tauto].
  do 3 right. by exists movie, path.
Qed.

(** X7.  Lines 187 to 213: the details look-up returns a dict exactly
    when the first result of the answer is a dict; each of its four fields
    is the entry of that result, and the default only where the result has
    no such entry.  An entry that is present with the value [None] is
    passed on as [None]. *)
Theorem details_of_the_first_result (title : str) (d : details) :
  get_movie_details TMDB_API_KEY net title = Ok (Some d)
  ↔ TMDB_API_KEY ≠ []
    ∧ ∃ movie,
        first_result (net (poster_request TMDB_API_KEY title None)) (JDict movie)
        ∧ d = {| rating := entry movie "vote_average" (JStr (str_of "N/A"));
                 overview := entry movie "overview" (JStr (str_of "No overview available"));
                 release_date := entry movie "release_date" (JStr (str_of "Unknown"));
                 popularity := entry movie "popularity" (JNum 0) |}.
Proof.
  split.
  - destruct (decide (TMDB_API_KEY = [])) as [Hkey|Hkey].
    { unfold get_movie_details. by rewrite bool_decide_eq_true_2 by done. }
    rewrite get_movie_details_first by done. intros Hd. split; [done|].
    destruct (first_of_answer TMDB_API_KEY net title None) as [[m|]| |] eqn:Hfirst;
      simpl in Hd; [|done..].
    apply first_of_answer_Some in Hfirst.
    destruct m as [| | | | |movie]; simpl in Hd; try done.
    exists movie. split; [done|]. by injection Hd as <-.
  - intros (Hkey & movie & Hfirst%first_of_answer_Some & ->).
    rewrite get_movie_details_first by done. by rewrite Hfirst.
Qed.

End first_result.

Lemma poster_of_the_first_result_witness :
  Tmdb.get_movie_poster (str_of "k") answer_with_poster (λ _, []) (str_of "Avatar") None
  = Ok (Tmdb.TMDB_IMAGE_BASE_URL ++ Tmdb.format (λ _, []) (Tmdb.JStr (str_of "/a.jpg"))).
Proof.
  apply (poster_of_the_first_result (str_of "k") answer_with_poster (λ _, [])
           (str_of "Avatar") None
           [(str_of "poster_path", Tmdb.JStr (str_of "/a.jpg"));
            (str_of "vote_average", Tmdb.JNum (79 # 10))]).
  - discriminate.
  - eexists _, _, _. split_and!; [reflexivity|lia|reflexivity..].
  - reflexivity.
  - reflexivity.
Defined.

Lemma poster_is_placeholder_or_path_witness :
  Tmdb.NO_POSTER = Tmdb.NO_API_KEY ∨ Tmdb.NO_POSTER = Tmdb.NO_POSTER
  ∨ Tmdb.NO_POSTER = Tmdb.ERROR_LOADING
  ∨ ∃ movie poster_path,
      first_result
        (answer_without_poster (poster_request (str_of "k") (str_of "Avatar") None))
        (Tmdb.JDict movie)
      ∧ Tmdb.dict_get movie (str_of "poster_path") = Some poster_path
      ∧ Tmdb.truthy poster_path = true
      ∧ Tmdb.NO_POSTER = Tmdb.TMDB_IMAGE_BASE_URL ++ Tmdb.format (λ _, []) poster_path.
Proof.
  apply (poster_is_placeholder_or_path (str_of "k") answer_without_poster (λ _, [])
           (str_of "Avatar") None).
  reflexivity.
Defined.
(** ** The ranking of the close matches *)

Section close_matches.

Variable word : str.
Variable cutoff : Q.
Variable possibilities : list str.

(** A possibility scores no more than the [k]-th of the ranking unless it
    stands before it. *)
Lemma ranking_above (k : nat) (p : Q * str) (t : str) :
  stable_sort (λ y x, Difflib.scored_lt x y) (scored word cutoff possibilities) !! k
    = Some p →
  t ∈ possibilities →
  (score word t <= p.1)%Q
  ∨ ∃ j, j < k
      ∧ stable_sort (λ y x, Difflib.scored_lt x y) (scored word cutoff possibilities) !! j
        = Some (score word t, t).
Proof.
  intros Hk Ht.
  assert (p.1 = score word p.2 ∧ (cutoff <= score word p.2)%Q) as [Hp1 Hp2].
  { assert (p ∈ scored word cutoff possibilities) as Hp.
    { rewrite <-(stable_sort_perm (λ y x, Difflib.scored_lt x y)).
      by apply list_elem_of_lookup_2 in Hk. }
    apply scored_elem in Hp. tauto. }
  destruct (Qlt_le_dec (score word t) cutoff) as [Hlow|Hhigh].
  { left. rewrite Hp1. apply Qlt_le_weak. by eapply Qlt_le_trans. }
  assert ((score word t, t) ∈ stable_sort (λ y x, Difflib.scored_lt x y)
            (scored word cutoff possibilities)) as Hin.
  { rewrite stable_sort_perm. by apply scored_elem. }
  apply list_elem_of_lookup in Hin as [j Hj].
  destruct (lt_eq_lt_dec j k) as [[Hlt| ->]|Hgt].
  - right. by exists j.
  - left. rewrite Hk in Hj. injection Hj as ->. simpl. apply Qle_refl.
  - left.
    pose proof (sorted_lookup _ _ _ _ _ _ (sorted_scored word cutoff possibilities)
                  Hgt Hk Hj) as Hs.
    apply scored_lt_false in Hs. tauto.
Qed.

Lemma ranking_lookup (n k : nat) (x : str) :
  ((λ p : Q * str, p.2)
     <$> take n (stable_sort (λ y x, Difflib.scored_lt x y)
                   (scored word cutoff possibilities))) !! k = Some x →
  k < n
  ∧ stable_sort (λ y x, Difflib.scored_lt x y) (scored word cutoff possibilities) !! k
    = Some (score word x, x).
Proof.
  rewrite list_lookup_fmap. intros Hk.
  destruct (take n _ !! k) as [p|] eqn:Hp; [|done]. injection Hk as <-.
  apply lookup_take_Some in Hp as [Hp Hlt]. split; [done|].
  assert (p ∈ scored word cutoff possibilities) as Hin.
  { rewrite <-(stable_sort_perm (λ y x, Difflib.scored_lt x y)).
    by apply list_elem_of_lookup_2 in Hp. }
  apply scored_elem in Hin as [Hp1 _]. rewrite Hp. f_equal.
  destruct p as [s w]. simpl in *. by rewrite Hp1.
Qed.

(** Whatever is left out of the first [n] scores no more than whatever is
    among them. *)
Lemma ranking_best (n : nat) (x t : str) :
  x ∈ (λ p : Q * str, p.2)
        <$> take n (stable_sort (λ y x, Difflib.scored_lt x y)
                      (scored word cutoff possibilities)) →
  t ∈ possibilities →
  t ∉ (λ p : Q * str, p.2)
        <$> take n (stable_sort (λ y x, Difflib.scored_lt x y)
                      (scored word cutoff possibilities)) →
  (score word t <= score word x)%Q.
Proof.
  intros [k Hk]%list_elem_of_lookup Ht Hout.
  apply ranking_lookup in Hk as [Hlt Hk].
  destruct (ranking_above k _ t Hk Ht) as [Hle|(j & Hj & Hjt)]; [done|].
  exfalso. apply Hout. apply list_elem_of_lookup. exists j.
  rewrite list_lookup_fmap, lookup_take_lt by lia. by rewrite Hjt.
Qed.

End close_matches.

(** ** The flow from the query to the cards *)

Section flow.

Variable TMDB_API_KEY : str.
Variable net : Tmdb.request → Tmdb.reply.
Variable repr : Tmdb.json → str.
Variable movies_data : list row.
Variable similarity : list (list Q).

Lemma first_row_with_title (t : str) :
  t ∈ title <$> movies_data →
  ∃ before r after, movies_data = before ++ r :: after ∧ title r = t
    ∧ ∀ r', r' ∈ before → title r' ≠ t.
Proof.
  induction movies_data as [|r l IH]; [by intros ?%elem_of_nil|].
  intros Hin. destruct (decide (title r = t)) as [Heq|Hne].
  - exists [], r, l. split_and!; [done..|]. by intros r' ?%elem_of_nil.
  - rewrite fmap_cons in Hin. apply elem_of_cons in Hin as [Hin|Hin]; [done|].
    destruct (IH Hin) as (before & r0 & after & -> & Hr0 & Hbefore).
    exists (r :: before), r0, after. split_and!; [done..|].
    intros r' [->|Hr']%elem_of_cons; [done|by apply Hbefore].
Qed.

Lemma index_of_the_movie_found (t : str) :
  t ∈ title <$> movies_data →
  ∃ before r after, movies_data = before ++ r :: after ∧ title r = t
    ∧ (∀ r', r' ∈ before → title r' ≠ t)
    ∧ index_of_the_movie movies_data t = Ok (index r).
Proof.
  intros (before & r & after & Hsplit & Hr & Hbefore)%first_row_with_title.
  exists before, r, after. split_and!; [done..|].
  unfold index_of_the_movie. rewrite Hsplit, select_first_match.
  - by rewrite getitem_first.
  - by apply bool_decide_eq_true.
  - intros r' Hr'. by apply bool_decide_eq_false, Hbefore.
Qed.

Lemma index_column_position (before after : list row) (r : row) :
  movies_data = before ++ r :: after → index_column_ok movies_data →
  index r = Z.of_nat (length before) ∧ length before < length movies_data.
Proof.
  intros Hsplit Hcol. unfold index_column_ok in Hcol.
  assert ((index <$> movies_data) !! length before = Some (index r)) as Hl.
  { rewrite Hsplit, list_lookup_fmap, list_lookup_middle; done. }
  rewrite Hcol in Hl. apply lookup_seqZ in Hl. lia.
Qed.

Lemma lookup_by_label (j : nat) :
  range_index movies_data → j < length movies_data →
  ∃ r, movies_data !! j = Some r
    ∧ title_of movies_data (Z.of_nat j) = Ok (title r)
    ∧ movie_info_of movies_data (Z.of_nat j) = Ok r.
Proof.
  intros Hrange Hj.
  destruct (range_index_lookup movies_data j Hrange Hj) as
    (before & r & after & Hsplit & Hbefore & Hr & Hnone).
  exists r. split.
  { rewrite Hsplit, <-Hbefore. by apply list_lookup_middle. }
  unfold title_of, movie_info_of. rewrite Hsplit.
  rewrite select_first_match.
  - by rewrite !getitem_first.
  - by apply bool_decide_eq_true.
  - intros r' Hr'. by apply bool_decide_eq_false, Hnone.
Qed.

Lemma for_each_Ok {A B} (body : A → result B) (l : list A) :
  (∀ x, x ∈ l → ∃ y, body x = Ok y) →
  ∃ ys, App.for_each body l = Ok ys.
Proof.
  induction l as [|x l IH]; intros Hbody; simpl; [by eexists|].
  destruct (Hbody x) as [y ->]; [by left|]. simpl.
  destruct IH as [ys ->]; [intros z Hz; apply Hbody; by right|].
  simpl. by eexists.
Qed.

Lemma for_each_inv {A B} (body : A → result B) (l : list A) (ys : list B) :
  App.for_each body l = Ok ys → Forall2 (λ x y, body x = Ok y) l ys.
Proof.
  revert ys. induction l as [|x l IH]; intros ys; simpl.
  - intros [= <-]. constructor.
  - destruct (body x) as [y| |] eqn:Hy; simpl; [|done..].
    destruct (App.for_each body l) as [ys'| |]; simpl; [|done..].
    intros [= <-]. constructor; [done|by apply IH].
Qed.

(** A card is put together for every pair whose row the catalogue holds,
    unless the overview of the details cannot be cut. *)
Lemma show_card_Ok (movie : Z * Q) (t : str) (r : row) :
  title_of movies_data movie.1 = Ok t →
  movie_info_of movies_data movie.1 = Ok r →
  (∀ d, Tmdb.get_movie_details TMDB_API_KEY net t = Ok (Some d) →
        sliceable (Tmdb.overview d)) →
  ∃ c, App.show_card TMDB_API_KEY net repr movies_data movie = Ok c
    ∧ App.card_title c = t
    ∧ App.card_genres c = slice (genres r) 0 50
    ∧ App.card_director c = director r.
Proof.
  intros Ht Hr Hcut. unfold App.show_card. rewrite Ht. simpl. rewrite Hr. simpl.
  destruct (get_movie_poster_total TMDB_API_KEY net repr t None) as [u ->]. simpl.
  destruct (get_movie_details_total TMDB_API_KEY net t) as [d Hd]. rewrite Hd. simpl.
  destruct d as [d|]; simpl; [|by eexists].
  specialize (Hcut d Hd). destruct (Tmdb.overview d); simpl in *; try done; by eexists.
Qed.

Lemma find_close_match_unfold (movie_to_search : str) :
  App.find_close_match movies_data movie_to_search
  = Ok ((λ p : Q * str, p.2)
        <$> take 1 (stable_sort (λ y x, Difflib.scored_lt x y)
                      (scored movie_to_search (3 # 5) (title <$> movies_data)))).
Proof. unfold App.find_close_match. by rewrite get_close_matches_scored. Qed.

Lemma suggestions_unfold (movie_to_search : str) :
  App.suggestions movies_data movie_to_search
  = Ok ((λ p : Q * str, p.2)
        <$> take 5 (stable_sort (λ y x, Difflib.scored_lt x y)
                      (scored movie_to_search (3 # 10) (title <$> movies_data)))).
Proof. unfold App.suggestions. by rewrite get_close_matches_scored. Qed.

(** X8.  Lines 308 to 317 fit together: whatever [get_close_matches]
    returns first is the title of a row of the catalogue, so the look-up of
    line 317 does not fail after it; it gives the [index] entry of the
    first row with that title. *)
Theorem close_match_has_a_row (movie_to_search close_match : str) (rest : list str) :
  App.find_close_match movies_data movie_to_search = Ok (close_match :: rest) →
  ∃ before r after,
    movies_data = before ++ r :: after
    ∧ title r = close_match
    ∧ (∀ r', r' ∈ before → title r' ≠ close_match)
    ∧ index_of_the_movie movies_data close_match = Ok (index r).
Proof.
  rewrite find_close_match_unfold. intros [= Hl].
  assert (close_match ∈ title <$> movies_data) as Hin.
  { eapply (get_close_matches_elem movie_to_search _ 1 (3 # 5)).
    rewrite Hl. by left. }
  by apply index_of_the_movie_found.
Qed.

Lemma range_index_label (k : nat) (r : row) :
  range_index movies_data → movies_data !! k = Some r → label r = Z.of_nat k.
Proof.
  intros Hrange Hk.
  assert ((label <$> movies_data) !! k = Some (label r)) as Hl
    by by rewrite list_lookup_fmap, Hk.
  rewrite Hrange in Hl. apply lookup_seqZ in Hl. lia.
Qed.

(** Under the default row labels a look-up by label finds the row at that
    position, and only there. *)
Lemma movie_info_of_Ok (i : Z) (r : row) :
  range_index movies_data →
  movie_info_of movies_data i = Ok r →
  (0 ≤ i)%Z ∧ movies_data !! Z.to_nat i = Some r.
Proof.
  intros Hrange Hr.
  destruct (decide (0 ≤ i < Z.of_nat (length movies_data))%Z) as [Hin|Hout].
  - destruct (lookup_by_label (Z.to_nat i) Hrange) as (r' & Hl & _ & Hinfo); [lia|].
    rewrite Z2Nat.id in Hinfo by lia. rewrite Hr in Hinfo. injection Hinfo as ->.
    split; [lia|done].
  - exfalso. unfold movie_info_of in Hr. rewrite select_no_match in Hr; [done|].
    intros r' [k Hk]%list_elem_of_lookup. apply bool_decide_eq_false.
    rewrite (range_index_label k r' Hrange Hk).
    apply lookup_lt_Some in Hk. lia.
Qed.

Lemma title_of_movie_info (i : Z) (t : str) :
  title_of movies_data i = Ok t →
  ∃ r, movie_info_of movies_data i = Ok r ∧ title r = t.
Proof.
  unfold title_of, movie_info_of. rewrite !getitem_first.
  destruct (select _ movies_data) as [|r l]; [done|]. simpl.
  intros [= <-]. by exists r.
Qed.

Lemma show_card_inv (movie : Z * Q) (c : App.card) :
  App.show_card TMDB_API_KEY net repr movies_data movie = Ok c →
  ∃ r, movie_info_of movies_data movie.1 = Ok r
    ∧ App.card_title c = title r
    ∧ App.card_genres c = slice (genres r) 0 50
    ∧ App.card_director c = director r.
Proof.
  unfold App.show_card.
  destruct (title_of movies_data movie.1) as [t| |] eqn:Ht; simpl; [|done..].
  destruct (title_of_movie_info _ _ Ht) as (r & Hr & <-). rewrite Hr. simpl.
  destruct (Tmdb.get_movie_poster _ _ _ _ _) as [u| |]; simpl; [|done..].
  destruct (Tmdb.get_movie_details _ _ _) as [d| |]; simpl; [|done..].
  destruct d as [d|]; simpl;
    [destruct (App.overview_start _) as [o| |]; simpl; [|done..]|];
    intros [= <-]; by exists r.
Qed.

Lemma handle_request_Recommended (movie_to_search : str) (num_recommendations : Z)
    (close_match : str) (cards : list App.card) :
  App.handle_request TMDB_API_KEY net repr movies_data similarity
    movie_to_search num_recommendations = Ok (App.Recommended close_match cards) →
  movie_to_search ≠ []
  ∧ (∃ rest, App.find_close_match movies_data movie_to_search = Ok (close_match :: rest))
  ∧ ∃ i shown,
      index_of_the_movie movies_data close_match = Ok i
      ∧ recommend similarity i num_recommendations = Ok shown
      ∧ App.for_each (App.show_card TMDB_API_KEY net repr movies_data) shown = Ok cards.
Proof.
  unfold App.handle_request. case_bool_decide as Hq; [done|].
  destruct (App.find_close_match movies_data movie_to_search) as [[|t rest]| |];
    simpl; [| |done..].
  { by destruct (App.suggestions movies_data movie_to_search). }
  destruct (index_of_the_movie movies_data t) as [i| |] eqn:Hi; simpl; [|done..].
  destruct (recommend similarity i num_recommendations) as [shown| |] eqn:Hs;
    simpl; [|done..].
  destruct (App.for_each _ shown) as [cs| |] eqn:Hc; simpl; [|done..].
  intros [= <- <-]. split; [done|]. split; [by exists rest|]. by exists i, shown.
Qed.

Lemma handle_request_NotFound (movie_to_search : str) (num_recommendations : Z)
    (shown : list str) :
  App.handle_request TMDB_API_KEY net repr movies_data similarity
    movie_to_search num_recommendations = Ok (App.NotFound shown) →
  movie_to_search ≠ []
  ∧ App.find_close_match movies_data movie_to_search = Ok []
  ∧ ∃ l, App.suggestions movies_data movie_to_search = Ok l ∧ shown = slice l 0 3.
Proof.
  unfold App.handle_request. case_bool_decide as Hq; [done|].
  destruct (App.find_close_match movies_data movie_to_search) as [[|t rest]| |];
    simpl; [| |done..].
  { destruct (App.suggestions movies_data movie_to_search) as [l| |]; simpl; [|done..].
    intros [= <-]. split; [done|]. split; [done|]. by exists l. }
  destruct (index_of_the_movie movies_data t) as [i| |]; simpl; [|done..].
  destruct (recommend similarity i num_recommendations) as [l| |]; simpl; [|done..].
  by destruct (App.for_each _ l).
Qed.

(** On a model as the notebook saves it, a close match leads to the page
    of recommendations. *)
Lemma handle_request_found (N : nat) (movie_to_search : str)
    (num_recommendations : Z) (close_match : str) (rest : list str) :
  well_formed N movies_data similarity →
  (∀ t d, Tmdb.get_movie_details TMDB_API_KEY net t = Ok (Some d) →
          sliceable (Tmdb.overview d)) →
  movie_to_search ≠ [] →
  App.find_close_match movies_data movie_to_search = Ok (close_match :: rest) →
  ∃ cards, App.handle_request TMDB_API_KEY net repr movies_data similarity
             movie_to_search num_recommendations
           = Ok (App.Recommended close_match cards).
Proof.
  intros ([Hrows Hcols] & Hlen & Hrange & Hcol) Hcut Hq Hfound.
  unfold App.handle_request. rewrite bool_decide_eq_false_2 by done.
  rewrite Hfound. simpl.
  rewrite find_close_match_unfold in Hfound. injection Hfound as Hl.
  assert (close_match ∈ title <$> movies_data) as Hin.
  { eapply (get_close_matches_elem movie_to_search _ 1 (3 # 5)). rewrite Hl. by left. }
  destruct (index_of_the_movie_found close_match Hin)
    as (before & r & after & Hsplit & _ & _ & ->).
  simpl. destruct (index_column_position before after r Hsplit Hcol) as [Hidx Hlt].
  destruct (recommend_inside similarity (index r) num_recommendations)
    as (row & Hrow & ->); [lia|]. simpl.
  destruct (for_each_Ok (App.show_card TMDB_API_KEY net repr movies_data)
              (slice (sorted_similar_movies (enumerate row)) 1 (num_recommendations + 1)))
    as [cards ->]; [|simpl; by eexists].
  intros p (k & Hp & Hk)%slice_elem_of%sorted_similar_movies_elem.
  assert (k < length movies_data) as Hklt.
  { apply lookup_lt_Some in Hk. rewrite Forall_forall in Hcols.
    rewrite (Hcols row) in Hk; [lia|]. by apply list_elem_of_lookup_2 in Hrow. }
  destruct (lookup_by_label k Hrange Hklt) as (r' & _ & Ht & Hinfo).
  rewrite <-Hp in Ht, Hinfo.
  destruct (show_card_Ok p (title r') r' Ht Hinfo) as (c & Hc & _); [by eauto|].
  by exists c.
Qed.

Lemma for_each_Raise {A B} (body : A → result B) (l : list A) (e : exn) :
  App.for_each body l = Raise e → ∃ x, x ∈ l ∧ body x = Raise e.
Proof.
  induction l as [|x l IH]; simpl; [done|].
  destruct (body x) as [y| |] eqn:Hx; simpl; [| |done].
  - destruct (App.for_each body l) as [ys| |]; simpl; [done| |done].
    intros [= <-]. destruct IH as (z & Hz & Hbody); [done|].
    exists z. split; [by right|done].
  - intros [= <-]. exists x. split; [by left|done].
Qed.

(** On a model as the notebook saves it, the request raises only at the
    slice of the overview. *)
Lemma request_raises_on_overview (N : nat) (movie_to_search : str)
    (num_recommendations : Z) (e : exn) :
  well_formed N movies_data similarity →
  App.handle_request TMDB_API_KEY net repr movies_data similarity
    movie_to_search num_recommendations = Raise e →
  e = TypeError
  ∧ ∃ t d, t ∈ title <$> movies_data
      ∧ Tmdb.get_movie_details TMDB_API_KEY net t = Ok (Some d)
      ∧ ¬ sliceable (Tmdb.overview d).
Proof.
  intros ([Hrows Hcols] & Hlen & Hrange & Hcol).
  unfold App.handle_request. case_bool_decide as Hq; [done|].
  rewrite find_close_match_unfold. simpl.
  destruct (_ <$> take 1 _) as [|close_match rest] eqn:Hl.
  { by rewrite suggestions_unfold. }
  assert (close_match ∈ title <$> movies_data) as Hin.
  { eapply (get_close_matches_elem movie_to_search _ 1 (3 # 5)). rewrite Hl. by left. }
  destruct (index_of_the_movie_found close_match Hin)
    as (before & r & after & Hsplit & _ & _ & ->).
  simpl. destruct (index_column_position before after r Hsplit Hcol) as [Hidx Hlt].
  destruct (recommend_inside similarity (index r) num_recommendations)
    as (row & Hrow & ->); [lia|]. simpl.
  destruct (App.for_each _ _) as [cards| |] eqn:Hcards; simpl; [done| |done].
  intros [= <-]. apply for_each_Raise in Hcards as (p & Hp & Hcard).
  apply slice_elem_of, sorted_similar_movies_elem in Hp as (k & Hp & Hk).
  assert (k < length movies_data) as Hklt.
  { apply lookup_lt_Some in Hk. rewrite Forall_forall in Hcols.
    rewrite (Hcols row) in Hk; [lia|]. by apply list_elem_of_lookup_2 in Hrow. }
  destruct (lookup_by_label k Hrange Hklt) as (r' & Hr' & Ht & Hinfo).
  rewrite <-Hp in Ht, Hinfo.
  unfold App.show_card in Hcard. rewrite Ht in Hcard. simpl in Hcard.
  rewrite Hinfo in Hcard. simpl in Hcard.
  destruct (get_movie_poster_total TMDB_API_KEY net repr (title r') None) as [u Hu].
  rewrite Hu in Hcard. simpl in Hcard.
  destruct (get_movie_details_total TMDB_API_KEY net (title r')) as [d Hd].
  rewrite Hd in Hcard. simpl in Hcard.
  destruct d as [d|]; simpl in Hcard; [|done].
  assert (title r' ∈ title <$> movies_data) as Hin'.
  { apply list_elem_of_fmap_2. by eapply list_elem_of_lookup_2. }
  destruct (Tmdb.overview d) eqn:Ho; simpl in Hcard; try done;
    injection Hcard as <-; (split; [done|]); exists (title r'), d;
    (split_and!; [done..|]); rewrite Ho; simpl; tauto.
Qed.

(** The head of the ranking when the word itself is a possibility. *)
Lemma exact_word_first (word : str) (possibilities : list str) (cutoff : Q) (n : nat) :
  word ∈ possibilities → (cutoff <= 1)%Q → 0 < n →
  ∃ rest,
    (λ p : Q * str, p.2)
      <$> take n (stable_sort (λ y x, Difflib.scored_lt x y)
                    (scored word cutoff possibilities))
    = word :: rest.
Proof.
  intros Hin H1 Hn. pose proof (score_same word) as Hone.
  assert ((score word word, word) ∈ stable_sort (λ y x, Difflib.scored_lt x y)
            (scored word cutoff possibilities)) as Hz.
  { rewrite stable_sort_perm. apply scored_elem. simpl. split_and!; try done.
    by rewrite Hone. }
  apply list_elem_of_lookup in Hz as [k Hk].
  set (srt := stable_sort (λ y x, Difflib.scored_lt x y)
                (scored word cutoff possibilities)) in *.
  destruct (srt !! 0) as [h|] eqn:Hh;
    [|apply lookup_ge_None in Hh; apply lookup_lt_Some in Hk; lia].
  assert (h.2 = word) as Hhead.
  { destruct (ranking_above word cutoff possibilities 0 h word Hh Hin)
      as [Hle|(j & Hj & _)]; [|lia].
    assert (h ∈ scored word cutoff possibilities) as Hs.
    { rewrite <-(stable_sort_perm (λ y x, Difflib.scored_lt x y)).
      by apply list_elem_of_lookup_2 in Hh. }
    apply scored_elem in Hs as (Hscore & _). apply score_1_inv.
    rewrite <-Hscore. apply Qle_antisym; [|by rewrite <-Hone].
    rewrite Hscore. apply score_le_1. }
  destruct srt as [|h' sorted]; [done|]. injection Hh as ->.
  destruct n as [|n]; [lia|]. simpl. rewrite Hhead. by eexists.
Qed.

(** X9.  Lines 305 to 399 on a model as the notebook saves it: whatever
    the query and whatever number of recommendations is asked for, none of
    the steps the request takes in the catalogue, in the matrix, in
    [difflib] and at the provider raises.  The close match has a row, its
    [index] entry names a row of the matrix, every position of the ranking
    has a row in the catalogue, and the look-ups at the provider do not
    raise.  The one condition on the provider is that an overview it sends
    can be cut with [[:200]].  (The drawing calls of Streamlit are not
    among the steps.) *)
Theorem handle_request_returns (N : nat) (movie_to_search : str)
    (num_recommendations : Z) :
  well_formed N movies_data similarity →
  (∀ t d, Tmdb.get_movie_details TMDB_API_KEY net t = Ok (Some d) →
          sliceable (Tmdb.overview d)) →
  ∃ page, App.handle_request TMDB_API_KEY net repr movies_data similarity
            movie_to_search num_recommendations = Ok page.
Proof.
  intros Hmodel Hcut.
  destruct (decide (movie_to_search = [])) as [->|Hq]; [by eexists|].
  destruct (App.find_close_match movies_data movie_to_search) as [[|t rest]| |] eqn:Hl.
  - unfold App.handle_request. rewrite bool_decide_eq_false_2 by done.
    rewrite Hl, suggestions_unfold. simpl. by eexists.
  - destruct (handle_request_found N _ num_recommendations _ _ Hmodel Hcut Hq Hl)
      as [cards ->]. by eexists.
  - by rewrite find_close_match_unfold in Hl.
  - by rewrite find_close_match_unfold in Hl.
Qed.

(** X10.  Lines 305 to 343 on a model as the notebook saves it, for a
    query that is, character for character, a title of the catalogue.
    Line 308 returns that title and no other.  A page the request
    returns is the page of recommendations for that title, never "not
    found" and never the page of another title.  The request does return
    it provided every overview the provider sends can be cut with
    [[:200]]; the slice of line 390 is the one step that can fail. *)
Theorem exact_title_is_found (N : nat) (movie_to_search : str)
    (num_recommendations : Z) :
  well_formed N movies_data similarity →
  movie_to_search ≠ [] →
  movie_to_search ∈ title <$> movies_data →
  App.find_close_match movies_data movie_to_search = Ok [movie_to_search]
  ∧ (∀ page,
       App.handle_request TMDB_API_KEY net repr movies_data similarity
         movie_to_search num_recommendations = Ok page →
       ∃ cards, page = App.Recommended movie_to_search cards)
  ∧ (∀ e,
       App.handle_request TMDB_API_KEY net repr movies_data similarity
         movie_to_search num_recommendations = Raise e →
       e = TypeError
       ∧ ∃ t d, t ∈ title <$> movies_data
           ∧ Tmdb.get_movie_details TMDB_API_KEY net t = Ok (Some d)
           ∧ ¬ sliceable (Tmdb.overview d))
  ∧ ((∀ t d, Tmdb.get_movie_details TMDB_API_KEY net t = Ok (Some d) →
             sliceable (Tmdb.overview d)) →
     ∃ cards, App.handle_request TMDB_API_KEY net repr movies_data similarity
                movie_to_search num_recommendations
              = Ok (App.Recommended movie_to_search cards)).
Proof.
  intros Hmodel Hq Hin.
  assert (App.find_close_match movies_data movie_to_search = Ok [movie_to_search])
    as Hfound.
  { destruct (exact_word_first movie_to_search (title <$> movies_data) (3 # 5) 1 Hin)
      as [rest Hrest]; [done|lia|].
    rewrite find_close_match_unfold, Hrest. do 2 f_equal.
    assert (length (movie_to_search :: rest) ≤ 1) as Hlen.
    { rewrite <-Hrest, length_fmap, length_take. lia. }
    destruct rest; [done|]. simpl in Hlen. lia. }
  split_and!; [done| | |].
  - intros page. unfold App.handle_request.
    rewrite bool_decide_eq_false_2 by done. rewrite Hfound. simpl.
    destruct (index_of_the_movie movies_data movie_to_search) as [i| |]; simpl;
      [|done..].
    destruct (recommend similarity i num_recommendations) as [l| |]; simpl; [|done..].
    destruct (App.for_each _ l) as [cards| |]; simpl; [|done..].
    intros [= <-]. by exists cards.
  - intros e He.
    by apply (request_raises_on_overview N movie_to_search num_recommendations).
  - intros Hcut. by apply (handle_request_found N _ _ _ []).
Qed.

(** X11.  Lines 308 to 314: the title the page announces as found is a
    title of the catalogue whose ratio with the query reaches [0.6], and no
    title of the catalogue has a higher ratio. *)
Theorem found_title_is_the_best (movie_to_search : str) (num_recommendations : Z)
    (close_match : str) (cards : list App.card) :
  App.handle_request TMDB_API_KEY net repr movies_data similarity
    movie_to_search num_recommendations = Ok (App.Recommended close_match cards) →
  close_match ∈ title <$> movies_data
  ∧ (3 # 5 <= score movie_to_search close_match)%Q
  ∧ ∀ t, t ∈ title <$> movies_data →
      (score movie_to_search t <= score movie_to_search close_match)%Q.
Proof.
  intros (_ & [rest Hfound] & _)%handle_request_Recommended.
  rewrite find_close_match_unfold in Hfound. injection Hfound as Hl.
  assert (close_match ∈ (λ p : Q * str, p.2)
            <$> take 1 (stable_sort (λ y x, Difflib.scored_lt x y)
                          (scored movie_to_search (3 # 5) (title <$> movies_data))))
    as Hin by (rewrite Hl; by left).
  destruct (get_close_matches_elem _ _ _ _ _ Hin) as [Htitle Hscore].
  split_and!; [done..|]. intros t Ht.
  apply list_elem_of_lookup in Hin as [k Hk].
  apply ranking_lookup in Hk as [Hlt Hk].
  destruct (ranking_above _ _ _ k _ t Hk Ht) as [Hle|(j & Hj & _)]; [done|lia].
Qed.

(** X12.  Lines 329 to 378 under the default row labels: the cards follow
    the ranking, one card per pair and in its order, and the card of a pair
    shows the title, the director and the first 50 characters of the genres
    of the row that stands at the pair's position in the catalogue.  The
    position in the similarity row is used as a row label, and these agree. *)
Theorem cards_follow_the_ranking (movie_to_search : str) (num_recommendations : Z)
    (close_match : str) (cards : list App.card) :
  range_index movies_data →
  App.handle_request TMDB_API_KEY net repr movies_data similarity
    movie_to_search num_recommendations = Ok (App.Recommended close_match cards) →
  ∃ i shown,
    index_of_the_movie movies_data close_match = Ok i
    ∧ recommend similarity i num_recommendations = Ok shown
    ∧ Forall2 (λ (p : Z * Q) (c : App.card),
        ∃ r, (0 ≤ p.1)%Z ∧ movies_data !! Z.to_nat p.1 = Some r
          ∧ App.card_title c = title r
          ∧ App.card_director c = director r
          ∧ App.card_genres c = slice (genres r) 0 50) shown cards.
Proof.
  intros Hrange (_ & _ & i & shown & Hi & Hshown & Hcards)%handle_request_Recommended.
  exists i, shown. split_and!; [done..|].
  apply for_each_inv in Hcards. eapply Forall2_impl; [done|]. simpl.
  intros p c (r & Hr & Ht & Hg & Hd)%show_card_inv.
  apply movie_info_of_Ok in Hr as [Hpos Hr]; [|done]. by exists r.
Qed.

(** X13.  Lines 391 to 397: the page says "not found" only when no title
    of the catalogue has a ratio of [0.6] with the query.  It names at most
    three suggestions; each is a title of the catalogue with a ratio of at
    least [0.3], and no title that is left out has a higher ratio than one
    that is named. *)
Theorem not_found_suggestions (movie_to_search : str) (num_recommendations : Z)
    (shown : list str) :
  App.handle_request TMDB_API_KEY net repr movies_data similarity
    movie_to_search num_recommendations = Ok (App.NotFound shown) →
  (∀ t, t ∈ title <$> movies_data → (score movie_to_search t < 3 # 5)%Q)
  ∧ length shown ≤ 3
  ∧ (∀ s, s ∈ shown →
       s ∈ title <$> movies_data ∧ (3 # 10 <= score movie_to_search s)%Q)
  ∧ (∀ s t, s ∈ shown → t ∈ title <$> movies_data → t ∉ shown →
       (score movie_to_search t <= score movie_to_search s)%Q).
Proof.
  intros (_ & Hnone & l & Hl & ->)%handle_request_NotFound.
  rewrite suggestions_unfold in Hl. injection Hl as <-.
  rewrite slice_from_zero by lia.
  rewrite <-fmap_take, take_take.
  change (Z.to_nat 3 `min` 5) with 3.
  split_and!.
  - intros t Ht. apply Qnot_le_lt. intros Hge.
    destruct (get_close_matches_some movie_to_search (title <$> movies_data) 1 (3 # 5))
      as (t' & l' & Hsome & _); [lia|done|done| |].
    + exists t, (score movie_to_search t). split_and!; [done|apply ratio_of_score|done].
    + unfold App.find_close_match in Hnone. by rewrite Hsome in Hnone.
  - rewrite length_fmap, length_take. lia.
  - intros s Hs. by apply get_close_matches_elem in Hs.
  - intros s t Hs Ht Hout. by eapply ranking_best.
Qed.

(** X14.  Lines 154 and 187: without an API key the provider is never
    consulted.  The page is the same whatever the network would answer. *)
Theorem no_key_no_request (net' : Tmdb.request → Tmdb.reply)
    (movie_to_search : str) (num_recommendations : Z) :
  App.handle_request [] net repr movies_data similarity
    movie_to_search num_recommendations
  = App.handle_request [] net' repr movies_data similarity
      movie_to_search num_recommendations.
Proof.
  unfold App.handle_request. case_bool_decide; [done|].
  destruct (App.find_close_match movies_data movie_to_search) as [[|t rest]| |];
    simpl; [done| |done..].
  destruct (index_of_the_movie movies_data t) as [i| |]; simpl; [|done..].
  destruct (recommend similarity i num_recommendations) as [shown| |]; simpl; [|done..].
  assert (App.for_each (App.show_card [] net repr movies_data) shown
          = App.for_each (App.show_card [] net' repr movies_data) shown) as ->; [|done].
  induction shown as [|p shown IH]; [done|].
  change (App.show_card [] net repr movies_data p ≫= (λ y,
            App.for_each (App.show_card [] net repr movies_data) shown ≫= λ ys,
              Ok (y :: ys))
          = App.show_card [] net' repr movies_data p ≫= (λ y,
              App.for_each (App.show_card [] net' repr movies_data) shown ≫= λ ys,
                Ok (y :: ys))).
  by rewrite IH.
Qed.

(** X15.  Lines 205 and 390: an overview that the first result carries
    with the value [None], or as a number, reaches the slice of line 390,
    since the default of line 205 stands in only for an absent entry; the
    card then ends in a [TypeError], which nothing catches. *)
Theorem overview_that_cannot_be_cut (movie : Z * Q) (t : str) (r : row)
    (first_movie : list (str * Tmdb.json)) (v : Tmdb.json) :
  TMDB_API_KEY ≠ [] →
  title_of movies_data movie.1 = Ok t →
  movie_info_of movies_data movie.1 = Ok r →
  first_result (net (poster_request TMDB_API_KEY t None)) (Tmdb.JDict first_movie) →
  Tmdb.dict_get first_movie (str_of "overview") = Some v →
  scalar v →
  App.show_card TMDB_API_KEY net repr movies_data movie = Raise TypeError.
Proof.
  intros Hkey Ht Hr Hfirst Hv Hscalar.
  unfold App.show_card. rewrite Ht. simpl. rewrite Hr. simpl.
  destruct (get_movie_poster_total TMDB_API_KEY net repr t None) as [u ->]. simpl.
  rewrite get_movie_details_first by done.
  apply first_of_answer_Some in Hfirst. rewrite Hfirst. simpl.
  rewrite Hv. simpl. by destruct v.
Qed.

(** A ratio that reaches [p/q] has matched its share of the two lengths. *)
Lemma calculate_ratio_ge (M T : nat) (p : Z) (q : positive) :
  T ≠ 0 → (p # q <= Difflib.calculate_ratio M T)%Q →
  (p * Z.of_nat T ≤ 2 * Z.of_nat M * Z.pos q)%Z.
Proof.
  intros HT. unfold Difflib.calculate_ratio. destruct (Nat.eqb_spec T 0); [done|].
  unfold Qle. simpl Qnum. simpl Qden. rewrite positive_of_nat by done. lia.
Qed.

Lemma common_nothing (x y : str) :
  (∀ c, c ∈ y → c ∉ x) → common x y = 0.
Proof.
  intros Hdisjoint. unfold common.
  apply gmultiset_size_empty_iff, gmultiset_eq. intros c.
  rewrite multiplicity_intersection, multiplicity_empty.
  destruct (decide (c ∈ y)) as [Hy|Hy].
  - apply Hdisjoint in Hy. rewrite <-elem_of_list_to_set_disj in Hy.
    unfold elem_of, gmultiset_elem_of in Hy. lia.
  - rewrite <-elem_of_list_to_set_disj in Hy.
    unfold elem_of, gmultiset_elem_of in Hy. lia.
Qed.

(** X16.  Lines 308 to 310: a title can be found only if its length and
    the length of the query are close, neither below three sevenths of the
    other, and if the characters the two have in common, counted with
    their repetitions, make up three tenths of the two lengths together.  A
    query that abbreviates a title further is not matched to it. *)
Theorem found_title_is_alike (movie_to_search : str) (num_recommendations : Z)
    (close_match : str) (cards : list App.card) :
  App.handle_request TMDB_API_KEY net repr movies_data similarity
    movie_to_search num_recommendations = Ok (App.Recommended close_match cards) →
  3 * length movie_to_search ≤ 7 * length close_match
  ∧ 3 * length close_match ≤ 7 * length movie_to_search
  ∧ 3 * (length movie_to_search + length close_match)
    ≤ 10 * common close_match movie_to_search.
Proof.
  intros (Hq & [rest Hfound] & _)%handle_request_Recommended.
  rewrite find_close_match_unfold in Hfound. injection Hfound as Hl.
  assert ((3 # 5 <= score movie_to_search close_match)%Q) as Hscore.
  { eapply (get_close_matches_elem movie_to_search _ 1 (3 # 5)). rewrite Hl. by left. }
  destruct (ratio_of_bounds movie_to_search close_match)
    as (M & Hratio & Hx & Hword & Hquick & _).
  rewrite ratio_of_score in Hratio. injection Hratio as Hratio.
  rewrite quick_matches_common, set_seq1_a, set_seq1_b in Hquick.
  rewrite Hratio in Hscore. apply calculate_ratio_ge in Hscore.
  - lia.
  - destruct movie_to_search; [done|]. simpl. lia.
Qed.

(** X17.  Lines 308 to 397: a query that has no character in common with
    any title of the catalogue (upper and lower case are different
    characters) is not found, and the page has no suggestion for it. *)
Theorem nothing_in_common_no_suggestion (movie_to_search : str)
    (num_recommendations : Z) :
  movie_to_search ≠ [] →
  (∀ t c, t ∈ title <$> movies_data → c ∈ movie_to_search → c ∉ t) →
  App.handle_request TMDB_API_KEY net repr movies_data similarity
    movie_to_search num_recommendations = Ok (App.NotFound []).
Proof.
  intros Hq Hdisjoint.
  assert (∀ x r, x ∈ title <$> movies_data →
            ratio_of movie_to_search x = Ok r → (r <= 0)%Q) as Hzero.
  { intros x r Hx Hr. rewrite ratio_of_score in Hr. injection Hr as <-.
    destruct (quick_ratios_bound movie_to_search x) as [_ Hquick].
    unfold Difflib.quick_ratio in Hquick.
    rewrite quick_matches_common, !set_seq1_a, !set_seq1_b in Hquick.
    rewrite common_nothing in Hquick by (intros c; by apply Hdisjoint).
    unfold Difflib.calculate_ratio in Hquick.
    destruct (Nat.eqb_spec (length x + length movie_to_search) 0) as [Hlen|_].
    - destruct movie_to_search; [done|]. rewrite length_cons in Hlen. lia.
    - eapply Qle_trans; [exact Hquick|]. unfold Qle. simpl. lia. }
  unfold App.handle_request. rewrite bool_decide_eq_false_2 by done.
  unfold App.find_close_match. rewrite get_close_matches_none; [|lia|done|done|].
  - simpl. unfold App.suggestions. rewrite get_close_matches_none; [done|lia|done|done|].
    intros x r Hx Hr. eapply Qle_lt_trans; [by eapply Hzero|done].
  - intros x r Hx Hr. eapply Qle_lt_trans; [by eapply Hzero|done].
Qed.

(** X18.  Lines 305 to 399 on a model as the notebook saves it: of the
    steps the request takes in the catalogue, in the matrix, in [difflib]
    and at the provider, the one that can raise is the slice of line 390,
    with a [TypeError], for a recommended title whose details carry an
    overview that cannot be cut.  No look-up in the catalogue or in the
    matrix fails, and nothing the provider does otherwise reaches the page
    as an exception. *)
Theorem request_fails_only_on_overview (N : nat) (movie_to_search : str)
    (num_recommendations : Z) (e : exn) :
  well_formed N movies_data similarity →
  App.handle_request TMDB_API_KEY net repr movies_data similarity
    movie_to_search num_recommendations = Raise e →
  e = TypeError
  ∧ ∃ t d, t ∈ title <$> movies_data
      ∧ Tmdb.get_movie_details TMDB_API_KEY net t = Ok (Some d)
      ∧ ¬ sliceable (Tmdb.overview d).
Proof.
  apply request_raises_on_overview.
Qed.


(** X20.  Lines 395 to 397: the suggestions are not made distinct.  Every
    row whose title reaches the ratio of [0.3] stands for one suggestion,
    up to three: a title that two rows carry can be named twice. *)
Theorem suggestions_one_per_row (movie_to_search : str) (num_recommendations : Z)
    (shown : list str) :
  App.handle_request TMDB_API_KEY net repr movies_data similarity
    movie_to_search num_recommendations = Ok (App.NotFound shown) →
  shown ⊆+ (scored movie_to_search (3 # 10) (title <$> movies_data)).*2
  ∧ length shown
    = 3 `min` length (scored movie_to_search (3 # 10) (title <$> movies_data)).
Proof.
  intros (_ & _ & l & Hl & ->)%handle_request_NotFound.
  rewrite suggestions_unfold in Hl. injection Hl as <-.
  rewrite slice_from_zero by lia.
  rewrite <-fmap_take, take_take.
  change (Z.to_nat 3 `min` 5) with 3. split.
  - apply fmap_submseteq.
    rewrite <-(stable_sort_perm (λ y x, Difflib.scored_lt x y)
                 (scored movie_to_search (3 # 10) (title <$> movies_data))) at 2.
    apply sublist_submseteq, sublist_take.
  - by rewrite length_fmap, length_take, stable_sort_length.
Qed.

Lemma handle_request_EnterName (movie_to_search : str) (num_recommendations : Z) :
  App.handle_request TMDB_API_KEY net repr movies_data similarity
    movie_to_search num_recommendations = Ok App.EnterName
  ↔ movie_to_search = [].
Proof.
  unfold App.handle_request. case_bool_decide as Hq; [done|]. split; [|done].
  destruct (App.find_close_match movies_data movie_to_search) as [[|t rest]| |];
    simpl; [| |done..].
  { by destruct (App.suggestions movies_data movie_to_search). }
  destruct (index_of_the_movie movies_data t) as [i| |]; simpl; [|done..].
  destruct (recommend similarity i num_recommendations) as [l| |]; simpl; [|done..].
  by destruct (App.for_each _ l).
Qed.

(** X21.  Lines 302 to 305 and 398: the request to enter a movie name is
    shown in one case only, when the button is pressed while the text box
    is empty and the session state holds no quick pick.  A quick pick
    never leads to it, and neither does a text that is typed in. *)
Theorem enter_name_only_after_the_button (search_button : bool) (movie_name : str)
    (movie_input : option str) (num_recommendations : Z) :
  recommendation_logic TMDB_API_KEY net repr movies_data similarity
    search_button movie_name movie_input num_recommendations
  = Some (Ok App.EnterName)
  ↔ search_button = true ∧ movie_name = []
    ∧ (movie_input = None ∨ movie_input = Some []).
Proof.
  unfold recommendation_logic. split.
  - destruct search_button; simpl.
    + intros [= Hpage]. apply handle_request_EnterName in Hpage.
      case_bool_decide as Hname; simpl in Hpage.
      * split_and!; [done..|]. destruct movie_input as [s|]; [right|by left].
        simpl in Hpage. by subst.
      * done.
    + destruct movie_input as [s|]; [|done].
      case_bool_decide as Hs; simpl; [done|].
      intros [= Hpage]. apply handle_request_EnterName in Hpage.
      case_bool_decide as Hname; simpl in Hpage; done.
  - intros (-> & -> & Hinput). simpl.
    by destruct Hinput as [-> | ->].
Qed.

End flow.

Lemma close_match_has_a_row_witness :
  ∃ before r after,
    three_movies = before ++ r :: after
    ∧ title r = str_of "Iron Man"
    ∧ (∀ r', r' ∈ before → title r' ≠ str_of "Iron Man")
    ∧ index_of_the_movie three_movies (str_of "Iron Man") = Ok (index r).
Proof.
  apply (close_match_has_a_row three_movies (str_of "iron man") (str_of "Iron Man") []).
  by vm_compute.
Defined.

Lemma handle_request_returns_witness :
  ∃ page, App.handle_request (str_of "k") answer_with_poster (λ _, []) three_movies
            sim_scenario (str_of "iron man") 5 = Ok page.
Proof.
  apply (handle_request_returns (str_of "k") answer_with_poster (λ _, []) three_movies
           sim_scenario 3).
  - split_and!; [split; [reflexivity|repeat constructor]|reflexivity..].
  - intros t d Hd. vm_compute in Hd. injection Hd as <-. exact I.
Defined.

Lemma found_title_is_the_best_witness :
  str_of "Iron Man" ∈ title <$> three_movies
  ∧ (3 # 5 <= score (str_of "iron man") (str_of "Iron Man"))%Q
  ∧ ∀ t, t ∈ title <$> three_movies →
      (score (str_of "iron man") t <= score (str_of "iron man") (str_of "Iron Man"))%Q.
Proof.
  apply (found_title_is_the_best (str_of "k") no_network (λ _, []) three_movies
           sim_scenario (str_of "iron man") 5 (str_of "Iron Man")
           (cards_of (App.handle_request (str_of "k") no_network (λ _, [])
                        three_movies sim_scenario (str_of "iron man") 5))).
  by vm_compute.
Defined.

Lemma exact_title_is_found_witness :
  App.find_close_match three_movies (str_of "Avatar") = Ok [str_of "Avatar"]
  ∧ (∃ cards, App.handle_request (str_of "k") answer_with_poster (λ _, []) three_movies
                sim_scenario (str_of "Avatar") 5
              = Ok (App.Recommended (str_of "Avatar") cards))
  ∧ (TypeError = TypeError
     ∧ ∃ t d, t ∈ title <$> three_movies
         ∧ Tmdb.get_movie_details (str_of "k") answer_with_null_overview t = Ok (Some d)
         ∧ ¬ sliceable (Tmdb.overview d)).
Proof.
  assert (well_formed 3 three_movies sim_scenario) as Hmodel.
  { split_and!; [split; [reflexivity|repeat constructor]|reflexivity..]. }
  assert (str_of "Avatar" ≠ []) as Hq by discriminate.
  assert (str_of "Avatar" ∈ title <$> three_movies) as Hin.
  { apply list_elem_of_lookup. exists 1. reflexivity. }
  destruct (exact_title_is_found (str_of "k") answer_with_poster (λ _, []) three_movies
              sim_scenario 3 (str_of "Avatar") 5 Hmodel Hq Hin)
    as (Hfound & _ & _ & Hpage).
  destruct (exact_title_is_found (str_of "k") answer_with_null_overview (λ _, [])
              three_movies sim_scenario 3 (str_of "Avatar") 5 Hmodel Hq Hin)
    as (_ & _ & Hraise & _).
  split; [|split].
  - exact Hfound.
  - apply Hpage. intros t d Hd. vm_compute in Hd. injection Hd as <-. exact I.
  - apply Hraise. by vm_compute.
Defined.

Lemma cards_follow_the_ranking_witness :
  ∃ i shown,
    index_of_the_movie three_movies (str_of "Iron Man") = Ok i
    ∧ recommend sim_scenario i 5 = Ok shown
    ∧ Forall2 (λ (p : Z * Q) (c : App.card),
        ∃ r, (0 ≤ p.1)%Z ∧ three_movies !! Z.to_nat p.1 = Some r
          ∧ App.card_title c = title r
          ∧ App.card_director c = director r
          ∧ App.card_genres c = slice (genres r) 0 50) shown
        (cards_of (App.handle_request (str_of "k") no_network (λ _, []) three_movies
                     sim_scenario (str_of "iron man") 5)).
Proof.
  apply (cards_follow_the_ranking (str_of "k") no_network (λ _, []) three_movies
           sim_scenario (str_of "iron man") 5 (str_of "Iron Man")).
  - reflexivity.
  - by vm_compute.
Defined.

Lemma not_found_suggestions_witness :
  (∀ t, t ∈ title <$> three_movies → (score (str_of "Av") t < 3 # 5)%Q)
  ∧ length [str_of "Avatar"] ≤ 3
  ∧ (∀ s, s ∈ [str_of "Avatar"] →
       s ∈ title <$> three_movies ∧ (3 # 10 <= score (str_of "Av") s)%Q)
  ∧ (∀ s t, s ∈ [str_of "Avatar"] → t ∈ title <$> three_movies →
       t ∉ [str_of "Avatar"] →
       (score (str_of "Av") t <= score (str_of "Av") s)%Q).
Proof.
  apply (not_found_suggestions (str_of "k") no_network (λ _, []) three_movies
           sim_scenario (str_of "Av") 5).
  by vm_compute.
Defined.

Lemma overview_that_cannot_be_cut_witness :
  App.show_card (str_of "k") answer_with_null_overview (λ _, []) three_movies
    (1%Z, 8 # 10)
  = Raise TypeError.
Proof.
  apply (overview_that_cannot_be_cut (str_of "k") answer_with_null_overview (λ _, [])
           three_movies (1%Z, 8 # 10) (str_of "Avatar") avatar
           [(str_of "overview", Tmdb.JNull)] Tmdb.JNull).
  - discriminate.
  - reflexivity.
  - reflexivity.
  - eexists _, _, _. split_and!; [reflexivity|lia|reflexivity..].
  - reflexivity.
  - exact I.
Defined.

Lemma found_title_is_alike_witness :
  3 * length (str_of "iron man") ≤ 7 * length (str_of "Iron Man")
  ∧ 3 * length (str_of "Iron Man") ≤ 7 * length (str_of "iron man")
  ∧ 3 * (length (str_of "iron man") + length (str_of "Iron Man"))
    ≤ 10 * common (str_of "Iron Man") (str_of "iron man").
Proof.
  apply (found_title_is_alike (str_of "k") no_network (λ _, []) three_movies
           sim_scenario (str_of "iron man") 5 (str_of "Iron Man")
           (cards_of (App.handle_request (str_of "k") no_network (λ _, [])
                        three_movies sim_scenario (str_of "iron man") 5))).
  by vm_compute.
Defined.

Lemma nothing_in_common_no_suggestion_witness :
  App.handle_request (str_of "k") no_network (λ _, []) three_movies sim_scenario
    (str_of "XYZ") 5
  = Ok (App.NotFound []).
Proof.
  apply (nothing_in_common_no_suggestion (str_of "k") no_network (λ _, [])
           three_movies sim_scenario (str_of "XYZ") 5).
  - discriminate.
  - intros t c Ht Hc Hin.
    apply list_elem_of_lookup in Ht as [i Hi].
    apply list_elem_of_lookup in Hc as [j Hj].
    do 3 (destruct i as [|i];
          [injection Hi as <-;
           do 3 (destruct j as [|j];
                 [injection Hj as <-; vm_compute in Hin;
                  repeat (apply elem_of_cons in Hin as [Hin|Hin]; [discriminate|]);
                  by apply elem_of_nil in Hin|]);
           discriminate|]).
    discriminate.
Defined.

Lemma request_fails_only_on_overview_witness :
  TypeError = TypeError
  ∧ ∃ t d, t ∈ title <$> three_movies
      ∧ Tmdb.get_movie_details (str_of "k") answer_with_null_overview t = Ok (Some d)
      ∧ ¬ sliceable (Tmdb.overview d).
Proof.
  apply (request_fails_only_on_overview (str_of "k") answer_with_null_overview
           (λ _, []) three_movies sim_scenario 3 (str_of "Avatar") 5).
  - split_and!; [split; [reflexivity|repeat constructor]|reflexivity..].
  - by vm_compute.
Defined.


Lemma suggestions_one_per_row_witness :
  [str_of "Iron Man"; str_of "Iron Man"]
    ⊆+ (scored (str_of "Ir") (3 # 10) (title <$> three_movies)).*2
  ∧ length [str_of "Iron Man"; str_of "Iron Man"]
    = 3 `min` length (scored (str_of "Ir") (3 # 10) (title <$> three_movies)).
Proof.
  apply (suggestions_one_per_row (str_of "k") no_network (λ _, []) three_movies
           sim_scenario (str_of "Ir") 5).
  by vm_compute.
Defined.

(** ** The ratio behind the close match *)

(** X22.  Lines 308 and 395, the ratio [get_close_matches] ranks by: for
    every query and every title it lies between 0 and 1, and it is 1 for
    the query itself and for no other string.  A title that differs from
    the query, be it in the case of one letter, has a ratio below 1. *)
Theorem ratio_is_one_only_for_the_same_string (word x : str) :
  ratio_of word x = Ok (score word x)
  ∧ (0 <= score word x)%Q ∧ (score word x <= 1)%Q
  ∧ ((score word x == 1)%Q ↔ x = word).
Proof.
  split_and!.
  - apply ratio_of_score.
  - destruct (ratio_of_bounds word x) as (M & Hratio & _).
    rewrite ratio_of_score in Hratio. injection Hratio as ->.
    unfold Difflib.calculate_ratio. case_match; [done|].
    unfold Qle. simpl. lia.
  - apply score_le_1.
  - split; [apply score_1_inv|]. intros ->. apply score_same.
Qed.

(** X23.  Lines 308 and 395, the two cheap tests [get_close_matches] makes
    before it computes a ratio: both are upper bounds of the ratio, so a
    title whose ratio reaches the cut-off passes both and no close match is
    lost to them. *)
Theorem quick_tests_lose_no_match (word x : str) (cutoff : Q) :
  (cutoff <= score word x)%Q →
  float_ge (Difflib.real_quick_ratio (Difflib.set_seq1 (Difflib.set_seq2 word) x))
    cutoff = true
  ∧ float_ge (Difflib.quick_ratio (Difflib.set_seq1 (Difflib.set_seq2 word) x))
      cutoff = true.
Proof.
  intros Hcut. destruct (quick_ratios_bound word x) as [Hreal Hquick].
  split; apply float_ge_spec; by eapply Qle_trans.
Qed.

Lemma quick_tests_lose_no_match_witness :
  float_ge (Difflib.real_quick_ratio
              (Difflib.set_seq1 (Difflib.set_seq2 (str_of "iron man")) (str_of "Iron Man")))
    (3 # 5) = true
  ∧ float_ge (Difflib.quick_ratio
                (Difflib.set_seq1 (Difflib.set_seq2 (str_of "iron man")) (str_of "Iron Man")))
      (3 # 5) = true.
Proof.
  apply (quick_tests_lose_no_match (str_of "iron man") (str_of "Iron Man") (3 # 5)).
  by vm_compute.
Defined.
